(** * numpy-ml optimizers (neural_nets/optimizers/optimizers.py)

    A shallow embedding of [OptimizerBase], [SGD], [AdaGrad], [RMSProp] and
    [Adam].

    - Scalars are IEEE doubles idealised as exact reals extended with the
      two infinities and NaN: arithmetic on finite values is exact (no
      rounding, no overflow, no signed zero), and the special values follow
      the IEEE rules, so that a division by zero yields inf/nan and raises
      nothing, as in numpy.
    - Tensors are one-dimensional numpy arrays, with numpy's broadcasting
      rule for one dimension.
    - Python objects that are mutated in place (arrays, dicts, instances)
      live in a heap and are referred to by location, so that aliasing and
      [deepcopy] mean something.
    - Methods are computations in a state-and-exception monad: a raised
      exception keeps the mutations made before it. *)

From Stdlib Require Import Reals Lra ZArith.
From stdpp Require Import base option list gmap strings.

Local Open Scope R_scope.

(* ================================================================== *)
(** ** Scalars *)

Inductive fl := Fin (r : R) | PInf | NInf | NaN.


Definition fopp (a : fl) : fl :=
  match a with
  | Fin r => Fin (- r)
  | PInf => NInf
  | NInf => PInf
  | NaN => NaN
  end.

Definition fadd (a b : fl) : fl :=
  match a, b with
  | NaN, _ | _, NaN => NaN
  | Fin x, Fin y => Fin (x + y)
  | PInf, NInf | NInf, PInf => NaN
  | PInf, _ | _, PInf => PInf
  | NInf, _ | _, NInf => NInf
  end.

Definition fsub (a b : fl) : fl := fadd a (fopp b).

(** An infinity of sign [pos] scaled by the finite [r]; [inf * 0] is NaN. *)
Definition inf_scaled (pos : bool) (r : R) : fl :=
  if Rlt_dec 0 r then (if pos then PInf else NInf)
  else if Rlt_dec r 0 then (if pos then NInf else PInf)
  else NaN.

Definition fmul (a b : fl) : fl :=
  match a, b with
  | NaN, _ | _, NaN => NaN
  | Fin x, Fin y => Fin (x * y)
  | PInf, Fin r | Fin r, PInf => inf_scaled true r
  | NInf, Fin r | Fin r, NInf => inf_scaled false r
  | PInf, PInf | NInf, NInf => PInf
  | PInf, NInf | NInf, PInf => NInf
  end.

(** numpy division: [x / 0] is [inf], [-inf] or [nan], never an exception. *)
Definition fdiv (a b : fl) : fl :=
  match a, b with
  | NaN, _ | _, NaN => NaN
  | Fin x, Fin y => if Req_dec_T y 0 then inf_scaled true x else Fin (x / y)
  | Fin _, (PInf | NInf) => Fin 0
  | PInf, Fin y => if Rlt_dec y 0 then NInf else PInf
  | NInf, Fin y => if Rlt_dec y 0 then PInf else NInf
  | (PInf | NInf), (PInf | NInf) => NaN
  end.

Definition fsqrt (a : fl) : fl :=
  match a with
  | Fin x => if Rlt_dec x 0 then NaN else Fin (sqrt x)
  | PInf => PInf
  | NInf | NaN => NaN
  end.

(** [a > b]; every comparison with NaN is false. *)
Definition fgt (a b : fl) : bool :=
  match a, b with
  | NaN, _ | _, NaN => false
  | Fin x, Fin y => if Rlt_dec y x then true else false
  | PInf, PInf => false
  | PInf, _ => true
  | _, PInf => false
  | NInf, _ => false
  | Fin _, NInf => true
  end.


Fixpoint fpow_nat (x : fl) (n : nat) : fl :=
  match n with
  | O => Fin 1
  | S k => fmul x (fpow_nat x k)
  end.

Definition is_zero (x : fl) : bool :=
  match x with
  | Fin r => if Req_dec_T r 0 then true else false
  | _ => false
  end.

Local Close Scope R_scope.

(* ================================================================== *)
(** ** Exceptions and outcomes *)

Inductive exn :=
  | KeyError
  | TypeError
  | ValueError
  | IndexError
  | ZeroDivisionError
  | NotImplementedError
  | SystemError.

Inductive outcome (A : Type) :=
  | Ret (a : A)
  | Raise (e : exn).
Arguments Ret {A} a.
Arguments Raise {A} e.

(** Python's [x ** t] for a float [x] and an int [t]:
    [0.0 ** t] with [t < 0] raises. *)
Definition py_pow (x : fl) (t : Z) : outcome fl :=
  if decide (0 ≤ t)%Z then Ret (fpow_nat x (Z.to_nat t))
  else if is_zero x then Raise ZeroDivisionError
  else Ret (fdiv (Fin 1) (fpow_nat x (Z.to_nat (- t)))).

(* ================================================================== *)
(** ** Tensors *)

Definition tensor := list fl.

Definition zeros_like (x : tensor) : tensor := replicate (length x) (Fin 0).

(** [norm(x)]: the L2 norm of a one-dimensional array. *)
Definition sum_sq (x : tensor) : fl :=
  foldr fadd (Fin 0) ((λ a, fmul a a) <$> x).

Definition norm (x : tensor) : fl := fsqrt (sum_sq x).

(** Shapes [n] and [m] can be broadcast together. *)
Definition compatible (n m : nat) : Prop := n = m ∨ n = 1 ∨ m = 1.

(** An elementwise binary operation on two arrays, with broadcasting. *)
Definition broadcast (f : fl → fl → fl) (x y : tensor) : outcome tensor :=
  if decide (length x = length y) then Ret (zip_with f x y)
  else match x, y with
       | [a], _ => Ret (f a <$> y)
       | _, [b] => Ret ((λ a, f a b) <$> x)
       | _, _ => Raise ValueError
       end.

(** The in-place [x += y]: the result must have the shape of [x]. *)
Definition iadd (x y : tensor) : outcome tensor :=
  if decide (length x = length y) then Ret (zip_with fadd x y)
  else match y with
       | [b] => Ret ((λ a, fadd a b) <$> x)
       | _ => Raise ValueError
       end.

Definition scalar_mul (s : fl) (x : tensor) : tensor := fmul s <$> x.
Definition mul_scalar (x : tensor) (s : fl) : tensor := (λ a, fmul a s) <$> x.
Definition div_scalar (x : tensor) (s : fl) : tensor := (λ a, fdiv a s) <$> x.
Definition add_scalar (x : tensor) (s : fl) : tensor := (λ a, fadd a s) <$> x.
Definition square (x : tensor) : tensor := (λ a, fmul a a) <$> x.
Definition tsqrt (x : tensor) : tensor := fsqrt <$> x.

(* ================================================================== *)
(** ** Python values and the heap *)

(** Values stored in [hyperparameters]: [None], a number or a string. *)
Inductive hval := HNone | HNum (x : fl) | HStr (s : string).

Definition as_float (v : hval) : outcome fl :=
  match v with
  | HNum x => Ret x
  | _ => Raise TypeError
  end.

(** Heap locations. *)
Abbreviation loc := nat.

(** A learning-rate scheduler: [schedule(step, cur_loss)] and its [str]. *)
Record scheduler := {
  sched_call : Z → option fl → fl;
  sched_str : string
}.

Inductive opt_class := ClsBase | ClsSGD | ClsAdaGrad | ClsRMSProp | ClsAdam.

(** The attributes of an optimizer instance. *)
Record instance := {
  cls : opt_class;
  cache : loc;
  cur_step : Z;
  hyperparameters : loc;
  lr_scheduler : scheduler
}.

Inductive obj :=
  | OArr (x : tensor)                  (* a numpy array *)
  | ORec (t : Z) (mean var : loc)      (* Adam's {"t", "mean", "var"} dict *)
  | OCache (c : gmap string loc)       (* a cache dict: name -> entry *)
  | OHyper (H : gmap string hval)      (* a hyperparameter dict *)
  | OInst (i : instance).

Record heap := {
  store : gmap loc obj;
  next : loc
}.

Definition empty_heap : heap := {| store := ∅; next := 0 |}.

(** Locations an object refers to. *)
Definition refs (o : obj) : list loc :=
  match o with
  | OArr _ | OHyper _ => []
  | ORec _ m v => [m; v]
  | OCache c => (map_to_list c).*2
  | OInst i => [cache i; hyperparameters i]
  end.

(** Every allocated location, and every location referred to, is below
    [next]. *)
Definition heap_wf (h : heap) : Prop :=
  ∀ l o, store h !! l = Some o →
    (l < next h)%nat ∧ ∀ r, r ∈ refs o → (r < next h)%nat.

(* ================================================================== *)
(** ** The state-and-exception monad *)

Definition Py (A : Type) : Type := heap → outcome A * heap.

Definition ret {A} (a : A) : Py A := λ h, (Ret a, h).

Definition bind {A B} (m : Py A) (k : A → Py B) : Py B :=
  λ h, match m h with
       | (Ret a, h') => k a h'
       | (Raise e, h') => (Raise e, h')
       end.

Definition raise {A} (e : exn) : Py A := λ h, (Raise e, h).

Definition lift {A} (o : outcome A) : Py A := λ h, (o, h).

#[global] Instance Py_ret : MRet Py := @ret.
#[global] Instance Py_bind : MBind Py := λ A B k m, bind m k.

(** Run a call and go on whatever its outcome: the caller catches. *)
Definition attempt {A} (m : Py A) : Py unit :=
  λ h, (Ret (), (m h).2).

Definition load (l : loc) : Py obj :=
  λ h, match store h !! l with
       | Some o => (Ret o, h)
       | None => (Raise SystemError, h)
       end.

(** The heap after [l] is overwritten, and after an object is allocated. *)
Definition hput (l : loc) (o : obj) (h : heap) : heap :=
  {| store := <[l := o]> (store h); next := next h |}.

Definition halloc (o : obj) (h : heap) : heap :=
  {| store := <[next h := o]> (store h); next := S (next h) |}.

Definition put (l : loc) (o : obj) : Py unit :=
  λ h, (Ret (), hput l o h).

Definition alloc (o : obj) : Py loc :=
  λ h, (Ret (next h), halloc o h).

Definition get_inst (self : loc) : Py instance :=
  o ← load self;
  match o with
  | OInst i => ret i
  | _ => raise SystemError
  end.

Definition get_hyper (l : loc) : Py (gmap string hval) :=
  o ← load l;
  match o with
  | OHyper H => ret H
  | _ => raise SystemError
  end.

Definition get_cache (l : loc) : Py (gmap string loc) :=
  o ← load l;
  match o with
  | OCache c => ret c
  | _ => raise SystemError
  end.

(** An operand of array arithmetic: a dict there is a [TypeError]. *)
Definition get_arr (l : loc) : Py tensor :=
  o ← load l;
  match o with
  | OArr x => ret x
  | ORec _ _ _ => raise TypeError
  | _ => raise SystemError
  end.

(** [e["t"]], [e["mean"]], [e["var"]]: an array indexed by a string is an
    [IndexError]. *)
Definition get_rec (l : loc) : Py (Z * loc * loc) :=
  o ← load l;
  match o with
  | ORec t m v => ret (t, m, v)
  | OArr _ => raise IndexError
  | _ => raise SystemError
  end.

(** [H[k]] *)
Definition hyper_getitem (H : loc) (k : string) : Py hval :=
  d ← get_hyper H;
  match d !! k with
  | Some v => ret v
  | None => raise KeyError
  end.

(** [H[k] = v] *)
Definition hyper_setitem (H : loc) (k : string) (v : hval) : Py unit :=
  d ← get_hyper H;
  put H (OHyper (<[k := v]> d)).

(** [k in C] *)
Definition cache_contains (C : loc) (k : string) : Py bool :=
  c ← get_cache C;
  ret (bool_decide (is_Some (c !! k))).

(** [C[k]] *)
Definition cache_getitem (C : loc) (k : string) : Py loc :=
  c ← get_cache C;
  match c !! k with
  | Some e => ret e
  | None => raise KeyError
  end.

(** [C[k] = e] *)
Definition cache_setitem (C : loc) (k : string) (e : loc) : Py unit :=
  c ← get_cache C;
  put C (OCache (<[k := e]> c)).

(** [self.cache = C] *)
Definition set_cache_attr (self : loc) (C : loc) : Py unit :=
  i ← get_inst self;
  put self (OInst {| cls := cls i; cache := C; cur_step := cur_step i;
                     hyperparameters := hyperparameters i;
                     lr_scheduler := lr_scheduler i |}).

(** [self.hyperparameters = H] *)
Definition set_hyperparameters_attr (self : loc) (H : loc) : Py unit :=
  i ← get_inst self;
  put self (OInst {| cls := cls i; cache := cache i; cur_step := cur_step i;
                     hyperparameters := H;
                     lr_scheduler := lr_scheduler i |}).

(** The clipping lines shared by the four [update] methods:
<<
    t = np.inf if clip_norm is None else clip_norm
    if norm(param_grad) > t:
        param_grad = param_grad * t / norm(param_grad)
>> *)
Definition clip (param_grad : tensor) (clip_norm : hval) : outcome tensor :=
  match clip_norm with
  | HStr _ => Raise TypeError
  | HNone =>
      if fgt (norm param_grad) PInf
      then Ret (div_scalar (mul_scalar param_grad PInf) (norm param_grad))
      else Ret param_grad
  | HNum t =>
      if fgt (norm param_grad) t
      then Ret (div_scalar (mul_scalar param_grad t) (norm param_grad))
      else Ret param_grad
  end.

Fixpoint for_each {A} (l : list A) (body : A → Py unit) : Py unit :=
  match l with
  | [] => mret ()
  | a :: l' => body a;; for_each l' body
  end.

(* ================================================================== *)
(** ** The scheduler factory

    [initializers.SchedulerInitializer] is not part of this package: it is
    an interface that turns a scheduler specification and an optional base
    learning rate into a scheduler. *)

Class SchedulerInitializer :=
  resolve_scheduler : hval → option fl → scheduler.

(** The scheduler the factory must yield when no specification is given:
    a constant rate. *)
Definition constant_scheduler (lr : fl) : scheduler :=
  {| sched_call := λ _ _, lr; sched_str := "ConstantScheduler" |}.

(** A factory that knows constant schedulers only. *)
Definition constant_factory : SchedulerInitializer :=
  λ _ lr, constant_scheduler (default (Fin 0) lr).


(* ================================================================== *)
(** ** deepcopy *)

Definition succs (s : gmap loc obj) (l : loc) : list loc :=
  match s !! l with
  | Some o => refs o
  | None => []
  end.

(** The locations within [d] references of [l]. *)
Fixpoint reach (s : gmap loc obj) (d : nat) (l : loc) : list loc :=
  l :: match d with
       | O => []
       | S d' => succs s l ≫= reach s d'
       end.

(** The clone of an object whose referents are cloned [n] locations up. *)
Definition shift_obj (n : nat) (o : obj) : obj :=
  match o with
  | OArr x => OArr x
  | OHyper H => OHyper H
  | ORec t m v => ORec t (n + m) (n + v)
  | OCache c => OCache ((λ l, n + l) <$> c)
  | OInst i =>
      OInst {| cls := cls i; cache := n + cache i; cur_step := cur_step i;
               hyperparameters := n + hyperparameters i;
               lr_scheduler := lr_scheduler i |}
  end.

Definition clone_at (n : nat) (old : gmap loc obj) (l : loc)
    (s : gmap loc obj) : gmap loc obj :=
  match old !! l with
  | Some o => <[n + l := shift_obj n o]> s
  | None => s
  end.

(** [deepcopy(x)]: every object reachable from [x] is cloned at a fresh
    location, and the references between the clones mirror those between
    the originals (what deepcopy's memo achieves). No path without a
    repeated object is longer than the number of allocated objects. *)
Definition deepcopy (x : loc) : Py loc :=
  λ h, let n := next h in
       (Ret (n + x),
        {| store := foldr (clone_at n (store h)) (store h)
                          (reach (store h) (3 + n) x);
           next := n + n |}).

(* ================================================================== *)
(** ** OptimizerBase *)

Module OptimizerBase.

Definition __init__ `{SI : SchedulerInitializer}
    (c : opt_class) (lr : fl) (scheduler : hval) : Py loc :=
  C ← alloc (OCache ∅);
  H ← alloc (OHyper ∅);
  alloc (OInst {| cls := c; cache := C; cur_step := 0;
                  hyperparameters := H;
                  lr_scheduler := resolve_scheduler scheduler (Some lr) |}).

Definition step (self : loc) : Py unit :=
  i ← get_inst self;
  put self (OInst {| cls := cls i; cache := cache i;
                     cur_step := cur_step i + 1;
                     hyperparameters := hyperparameters i;
                     lr_scheduler := lr_scheduler i |}).

Definition reset_step (self : loc) : Py unit :=
  i ← get_inst self;
  put self (OInst {| cls := cls i; cache := cache i; cur_step := 0;
                     hyperparameters := hyperparameters i;
                     lr_scheduler := lr_scheduler i |}).

Definition copy (self : loc) : Py loc := deepcopy self.

(** [self.lr_scheduler = s] *)
Definition set_lr_scheduler (self : loc) (s : scheduler) : Py unit :=
  i ← get_inst self;
  put self (OInst {| cls := cls i; cache := cache i;
                     cur_step := cur_step i;
                     hyperparameters := hyperparameters i;
                     lr_scheduler := s |}).

Definition set_hparam `{SI : SchedulerInitializer}
    (self : loc) (kv : string * hval) : Py unit :=
  i ← get_inst self;
  H ← get_hyper (hyperparameters i);
  if bool_decide (is_Some (H !! kv.1)) then
    hyper_setitem (hyperparameters i) kv.1 kv.2;;
    if bool_decide (kv.1 = "lr_scheduler") then
      set_lr_scheduler self (resolve_scheduler kv.2 None)
    else mret ()
  else mret ().

Definition set_cache_entry (self : loc) (kv : string * loc) : Py unit :=
  i ← get_inst self;
  c ← get_cache (cache i);
  if bool_decide (is_Some (c !! kv.1)) then
    cache_setitem (cache i) kv.1 kv.2
  else mret ().

Definition set_params `{SI : SchedulerInitializer} (self : loc)
    (hparam_dict : option (gmap string hval))
    (cache_dict : option (gmap string loc)) : Py unit :=
  match hparam_dict with
  | Some d => for_each (map_to_list d) (set_hparam self)
  | None => mret ()
  end;;
  match cache_dict with
  | Some d => for_each (map_to_list d) (set_cache_entry self)
  | None => mret ()
  end.

(** The abstract method. *)
Definition update (self : loc) (param param_grad : tensor)
    (param_name : string) (cur_loss : option fl) : Py tensor :=
  raise NotImplementedError.

End OptimizerBase.

(** [if param_name not in C: C[param_name] = np.zeros_like(param_grad)] *)
Definition init_entry (C : loc) (param_name : string)
    (param_grad : tensor) : Py unit :=
  has ← cache_contains C param_name;
  if has : bool then mret ()
  else z ← alloc (OArr (zeros_like param_grad));
       cache_setitem C param_name z.

(* ================================================================== *)
(** ** SGD *)

Module SGD.

Definition __init__ `{SI : SchedulerInitializer}
    (lr momentum : fl) (clip_norm scheduler : hval) : Py loc :=
  self ← OptimizerBase.__init__ ClsSGD lr scheduler;
  i ← get_inst self;
  H ← alloc (OHyper (<["id" := HStr "SGD"]>
                     (<["lr" := HNum lr]>
                     (<["momentum" := HNum momentum]>
                     (<["clip_norm" := clip_norm]>
                     (<["lr_scheduler" :=
                          HStr (sched_str (lr_scheduler i))]> ∅))))));
  set_hyperparameters_attr self H;;
  mret self.

Definition update (self : loc) (param param_grad : tensor)
    (param_name : string) (cur_loss : option fl) : Py tensor :=
  i ← get_inst self;
  let C := cache i in
  let H := hyperparameters i in
  momentum ← hyper_getitem H "momentum";
  clip_norm ← hyper_getitem H "clip_norm";
  let lr := sched_call (lr_scheduler i) (cur_step i) cur_loss in
  init_entry C param_name param_grad;;
  (* scale gradient to avoid explosion *)
  param_grad ← lift (clip param_grad clip_norm);
  (* update = momentum * C[param_name] + lr * param_grad *)
  e ← cache_getitem C param_name;
  m ← lift (as_float momentum);
  v ← get_arr e;
  update ← lift (broadcast fadd (scalar_mul m v) (scalar_mul lr param_grad));
  (* self.cache[param_name] = update *)
  i' ← get_inst self;
  u ← alloc (OArr update);
  cache_setitem (cache i') param_name u;;
  lift (broadcast fsub param update).

End SGD.

(* ================================================================== *)
(** ** AdaGrad *)

Module AdaGrad.

Definition __init__ `{SI : SchedulerInitializer}
    (lr eps : fl) (clip_norm scheduler : hval) : Py loc :=
  self ← OptimizerBase.__init__ ClsAdaGrad lr scheduler;
  C ← alloc (OCache ∅);
  set_cache_attr self C;;
  i ← get_inst self;
  H ← alloc (OHyper (<["id" := HStr "AdaGrad"]>
                     (<["lr" := HNum lr]>
                     (<["eps" := HNum eps]>
                     (<["clip_norm" := clip_norm]>
                     (<["lr_scheduler" :=
                          HStr (sched_str (lr_scheduler i))]> ∅))))));
  set_hyperparameters_attr self H;;
  mret self.

Definition update (self : loc) (param param_grad : tensor)
    (param_name : string) (cur_loss : option fl) : Py tensor :=
  i ← get_inst self;
  let C := cache i in
  let H := hyperparameters i in
  eps ← hyper_getitem H "eps";
  clip_norm ← hyper_getitem H "clip_norm";
  let lr := sched_call (lr_scheduler i) (cur_step i) cur_loss in
  init_entry C param_name param_grad;;
  (* scale gradient to avoid explosion *)
  param_grad ← lift (clip param_grad clip_norm);
  (* C[param_name] += param_grad ** 2, in place *)
  e ← cache_getitem C param_name;
  x ← get_arr e;
  x' ← lift (iadd x (square param_grad));
  put e (OArr x');;
  cache_setitem C param_name e;;
  (* update = lr * param_grad / (np.sqrt(C[param_name]) + eps) *)
  eps ← lift (as_float eps);
  update ← lift (broadcast fdiv (scalar_mul lr param_grad)
                           (add_scalar (tsqrt x') eps));
  (* self.cache = C *)
  set_cache_attr self C;;
  lift (broadcast fsub param update).

End AdaGrad.

(* ================================================================== *)
(** ** RMSProp *)

Module RMSProp.

Definition __init__ `{SI : SchedulerInitializer}
    (lr decay eps : fl) (clip_norm scheduler : hval) : Py loc :=
  self ← OptimizerBase.__init__ ClsRMSProp lr scheduler;
  C ← alloc (OCache ∅);
  set_cache_attr self C;;
  i ← get_inst self;
  H ← alloc (OHyper (<["id" := HStr "RMSProp"]>
                     (<["lr" := HNum lr]>
                     (<["eps" := HNum eps]>
                     (<["decay" := HNum decay]>
                     (<["clip_norm" := clip_norm]>
                     (<["lr_scheduler" :=
                          HStr (sched_str (lr_scheduler i))]> ∅)))))));
  set_hyperparameters_attr self H;;
  mret self.

Definition update (self : loc) (param param_grad : tensor)
    (param_name : string) (cur_loss : option fl) : Py tensor :=
  i ← get_inst self;
  let C := cache i in
  let H := hyperparameters i in
  eps ← hyper_getitem H "eps";
  decay ← hyper_getitem H "decay";
  clip_norm ← hyper_getitem H "clip_norm";
  let lr := sched_call (lr_scheduler i) (cur_step i) cur_loss in
  init_entry C param_name param_grad;;
  (* scale gradient to avoid explosion *)
  param_grad ← lift (clip param_grad clip_norm);
  (* C[param_name] = decay * C[param_name] + (1 - decay) * param_grad ** 2 *)
  decay ← lift (as_float decay);
  e ← cache_getitem C param_name;
  x ← get_arr e;
  x' ← lift (broadcast fadd (scalar_mul decay x)
                       (scalar_mul (fsub (Fin 1) decay) (square param_grad)));
  e' ← alloc (OArr x');
  cache_setitem C param_name e';;
  (* update = lr * param_grad / (np.sqrt(C[param_name]) + eps) *)
  eps ← lift (as_float eps);
  update ← lift (broadcast fdiv (scalar_mul lr param_grad)
                           (add_scalar (tsqrt x') eps));
  (* self.cache = C *)
  set_cache_attr self C;;
  lift (broadcast fsub param update).

End RMSProp.

(* ================================================================== *)
(** ** Adam *)

Module Adam.

Definition __init__ `{SI : SchedulerInitializer}
    (lr decay1 decay2 eps : fl) (clip_norm scheduler : hval) : Py loc :=
  self ← OptimizerBase.__init__ ClsAdam lr scheduler;
  C ← alloc (OCache ∅);
  set_cache_attr self C;;
  i ← get_inst self;
  H ← alloc (OHyper (<["id" := HStr "Adam"]>
                     (<["lr" := HNum lr]>
                     (<["eps" := HNum eps]>
                     (<["decay1" := HNum decay1]>
                     (<["decay2" := HNum decay2]>
                     (<["clip_norm" := clip_norm]>
                     (<["lr_scheduler" :=
                          HStr (sched_str (lr_scheduler i))]> ∅))))))));
  set_hyperparameters_attr self H;;
  mret self.

(** [if param_name not in C:
       C[param_name] = {"t": 0, "mean": zeros, "var": zeros}] *)
Definition init_entry (C : loc) (param_name : string)
    (param_grad : tensor) : Py unit :=
  has ← cache_contains C param_name;
  if has : bool then mret ()
  else m ← alloc (OArr (zeros_like param_grad));
       v ← alloc (OArr (zeros_like param_grad));
       e ← alloc (ORec 0 m v);
       cache_setitem C param_name e.

Definition update (self : loc) (param param_grad : tensor)
    (param_name : string) (cur_loss : option fl) : Py tensor :=
  i ← get_inst self;
  let C := cache i in
  let H := hyperparameters i in
  d1 ← hyper_getitem H "decay1";
  d2 ← hyper_getitem H "decay2";
  eps ← hyper_getitem H "eps";
  clip_norm ← hyper_getitem H "clip_norm";
  let lr := sched_call (lr_scheduler i) (cur_step i) cur_loss in
  init_entry C param_name param_grad;;
  (* scale gradient to avoid explosion *)
  param_grad ← lift (clip param_grad clip_norm);
  (* t = C[param_name]["t"] + 1; var = ...["var"]; mean = ...["mean"] *)
  e ← cache_getitem C param_name;
  r ← get_rec e;
  let t := (r.1.1 + 1)%Z in
  let mean := r.1.2 in
  let var := r.2 in
  (* update cache *)
  put e (ORec t mean var);;
  (* C[param_name]["var"] = d2 * var + (1 - d2) * param_grad ** 2 *)
  d2 ← lift (as_float d2);
  var_x ← get_arr var;
  var' ← lift (broadcast fadd (scalar_mul d2 var_x)
                         (scalar_mul (fsub (Fin 1) d2) (square param_grad)));
  var_l ← alloc (OArr var');
  put e (ORec t mean var_l);;
  (* C[param_name]["mean"] = d1 * mean + (1 - d1) * param_grad *)
  d1 ← lift (as_float d1);
  mean_x ← get_arr mean;
  mean' ← lift (broadcast fadd (scalar_mul d1 mean_x)
                          (scalar_mul (fsub (Fin 1) d1) param_grad));
  mean_l ← alloc (OArr mean');
  put e (ORec t mean_l var_l);;
  (* self.cache = C *)
  set_cache_attr self C;;
  (* calc unbiased moment estimates and Adam update *)
  p2 ← lift (py_pow d2 t);
  let v_hat := div_scalar var' (fsub (Fin 1) p2) in
  p1 ← lift (py_pow d1 t);
  let m_hat := div_scalar mean' (fsub (Fin 1) p1) in
  eps ← lift (as_float eps);
  update ← lift (broadcast fdiv (scalar_mul lr m_hat)
                           (add_scalar (tsqrt v_hat) eps));
  lift (broadcast fsub param update).

End Adam.

(* ================================================================== *)
(** ** Method dispatch and calls *)

(** The [update] method of each class. *)
Definition update_of (c : opt_class) (self : loc) (param param_grad : tensor)
    (param_name : string) (cur_loss : option fl) : Py tensor :=
  match c with
  | ClsBase => OptimizerBase.update self param param_grad param_name cur_loss
  | ClsSGD => SGD.update self param param_grad param_name cur_loss
  | ClsAdaGrad => AdaGrad.update self param param_grad param_name cur_loss
  | ClsRMSProp => RMSProp.update self param param_grad param_name cur_loss
  | ClsAdam => Adam.update self param param_grad param_name cur_loss
  end.

(** [self.update(...)]: the method of the instance's class. *)
Definition update (self : loc) (param param_grad : tensor)
    (param_name : string) (cur_loss : option fl) : Py tensor :=
  i ← get_inst self;
  update_of (cls i) self param param_grad param_name cur_loss.

(** [OptimizerBase.__call__] *)
Definition __call__ (self : loc) (param param_grad : tensor)
    (param_name : string) (cur_loss : option fl) : Py tensor :=
  update self param param_grad param_name cur_loss.

(* ================================================================== *)
(** ** Sequences of calls made by a training loop *)

(** A cache value built by the caller: an array, or a
    [{"t", "mean", "var"}] dict with its two arrays. *)
Inductive centry :=
  | EArr (x : tensor)
  | ERec (t : Z) (mean var : tensor).

Inductive call :=
  | CallUpdate (param param_grad : tensor) (param_name : string)
               (cur_loss : option fl)
  | CallStep
  | CallResetStep
  | CallSetParams (hparam_dict : option (gmap string hval))
                  (cache_dict : option (gmap string centry)).

(** The caller builds a new cache value. *)
Definition new_entry (e : centry) : Py loc :=
  match e with
  | EArr x => alloc (OArr x)
  | ERec t mean var =>
      m ← alloc (OArr mean);
      v ← alloc (OArr var);
      alloc (ORec t m v)
  end.

Fixpoint new_entries (l : list (string * centry))
    : Py (list (string * loc)) :=
  match l with
  | [] => mret []
  | kv :: l' =>
      e ← new_entry kv.2;
      r ← new_entries l';
      mret ((kv.1, e) :: r)
  end.

Definition new_cache_dict (d : option (gmap string centry))
    : Py (option (gmap string loc)) :=
  match d with
  | None => mret None
  | Some d => r ← new_entries (map_to_list d); mret (Some (list_to_map r))
  end.

(** One call on the optimizer [self]; an exception is caught by the
    caller, who goes on. *)
Definition exec `{SI : SchedulerInitializer} (self : loc) (c : call) : Py unit :=
  match c with
  | CallUpdate p g n l => attempt (update self p g n l)
  | CallStep => attempt (OptimizerBase.step self)
  | CallResetStep => attempt (OptimizerBase.reset_step self)
  | CallSetParams hp cd =>
      attempt (d ← new_cache_dict cd; OptimizerBase.set_params self hp d)
  end.

Definition run `{SI : SchedulerInitializer} (self : loc) (cs : list call)
    : Py unit :=
  for_each cs (exec self).

Definition is_set_params (c : call) : bool :=
  match c with
  | CallSetParams _ _ => true
  | _ => false
  end.

(** The gradients passed for [name], in order. *)
Definition grads_of (name : string) (cs : list call) : list tensor :=
  omap (λ c, match c with
             | CallUpdate _ g n _ =>
                 if decide (n = name) then Some g else None
             | _ => None
             end) cs.

(* ================================================================== *)
(** ** The state of an optimizer, by value *)

Definition entry_view (s : gmap loc obj) (e : loc) : option centry :=
  match s !! e with
  | Some (OArr x) => Some (EArr x)
  | Some (ORec t m v) =>
      match s !! m, s !! v with
      | Some (OArr mx), Some (OArr vx) => Some (ERec t mx vx)
      | _, _ => None
      end
  | _ => None
  end.

Record snapshot := {
  snap_cls : opt_class;
  snap_cache : gmap string (option centry);
  snap_cur_step : Z;
  snap_hyperparameters : gmap string hval;
  snap_lr_scheduler : scheduler
}.

Definition snapshot_of (h : heap) (self : loc) : option snapshot :=
  match store h !! self with
  | Some (OInst i) =>
      match store h !! cache i, store h !! hyperparameters i with
      | Some (OCache c), Some (OHyper H) =>
          Some {| snap_cls := cls i;
                  snap_cache := entry_view (store h) <$> c;
                  snap_cur_step := cur_step i;
                  snap_hyperparameters := H;
                  snap_lr_scheduler := lr_scheduler i |}
      | _, _ => None
      end
  | _ => None
  end.

(** The cached entry of [name]. *)
Definition cached (h : heap) (self : loc) (name : string) : option centry :=
  s ← snapshot_of h self;
  e ← snap_cache s !! name;
  e.

(** Adam's counter [t] for [name]. *)
Definition cached_t (h : heap) (self : loc) (name : string) : option Z :=
  match cached h self name with
  | Some (ERec t _ _) => Some t
  | _ => None
  end.

(* ================================================================== *)
(** ** Real-valued tensors and the update equations over the reals *)

Definition of_reals (x : list R) : tensor := Fin <$> x.

Definition sum_sqR (x : list R) : R := foldr Rplus 0%R ((λ a, a * a)%R <$> x).

Definition normR (x : list R) : R := sqrt (sum_sqR x).

(** A valid [clip_norm]: unset, or a non-negative number. *)
Definition valid_clip (v : hval) : Prop :=
  match v with
  | HNone => True
  | HNum (Fin c) => (0 <= c)%R
  | _ => False
  end.

(** The clipped gradient over the reals. *)
Definition clipR (g : list R) (v : hval) : list R :=
  match v with
  | HNum (Fin c) =>
      if Rlt_dec c (normR g) then (λ a, a * c / normR g)%R <$> g else g
  | _ => g
  end.

(* ================================================================== *)
(** ** Heap invariants

    [Inv N h0 h]: the heap [h] is well formed, the objects below [N] are
    those of [h0], and the objects from [N] on refer only to objects from
    [N] on. With [N = 0] this is well-formedness alone. *)

Definition good (N b : nat) (l : loc) : Prop := N ≤ l ∧ l < b.

Definition good_obj (N b : nat) (o : obj) : Prop :=
  ∀ r, r ∈ refs o → good N b r.

Record Inv (N : nat) (h0 h : heap) : Prop := {
  inv_old : ∀ l, l < N → store h !! l = store h0 !! l;
  inv_dom : ∀ l o, store h !! l = Some o → l < next h;
  inv_refs : ∀ l o, N ≤ l → store h !! l = Some o → good_obj N (next h) o;
  inv_next : N ≤ next h
}.

(** [m], run from a heap whose [next] is at least [b], keeps the
    invariant, only allocates, and returns a value satisfying [Q] at the
    final [next]. *)
Definition safe (N : nat) (h0 : heap) (b : nat) {A} (m : Py A)
    (Q : A → nat → Prop) : Prop :=
  ∀ h, Inv N h0 h → b ≤ next h →
    Inv N h0 (m h).2 ∧ next h ≤ next (m h).2 ∧
    ∀ a, (m h).1 = Ret a → Q a (next (m h).2).

(** Hyperparameters of the types the constructors store: numbers, and a
    [clip_norm] that is a number or [None]. *)
Definition is_num (H : gmap string hval) (k : string) : Prop :=
  ∃ x, H !! k = Some (HNum x).

Definition well_typed (c : opt_class) (H : gmap string hval) : Prop :=
  (∃ cn, H !! "clip_norm" = Some cn ∧ ∀ s, cn ≠ HStr s) ∧
  match c with
  | ClsBase => False
  | ClsSGD => is_num H "momentum"
  | ClsAdaGrad => is_num H "eps"
  | ClsRMSProp => is_num H "eps" ∧ is_num H "decay"
  | ClsAdam => is_num H "eps" ∧ is_num H "decay1" ∧ is_num H "decay2"
  end.

Definition is_real (H : gmap string hval) (k : string) (P : R → Prop) : Prop :=
  ∃ x, H !! k = Some (HNum (Fin x)) ∧ P x.

(** Hyperparameters with which no update divides zero by zero: finite
    numbers, a valid [clip_norm], a non-zero [eps], and decay rates of
    Adam other than 1. *)
Definition nondegenerate (c : opt_class) (H : gmap string hval) : Prop :=
  (∃ cn, H !! "clip_norm" = Some cn ∧ valid_clip cn) ∧
  match c with
  | ClsBase => False
  | ClsSGD => is_real H "momentum" (λ _, True)
  | ClsAdaGrad => is_real H "eps" (λ e, e ≠ 0%R)
  | ClsRMSProp =>
      is_real H "eps" (λ e, e ≠ 0%R) ∧ is_real H "decay" (λ _, True)
  | ClsAdam =>
      is_real H "eps" (λ e, e ≠ 0%R) ∧
      is_real H "decay1" (λ d, d ≠ 1%R) ∧ is_real H "decay2" (λ d, d ≠ 1%R)
  end.

(** What one iteration of either loop of [set_params] does to the dict. *)
Definition overwrite_step {V} (m : gmap string V) (kv : string * V)
    : gmap string V :=
  if bool_decide (is_Some (m !! kv.1)) then <[kv.1 := kv.2]> m else m.

(** [h'] is [h] but for the hyperparameter dict and the scheduler of
    [self]. *)
Definition hparams_set (self : loc) (h h' : heap) (i : instance)
    (H' : gmap string hval) : Prop :=
  (∃ s, store h' !! self
        = Some (OInst {| cls := cls i; cache := cache i;
                         cur_step := cur_step i;
                         hyperparameters := hyperparameters i;
                         lr_scheduler := s |})) ∧
  store h' !! hyperparameters i = Some (OHyper H') ∧
  (∀ l, l ≠ self → l ≠ hyperparameters i → store h' !! l = store h !! l).

(** The state in which the body of an [update] finds the cache after its
    first lines: [name] has the entry [e]. *)
Record entry_ready (h1 : heap) (self : loc) (i : instance)
    (c1 : gmap string loc) (name : string) (e : loc) : Prop := {
  er_self : store h1 !! self = Some (OInst i);
  er_cache : store h1 !! cache i = Some (OCache c1);
  er_entry : c1 !! name = Some e;
  er_self_lt : self < next h1;
  er_cache_lt : cache i < next h1;
  er_entry_lt : e < next h1
}.

(** The state in which the body of [Adam.update] finds the cache: the
    entry [e] is a dict with counter [t0] and the arrays [mx] and [vx]. *)
Record adam_ready (h1 : heap) (e : loc) (t0 : Z) (ml vl : loc)
    (mx vx : tensor) : Prop := {
  ar_rec : store h1 !! e = Some (ORec t0 ml vl);
  ar_mean : store h1 !! ml = Some (OArr mx);
  ar_var : store h1 !! vl = Some (OArr vx);
  ar_mean_lt : ml < next h1;
  ar_var_lt : vl < next h1
}.

(** A freshly constructed optimizer: the instance [self] of class [c] with
    the hyperparameters [H], an empty cache and step counter 0. *)
Record fresh_optimizer `{SI : SchedulerInitializer} (h : heap) (self : loc)
    (c : opt_class) (lr : fl) (sch : hval) (H : gmap string hval) : Prop := {
  fo_wf : heap_wf h;
  fo_inst : ∃ i, store h !! self = Some (OInst i) ∧ cls i = c ∧
                 cur_step i = 0%Z ∧
                 lr_scheduler i = resolve_scheduler sch (Some lr) ∧
                 store h !! hyperparameters i = Some (OHyper H) ∧
                 store h !! cache i = Some (OCache ∅)
}.

(** The array an [update] finds for [name]: the cached one, or zeros. *)
Definition entry_array (h : heap) (c : gmap string loc) (name : string)
    (param_grad x : tensor) : Prop :=
  match c !! name with
  | Some e => store h !! e = Some (OArr x)
  | None => x = zeros_like param_grad
  end.

(** The dict an [Adam.update] finds for [name]: the cached one, or a new
    one with counter 0 and zeros. *)
Definition entry_rec (h : heap) (c : gmap string loc) (name : string)
    (param_grad : tensor) (t0 : Z) (mx vx : tensor) : Prop :=
  match c !! name with
  | Some e => ∃ ml vl, adam_ready h e t0 ml vl mx vx
  | None => t0 = 0%Z ∧ mx = zeros_like param_grad ∧ vx = zeros_like param_grad
  end.

(** [h1] is [h] with, perhaps, a new entry [e] for [name] in the cache dict
    [C]: nothing else that existed has changed. *)
Record entry_added (h h1 : heap) (C : loc) (c c1 : gmap string loc)
    (name : string) (e : loc) : Prop := {
  ea_frame : ∀ l, l < next h → l ≠ C → store h1 !! l = store h !! l;
  ea_keep : ∀ k e0, c !! k = Some e0 → c1 !! k = Some e0;
  ea_other : ∀ k, k ≠ name → c1 !! k = c !! k;
  ea_next : next h ≤ next h1;
  ea_fresh : c !! name = None → store h !! e = None
}.

(** [self] is an instance of class [k], with the cache dict [c] at [C] and
    the hyperparameter dict [H] at [Hl], in the well-formed heap [h]. *)
Definition optimizer_at (self : loc) (k : opt_class) (C Hl : loc)
    (H : gmap string hval) (h : heap) (c : gmap string loc) : Prop :=
  heap_wf h ∧
  (∃ i, store h !! self = Some (OInst i) ∧ cls i = k ∧
        cache i = C ∧ hyperparameters i = Hl) ∧
  store h !! Hl = Some (OHyper H) ∧
  store h !! C = Some (OCache c).







(** Every cache entry is an array. *)
Definition array_entries (h : heap) (c : gmap string loc) : Prop :=
  ∀ k e, c !! k = Some e → ∃ x, store h !! e = Some (OArr x).


(** Every cache entry is a dict of Adam's, and no two names share one. *)
Definition adam_entries (h : heap) (c : gmap string loc) : Prop :=
  (∀ k e, c !! k = Some e → ∃ t ml vl mx vx, adam_ready h e t ml vl mx vx) ∧
  (∀ k1 k2 e, c !! k1 = Some e → c !! k2 = Some e → k1 = k2).

(** The counter [C[name]["t"]], read through the cache dict [c]. *)
Definition counter (h : heap) (c : gmap string loc) (name : string) : option Z :=
  e ← c !! name;
  match store h !! e with
  | Some (ORec t _ _) => Some t
  | _ => None
  end.

(** No two names share a cache entry. *)
Definition distinct_entries (c : gmap string loc) : Prop :=
  ∀ k1 k2 e, c !! k1 = Some e → c !! k2 = Some e → k1 = k2.

(** The cache an optimizer of class [k] builds: arrays, or for Adam
    dicts, each under one name. *)
Definition cache_shape (k : opt_class) (h : heap) (c : gmap string loc)
    : Prop :=
  match k with
  | ClsAdam => adam_entries h c
  | _ => array_entries h c ∧ distinct_entries c
  end.

(** What one update leaves as it was, for every class. *)
Record update_frame (self C Hl : loc) (k : opt_class) (H : gmap string hval)
    (name : string) (h h' : heap) (c c' : gmap string loc) : Prop := {
  uf_at : optimizer_at self k C Hl H h' c';
  uf_self : store h' !! self = store h !! self;
  uf_entry : is_Some (c' !! name ≫= entry_view (store h'));
  uf_other : ∀ k', k' ≠ name → c' !! k' = c !! k';
  uf_views : ∀ k' e', k' ≠ name → c !! k' = Some e' →
                      entry_view (store h') e' = entry_view (store h) e';
  uf_shape : cache_shape k h' c';
  uf_frame : ∀ l o, store h !! l = Some o → l ≠ C → c !! name ≠ Some l →
                    store h' !! l = Some o;
  uf_origin : ∀ e, c' !! name = Some e →
                   c !! name = Some e ∨ store h !! e = None
}.

(** The step counter after the calls [cs], from [z]: [step] adds one,
    [reset_step] resets, the other calls leave it. *)
Definition step_count (z : Z) (cs : list call) : Z :=
  foldl (λ z c, match c with
                | CallStep => (z + 1)%Z
                | CallResetStep => 0%Z
                | _ => z
                end) z cs.

(** The scheduler after [set_params]: the factory is asked for a new one
    when [hparam_dict] has the key ["lr_scheduler"] and the
    hyperparameters have it too; otherwise the scheduler stays. *)
Definition scheduler_after `{SI : SchedulerInitializer} (s : scheduler)
    (H : gmap string hval) (hparam_dict : option (gmap string hval))
    : scheduler :=
  match hparam_dict ≫= (.!! "lr_scheduler"), H !! "lr_scheduler" with
  | Some v, Some _ => resolve_scheduler v None
  | _, _ => s
  end.

(** Two optimizers of class [k] with the hyperparameters [H], each in its
    heap, with the same state by value. *)
Definition alike (k : opt_class) (H : gmap string hval)
    (self C Hl : loc) (h : heap) (c : gmap string loc)
    (self2 C2 Hl2 : loc) (h2 : heap) (c2 : gmap string loc) : Prop :=
  optimizer_at self k C Hl H h c ∧
  optimizer_at self2 k C2 Hl2 H h2 c2 ∧
  cache_shape k h c ∧
  cache_shape k h2 c2 ∧
  snapshot_of h2 self2 = snapshot_of h self.

(** [D] holds objects that the optimizer [o] does not refer to, and that
    are in [h] what they were in [h0]. *)
Definition apart (k : opt_class) (H : gmap string hval) (o C Hl : loc)
    (D : loc → Prop) (h0 h : heap) (c : gmap string loc) : Prop :=
  optimizer_at o k C Hl H h c ∧
  cache_shape k h c ∧
  (∀ l ob, D l → store h0 !! l = Some ob → store h !! l = Some ob) ∧
  (∀ n e, c !! n = Some e → D e → store h0 !! e = None).

(** The state of an optimizer of class [k] that has just been built:
    an empty cache, step 0, the hyperparameters [H] and the scheduler the
    factory makes of the constructor's arguments. *)
Definition fresh_snapshot `{SI : SchedulerInitializer} (k : opt_class)
    (lr : fl) (sch : hval) (H : gmap string hval) : snapshot :=
  {| snap_cls := k;
     snap_cache := ∅;
     snap_cur_step := 0;
     snap_hyperparameters := H;
     snap_lr_scheduler := resolve_scheduler sch (Some lr) |}.

(* ================================================================== *)
(** ** The update equations of the docstrings, over the reals *)








(* ================================================================== *)
(** ** Example optimizers

    Optimizers as the constructors build them in the empty heap, with the
    factory of constant schedulers. In each of them the instance is at 2;
    SGD keeps the cache dict of the base constructor, at 0, and has its
    hyperparameter dict at 3; the others have a cache dict of their own
    at 3 and their hyperparameter dict at 4. *)

Definition sgd0 : heap :=
  (SGD.__init__ (SI := constant_factory)
     (Fin 0.1) (Fin 0.9) (HNum (Fin 1)) HNone empty_heap).2.

(** The instance and the hyperparameter dict of [sgd0]. *)
Definition sgd0_instance : instance :=
  {| cls := ClsSGD; cache := 0; cur_step := 0; hyperparameters := 3;
     lr_scheduler := constant_scheduler (Fin 0.1) |}.

Definition sgd0_hyperparameters : gmap string hval :=
  <["id" := HStr "SGD"]>
  (<["lr" := HNum (Fin 0.1)]>
  (<["momentum" := HNum (Fin 0.9)]>
  (<["clip_norm" := HNum (Fin 1)]>
  (<["lr_scheduler" := HStr "ConstantScheduler"]> ∅)))).

Definition adagrad0 : heap :=
  (AdaGrad.__init__ (SI := constant_factory)
     (Fin 0.01) (Fin 0.5) HNone HNone empty_heap).2.

(** The hyperparameter dict of [adagrad0]. *)
Definition adagrad0_hyperparameters : gmap string hval :=
  <["id" := HStr "AdaGrad"]>
  (<["lr" := HNum (Fin 0.01)]>
  (<["eps" := HNum (Fin 0.5)]>
  (<["clip_norm" := HNone]>
  (<["lr_scheduler" := HStr "ConstantScheduler"]> ∅)))).

Definition rmsprop0 : heap :=
  (RMSProp.__init__ (SI := constant_factory)
     (Fin 0.01) (Fin 0.9) (Fin 0.5) HNone HNone empty_heap).2.

Definition adam0 : heap :=
  (Adam.__init__ (SI := constant_factory)
     (Fin 0.001) (Fin 0.9) (Fin 0.999) (Fin 0.5) HNone HNone empty_heap).2.

(* ================================================================== *)
(** * Random forests (trees/rf.py)

    A shallow embedding of [bootstrap_sample] and [RandomForest].

    - [DecisionTree] is imported from [dt], which is not among these
      sources: a tree is a value of an abstract type, with the constructor
      and the two methods the forest calls.
    - [np.random] is a generator state, which [np.random.choice] and the
      fitting of a tree read and advance.
    - A numpy array has a dtype, integer or float, and numbers are
      idealised as for the optimizers; a two-dimensional array is the
      list of its rows, which are of one length.
    - A method that assigns to an attribute of the forest returns the
      forest it leaves, also when it raises. *)

Module rf.

(** ** numpy arrays *)

Inductive array1 := A1Int (x : list Z) | A1Float (x : list fl).

Inductive array2 :=
  | A2Int (rows : list (list Z))
  | A2Float (rows : list (list fl)).

(** What [_traverse] returns: an integer label or a float. *)
Inductive value := VInt (z : Z) | VFloat (x : fl).

Definition as_int (v : value) : option Z :=
  match v with
  | VInt z => Some z
  | VFloat _ => None
  end.

Definition to_float (v : value) : fl :=
  match v with
  | VInt z => Fin (IZR z)
  | VFloat x => x
  end.

(** [np.array(rows)] for a list of lists of scalars: int64 when every
    scalar is an integer and there is one, float64 otherwise; the array
    of no scalar at all is float64. *)
Definition np_array2 (rows : list (list value)) : array2 :=
  match mapM (M := option) (mapM (M := option) as_int) rows, concat rows with
  | Some r, _ :: _ => A2Int r
  | _, _ => A2Float (fmap (M := list) (fmap (M := list) to_float) rows)
  end.

(** [np.array(out)] for a list of indices. *)
Definition np_array1 (out : list nat) : array1 :=
  match out with
  | [] => A1Float []
  | _ => A1Int (Z.of_nat <$> out)
  end.

(** The column [j] of an array, and the rows of [a.T]: the columns of
    [a]. An array without rows has none. *)
Definition column {A} (j : nat) (rows : list (list A)) : list A :=
  omap (.!! j) rows.

Definition columns {A} (rows : list (list A)) : list (list A) :=
  match rows with
  | [] => []
  | r :: _ => (λ j, column j rows) <$> seq 0 (length r)
  end.

(** [a[idxs]]: an index out of bounds is an [IndexError]. *)
Fixpoint take {A} (a : list A) (idxs : list nat) : outcome (list A) :=
  match idxs with
  | [] => Ret []
  | i :: idxs' =>
      match a !! i, take a idxs' with
      | None, _ => Raise IndexError
      | Some _, Raise e => Raise e
      | Some v, Ret vs => Ret (v :: vs)
      end
  end.

Definition take1 (y : array1) (idxs : list nat) : outcome array1 :=
  match y with
  | A1Int x =>
      match take x idxs with
      | Ret v => Ret (A1Int v)
      | Raise e => Raise e
      end
  | A1Float x =>
      match take x idxs with
      | Ret v => Ret (A1Float v)
      | Raise e => Raise e
      end
  end.

Definition len1 (y : array1) : nat :=
  match y with
  | A1Int x => length x
  | A1Float x => length x
  end.

(** [y[i]] *)
Definition item (y : array1) (i : nat) : option value :=
  match y with
  | A1Int x => VInt <$> x !! i
  | A1Float x => VFloat <$> x !! i
  end.

(** The number of occurrences of [v] in [x]. *)
Definition count (v : Z) (x : list Z) : nat :=
  length (filter (λ z, z = v) x).

(** [np.bincount(x)]: the occurrences of 0, 1, ..., max(x); a negative
    element is a [ValueError]. *)
Definition bincount (x : list Z) : outcome (list nat) :=
  if decide (Exists (λ z, z < 0)%Z x) then Raise ValueError
  else Ret ((λ v, count (Z.of_nat v) x)
              <$> seq 0 (match x with
                         | [] => 0
                         | _ => S (Z.to_nat (foldr Z.max 0%Z x))
                         end)).

(** The first index, from [i], of the greatest element of [l], [best]
    being the index of the greatest so far, [m]. *)
Fixpoint argmax_from (best m i : nat) (l : list nat) : nat :=
  match l with
  | [] => best
  | v :: l' =>
      if m <? v then argmax_from i v (S i) l'
      else argmax_from best m (S i) l'
  end.

(** [c.argmax()]: the first index of the maximum; of an empty array, a
    [ValueError]. *)
Definition argmax (c : list nat) : outcome nat :=
  match c with
  | [] => Raise ValueError
  | v :: l => Ret (argmax_from 0 v 1 l)
  end.

(** [np.mean(x)] *)
Definition fsum (x : list fl) : fl := foldr fadd (Fin 0) x.

Definition np_mean (x : list fl) : fl :=
  fdiv (fsum x) (Fin (INR (length x))).

(** A list comprehension whose element may raise. *)
Fixpoint collect {A B} (f : A → outcome B) (l : list A) : outcome (list B) :=
  match l with
  | [] => Ret []
  | a :: l' =>
      match f a with
      | Raise e => Raise e
      | Ret b =>
          match collect f l' with
          | Raise e => Raise e
          | Ret bs => Ret (b :: bs)
          end
      end
  end.

(** ** What the forest imports *)

(** [np.random.choice(a, size, replace=True)] *)
Class NumpyRandom := {
  random_state : Type;
  choice : nat → nat → random_state → outcome (list nat) * random_state
}.

(** [choice] draws [size] indices below [a], when [a] is positive. *)
Definition choice_in_range `{NumpyRandom} : Prop :=
  ∀ a size s, 0 < a →
    ∃ idxs, (choice a size s).1 = Ret idxs ∧
            length idxs = size ∧ Forall (λ i, i < a) idxs.

(** [DecisionTree(n_feats, max_depth, criterion, classifier)], [fit] and
    [_traverse(x, root)]. *)
Class DecisionTree `{NumpyRandom} := {
  tree : Type;
  tree_init : Z → option Z → string → bool → tree;
  tree_fit : tree → list (list fl) → array1 → random_state
             → outcome tree * random_state;
  _traverse : tree → list fl → outcome value
}.

(** ** bootstrap_sample *)

Section forest.
Context `{DT : DecisionTree}.

Definition bootstrap_sample (X : list (list fl)) (Y : array1)
    (s : random_state)
    : outcome (list (list fl) * array1) * random_state :=
  let N := length X in
  match choice N N s with
  | (Raise e, s') => (Raise e, s')
  | (Ret idxs, s') =>
      (match take X idxs with
       | Raise e => Raise e
       | Ret Xs =>
           match take1 Y idxs with
           | Raise e => Raise e
           | Ret Ys => Ret (Xs, Ys)
           end
       end, s')
  end.

(** ** RandomForest *)

Record RandomForest := {
  trees : list tree;
  n_trees : Z;
  n_feats : Z;
  max_depth : option Z;
  criterion : string;
  classifier : bool
}.

Definition __init__ (n_trees : Z) (max_depth : option Z) (n_feats : Z)
    (classifier : bool) (criterion : string) : RandomForest :=
  {| trees := [];
     n_trees := n_trees;
     n_feats := n_feats;
     max_depth := max_depth;
     criterion := criterion;
     classifier := classifier |}.

Definition set_trees (self : RandomForest) (ts : list tree)
    : RandomForest :=
  {| trees := ts;
     n_trees := n_trees self;
     n_feats := n_feats self;
     max_depth := max_depth self;
     criterion := criterion self;
     classifier := classifier self |}.

(** The body of the loop of [fit], [n] times. *)
Fixpoint fit_loop (n : nat) (self : RandomForest) (X : list (list fl))
    (Y : array1) (s : random_state)
    : outcome unit * RandomForest * random_state :=
  match n with
  | O => (Ret (), self, s)
  | S n' =>
      match bootstrap_sample X Y s with
      | (Raise e, s1) => (Raise e, self, s1)
      | (Ret (X_samp, Y_samp), s1) =>
          let t := tree_init (n_feats self) (max_depth self)
                     (criterion self) (classifier self) in
          match tree_fit t X_samp Y_samp s1 with
          | (Raise e, s2) => (Raise e, self, s2)
          | (Ret t', s2) =>
              fit_loop n' (set_trees self (trees self ++ [t'])) X Y s2
          end
      end
  end.

Definition fit (self : RandomForest) (X : list (list fl)) (Y : array1)
    (s : random_state) : outcome unit * RandomForest * random_state :=
  fit_loop (Z.to_nat (n_trees self)) (set_trees self []) X Y s.

Definition _vote (self : RandomForest) (predictions : array2)
    : outcome array1 :=
  if classifier self then
    match predictions with
    | A2Int rows =>
        match collect (λ x, match bincount x with
                            | Ret c => argmax c
                            | Raise e => Raise e
                            end) (columns rows) with
        | Ret out => Ret (np_array1 out)
        | Raise e => Raise e
        end
    | A2Float rows =>
        match columns rows with
        | [] => Ret (A1Float [])
        | _ :: _ => Raise TypeError
        end
    end
  else
    Ret (A1Float
           match predictions with
           | A2Int rows =>
               (λ x, np_mean ((λ z, Fin (IZR z)) <$> x)) <$> columns rows
           | A2Float rows => np_mean <$> columns rows
           end).

Definition predict (self : RandomForest) (X : list (list fl))
    : outcome array1 :=
  match collect (λ t, collect (λ x, _traverse t x) X) (trees self) with
  | Raise e => Raise e
  | Ret tree_preds => _vote self (np_array2 tree_preds)
  end.
End forest.

(** ** Example trees

    A generator that counts the draws and draws the count, modulo the
    bound; and trees that predict one value: fitting gives the tree
    that predicts the first label of its sample (0 without one). *)

Definition counter_random : NumpyRandom :=
  {| random_state := nat;
     choice := λ a size s, (Ret (replicate size (s mod a)), S s) |}.

Definition constant_tree : @DecisionTree counter_random :=
  {| tree := value;
     tree_init := λ _ _ _ _, VInt 0;
     tree_fit := λ _ _ Y s,
       (Ret match Y with
            | A1Int (z :: _) => VInt z
            | A1Float (x :: _) => VFloat x
            | _ => VInt 0
            end, s);
     _traverse := λ t _, Ret t |}.

End rf.

(* ================================================================== *)
(** * Scalars and tensors on finite values *)

Section finite_values.
Local Open Scope R_scope.

Lemma fdiv_fin (x y : R) : y ≠ 0 → fdiv (Fin x) (Fin y) = Fin (x / y).
Proof. intros Hy. simpl. by destruct (Req_dec_T y 0). Qed.

Lemma fsqrt_fin (x : R) : 0 <= x → fsqrt (Fin x) = Fin (sqrt x).
Proof. intros Hx. simpl. destruct (Rlt_dec x 0); [lra | done]. Qed.


Lemma fgt_fin_false (x y : R) : x <= y → fgt (Fin x) (Fin y) = false.
Proof. intros. simpl. destruct (Rlt_dec y x); [lra | done]. Qed.

Lemma fgt_PInf (a : fl) : fgt a PInf = false.
Proof. by destruct a. Qed.

Lemma fsub_zero (a : fl) : fsub a (Fin 0) = a.
Proof. destruct a; simpl; try done. f_equal; lra. Qed.

Lemma sum_sqR_nil : sum_sqR [] = 0.
Proof. done. Qed.

Lemma sum_sqR_cons (a : R) (x : list R) :
  sum_sqR (a :: x) = a * a + sum_sqR x.
Proof. done. Qed.

Lemma sum_sqR_nonneg (x : list R) : 0 <= sum_sqR x.
Proof.
  induction x as [|a x IH]; [rewrite sum_sqR_nil; lra |].
  rewrite sum_sqR_cons. nra.
Qed.

Lemma sum_sq_of_reals (x : list R) : sum_sq (of_reals x) = Fin (sum_sqR x).
Proof.
  induction x as [|a x IH]; [done |].
  change (sum_sq (of_reals (a :: x)))
    with (fadd (fmul (Fin a) (Fin a)) (sum_sq (of_reals x))).
  by rewrite IH.
Qed.

Lemma norm_of_reals (x : list R) : norm (of_reals x) = Fin (normR x).
Proof.
  unfold norm. rewrite sum_sq_of_reals.
  apply fsqrt_fin, sum_sqR_nonneg.
Qed.






Lemma mul_scalar_of_reals (x : list R) (s : R) :
  mul_scalar (of_reals x) (Fin s) = of_reals ((λ a, a * s) <$> x).
Proof.
  unfold mul_scalar, of_reals. rewrite <- !list_fmap_compose.
  by apply list_fmap_ext.
Qed.

Lemma div_scalar_of_reals (x : list R) (s : R) :
  s ≠ 0 → div_scalar (of_reals x) (Fin s) = of_reals ((λ a, a / s) <$> x).
Proof.
  intros Hs. unfold div_scalar, of_reals. rewrite <- !list_fmap_compose.
  apply list_fmap_ext. intros ? a _. simpl. by apply fdiv_fin.
Qed.




Lemma zip_with_of_reals (f : fl → fl → fl) (fR : R → R → R) (x y : list R) :
  Forall2 (λ a b, f (Fin a) (Fin b) = Fin (fR a b)) x y →
  zip_with f (of_reals x) (of_reals y) = of_reals (zip_with fR x y).
Proof.
  induction 1 as [|a b x y Hab _ IH]; [done |].
  simpl. by rewrite Hab, IH.
Qed.


Lemma broadcast_same (f : fl → fl → fl) (x y : tensor) :
  length x = length y → broadcast f x y = Ret (zip_with f x y).
Proof. intros Hl. unfold broadcast. by rewrite decide_True. Qed.

Lemma iadd_same (x y : tensor) :
  length x = length y → iadd x y = Ret (zip_with fadd x y).
Proof. intros Hl. unfold iadd. by rewrite decide_True. Qed.

Lemma broadcast_incompatible (f : fl → fl → fl) (x y : tensor) :
  ¬ compatible (length x) (length y) → broadcast f x y = Raise ValueError.
Proof.
  unfold compatible, broadcast. intros Hc.
  rewrite decide_False by tauto.
  destruct x as [|a [|a' x]], y as [|b [|b' y]]; simpl in *; try done;
    exfalso; apply Hc; auto.
Qed.

Lemma broadcast_compatible (f : fl → fl → fl) (x y : tensor) :
  compatible (length x) (length y) → ∃ r, broadcast f x y = Ret r.
Proof.
  unfold compatible, broadcast. intros Hc.
  destruct (decide (length x = length y)); [eauto |].
  destruct x as [|a [|a' x]], y as [|b [|b' y]]; simpl in *; eauto;
    exfalso; destruct Hc as [?|[?|?]]; simplify_eq.
Qed.


(** On a real-valued gradient and a valid [clip_norm], [clip] computes
    [clipR]. *)
Lemma clip_of_reals (g : list R) (v : hval) :
  valid_clip v → clip (of_reals g) v = Ret (of_reals (clipR g v)).
Proof.
  destruct v as [|[c| | |]|]; simpl; try done; intros Hc.
  - by rewrite fgt_PInf.
  - rewrite norm_of_reals. simpl.
    destruct (Rlt_dec c (normR g)) as [Hlt|Hge]; [|done].
    rewrite mul_scalar_of_reals, div_scalar_of_reals by lra.
    f_equal. unfold of_reals. by rewrite <- !list_fmap_compose.
Qed.


End finite_values.

(* ================================================================== *)
(** * Running computations *)

Section running.
Context {A B : Type}.
Implicit Types (m : Py A) (k : A → Py B) (h : heap).

Lemma bind_eq m k h a h' : m h = (Ret a, h') → (m ≫= k) h = k a h'.
Proof. unfold mbind, Py_bind, bind. by intros ->. Qed.

Lemma bind_raise m k h e h' :
  m h = (Raise e, h') → (m ≫= k) h = (Raise e, h').
Proof. unfold mbind, Py_bind, bind. by intros ->. Qed.

Lemma bind_lift (o : outcome A) k h :
  (lift o ≫= k) h = match o with
                    | Ret a => k a h
                    | Raise e => (Raise e, h)
                    end.
Proof. unfold mbind, Py_bind, bind, lift. by destruct o. Qed.

Lemma bind_unfold m k h :
  (m ≫= k) h = match (m h).1 with
               | Ret a => k a (m h).2
               | Raise e => (Raise e, (m h).2)
               end.
Proof. unfold mbind, Py_bind, bind. by destruct (m h) as [[|] ?]. Qed.
End running.

Lemma lookup_hput_eq l o h : store (hput l o h) !! l = Some o.
Proof. apply lookup_insert_eq. Qed.

Lemma lookup_hput_ne l l' o h : l ≠ l' → store (hput l o h) !! l' = store h !! l'.
Proof. apply lookup_insert_ne. Qed.

Lemma lookup_halloc_eq o h : store (halloc o h) !! next h = Some o.
Proof. apply lookup_insert_eq. Qed.

Lemma lookup_halloc_ne l o h : l ≠ next h → store (halloc o h) !! l = store h !! l.
Proof. intros. by apply lookup_insert_ne. Qed.

Lemma next_hput l o h : next (hput l o h) = next h.
Proof. done. Qed.

Lemma next_halloc o h : next (halloc o h) = S (next h).
Proof. done. Qed.

Lemma load_eq h l o : store h !! l = Some o → load l h = (Ret o, h).
Proof. unfold load. by intros ->. Qed.

Lemma get_inst_eq h l i : store h !! l = Some (OInst i) → get_inst l h = (Ret i, h).
Proof. intros Hl. unfold get_inst. by rewrite (bind_eq _ _ _ _ _ (load_eq _ _ _ Hl)). Qed.

Lemma get_hyper_eq h l H : store h !! l = Some (OHyper H) → get_hyper l h = (Ret H, h).
Proof. intros Hl. unfold get_hyper. by rewrite (bind_eq _ _ _ _ _ (load_eq _ _ _ Hl)). Qed.

Lemma get_cache_eq h l c : store h !! l = Some (OCache c) → get_cache l h = (Ret c, h).
Proof. intros Hl. unfold get_cache. by rewrite (bind_eq _ _ _ _ _ (load_eq _ _ _ Hl)). Qed.

Lemma get_arr_eq h l x : store h !! l = Some (OArr x) → get_arr l h = (Ret x, h).
Proof. intros Hl. unfold get_arr. by rewrite (bind_eq _ _ _ _ _ (load_eq _ _ _ Hl)). Qed.

Lemma get_rec_eq h l t m v :
  store h !! l = Some (ORec t m v) → get_rec l h = (Ret (t, m, v), h).
Proof. intros Hl. unfold get_rec. by rewrite (bind_eq _ _ _ _ _ (load_eq _ _ _ Hl)). Qed.

Lemma hyper_getitem_eq h l H k v :
  store h !! l = Some (OHyper H) → H !! k = Some v →
  hyper_getitem l k h = (Ret v, h).
Proof.
  intros Hl Hk. unfold hyper_getitem.
  rewrite (bind_eq _ _ _ _ _ (get_hyper_eq _ _ _ Hl)). by rewrite Hk.
Qed.

Lemma hyper_setitem_eq h l H k v :
  store h !! l = Some (OHyper H) →
  hyper_setitem l k v h = (Ret (), hput l (OHyper (<[k := v]> H)) h).
Proof.
  intros Hl. unfold hyper_setitem.
  by rewrite (bind_eq _ _ _ _ _ (get_hyper_eq _ _ _ Hl)).
Qed.

Lemma cache_contains_eq h l c k :
  store h !! l = Some (OCache c) →
  cache_contains l k h = (Ret (bool_decide (is_Some (c !! k))), h).
Proof.
  intros Hl. unfold cache_contains.
  by rewrite (bind_eq _ _ _ _ _ (get_cache_eq _ _ _ Hl)).
Qed.

Lemma cache_getitem_eq h l c k e :
  store h !! l = Some (OCache c) → c !! k = Some e →
  cache_getitem l k h = (Ret e, h).
Proof.
  intros Hl Hk. unfold cache_getitem.
  rewrite (bind_eq _ _ _ _ _ (get_cache_eq _ _ _ Hl)). by rewrite Hk.
Qed.

Lemma cache_setitem_eq h l c k e :
  store h !! l = Some (OCache c) →
  cache_setitem l k e h = (Ret (), hput l (OCache (<[k := e]> c)) h).
Proof.
  intros Hl. unfold cache_setitem.
  by rewrite (bind_eq _ _ _ _ _ (get_cache_eq _ _ _ Hl)).
Qed.

(** The instance with its [cache] attribute rebound. *)
Lemma set_cache_attr_eq h self i :
  store h !! self = Some (OInst i) →
  set_cache_attr self (cache i) h = (Ret (), hput self (OInst i) h).
Proof.
  intros Hl. unfold set_cache_attr.
  rewrite (bind_eq _ _ _ _ _ (get_inst_eq _ _ _ Hl)). by destruct i.
Qed.

Lemma hput_same h l o : store h !! l = Some o → hput l o h = h.
Proof.
  intros Hl. destruct h as [s n]. unfold hput. simpl in *.
  by rewrite insert_id.
Qed.

Lemma init_entry_present h C c k e g :
  store h !! C = Some (OCache c) → c !! k = Some e →
  init_entry C k g h = (Ret (), h).
Proof.
  intros HC Hk. unfold init_entry.
  rewrite (bind_eq _ _ _ _ _ (cache_contains_eq _ _ _ _ HC)).
  by rewrite Hk, bool_decide_true.
Qed.

Lemma init_entry_fresh h C c k g :
  store h !! C = Some (OCache c) → c !! k = None → C ≠ next h →
  init_entry C k g h
  = (Ret (), hput C (OCache (<[k := next h]> c)) (halloc (OArr (zeros_like g)) h)).
Proof.
  intros HC Hk Hne. unfold init_entry.
  rewrite (bind_eq _ _ _ _ _ (cache_contains_eq _ _ _ _ HC)).
  rewrite Hk, bool_decide_false by (by intros [??]).
  erewrite bind_eq by reflexivity.
  apply cache_setitem_eq. by rewrite lookup_halloc_ne.
Qed.

(* ================================================================== *)
(** * Heap invariants *)

Lemma elem_of_refs_cache (c : gmap string loc) (r : loc) :
  r ∈ refs (OCache c) ↔ ∃ k, c !! k = Some r.
Proof.
  simpl. rewrite list_elem_of_fmap. split.
  - intros [[k e] [-> Hin]]. exists k. by apply elem_of_map_to_list in Hin.
  - intros [k Hk]. exists (k, r). split; [done |]. by apply elem_of_map_to_list.
Qed.

Lemma good_mono N b b' l : good N b l → b ≤ b' → good N b' l.
Proof. unfold good. lia. Qed.

Lemma good_obj_mono N b b' o : good_obj N b o → b ≤ b' → good_obj N b' o.
Proof. unfold good_obj. eauto using good_mono. Qed.

Lemma heap_wf_Inv h : heap_wf h ↔ Inv 0 h h.
Proof.
  split.
  - intros Hwf. split; [done | | | lia].
    + intros l o Hl. by destruct (Hwf l o Hl).
    + intros l o _ Hl r Hr. destruct (Hwf l o Hl) as [_ Hrefs].
      split; [lia | by apply Hrefs].
  - intros [_ Hdom Hrefs _] l o Hl. split; [by eapply Hdom |].
    intros r Hr. destruct (Hrefs l o ltac:(lia) Hl r Hr). done.
Qed.

Lemma Inv_0 h0 h0' h : Inv 0 h0 h → Inv 0 h0' h.
Proof. intros [? ? ? ?]. split; auto. intros l Hl. lia. Qed.

Lemma Inv_wf N h0 h : Inv N h0 h → heap_wf h0 → next h0 ≤ N → heap_wf h.
Proof.
  intros [Hold Hdom Hrefs Hnext] Hwf HN l o Hl. split; [by eapply Hdom |].
  intros r Hr. destruct (decide (l < N)) as [Hlt|Hge].
  - rewrite Hold in Hl by done. destruct (Hwf l o Hl) as [_ Hr']. 
    specialize (Hr' r Hr). lia.
  - by destruct (Hrefs l o ltac:(lia) Hl r Hr).
Qed.

Section safe_rules.
Context (N : nat) (h0 : heap).

Lemma Inv_hput h l o :
  Inv N h0 h → good N (next h) l → good_obj N (next h) o →
  Inv N h0 (hput l o h).
Proof.
  intros [Hold Hdom Hrefs Hnext] [Hl1 Hl2] Ho. split.
  - intros l' Hl'. rewrite lookup_hput_ne by lia. auto.
  - intros l' o'. rewrite next_hput. destruct (decide (l = l')) as [<-|Hne].
    + done.
    + rewrite lookup_hput_ne by done. apply Hdom.
  - intros l' o' Hl'. rewrite next_hput.
    destruct (decide (l = l')) as [<-|Hne].
    + rewrite lookup_hput_eq. by intros [= <-].
    + rewrite lookup_hput_ne by done. by apply Hrefs.
  - done.
Qed.

Lemma Inv_halloc h o :
  Inv N h0 h → good_obj N (next h) o → Inv N h0 (halloc o h).
Proof.
  intros [Hold Hdom Hrefs Hnext] Ho. split.
  - intros l' Hl'. rewrite lookup_halloc_ne by lia. auto.
  - intros l' o'. rewrite next_halloc.
    destruct (decide (l' = next h)) as [->|Hne]; [lia |].
    rewrite lookup_halloc_ne by done. intros ?%Hdom. lia.
  - intros l' o' Hl'. rewrite next_halloc.
    destruct (decide (l' = next h)) as [->|Hne].
    + rewrite lookup_halloc_eq. intros [= <-].
      eapply good_obj_mono; [done | lia].
    + rewrite lookup_halloc_ne by done. intros Hlk.
      eapply good_obj_mono; [by eapply Hrefs | lia].
  - rewrite next_halloc. lia.
Qed.

Lemma safe_ret {A} b (a : A) (Q : A → nat → Prop) :
  (∀ b', b ≤ b' → Q a b') → safe N h0 b (mret a) Q.
Proof. intros HQ h Hinv Hb. simpl. split_and!; [done | lia |]. intros ? [= <-]. auto. Qed.

Lemma safe_raise {A} b e (Q : A → nat → Prop) : safe N h0 b (raise e) Q.
Proof. intros h Hinv Hb. simpl. split_and!; [done | lia | done]. Qed.

Lemma safe_lift {A} b (o : outcome A) (Q : A → nat → Prop) :
  (∀ a b', o = Ret a → b ≤ b' → Q a b') → safe N h0 b (lift o) Q.
Proof. intros HQ h Hinv Hb. simpl. split_and!; [done | lia |]. intros a ->. auto. Qed.

Lemma safe_bind {A B} b (m : Py A) (k : A → Py B) Q1 Q :
  safe N h0 b m Q1 →
  (∀ a b', b ≤ b' → Q1 a b' → safe N h0 b' (k a) Q) →
  safe N h0 b (m ≫= k) Q.
Proof.
  intros Hm Hk h Hinv Hb. destruct (Hm h Hinv Hb) as (Hinv1 & Hn1 & HQ1).
  rewrite bind_unfold. destruct (m h) as [[a|e] h1]; simpl in *.
  - destruct (Hk a (next h1) ltac:(lia) (HQ1 a eq_refl) h1 Hinv1 ltac:(lia))
      as (? & ? & ?).
    split_and!; [done | lia | done].
  - split_and!; [done | lia | done].
Qed.

Lemma safe_conseq {A} b (m : Py A) (Q Q' : A → nat → Prop) :
  safe N h0 b m Q → (∀ a b', b ≤ b' → Q a b' → Q' a b') → safe N h0 b m Q'.
Proof.
  intros Hm HQ h Hinv Hb. destruct (Hm h Hinv Hb) as (? & ? & HQ1).
  split_and!; [done | done |]. intros a Ha. apply HQ; [lia | auto].
Qed.

Lemma safe_mono {A} b b' (m : Py A) Q : safe N h0 b m Q → b ≤ b' → safe N h0 b' m Q.
Proof. intros Hm Hb h Hinv Hb'. apply Hm; [done | lia]. Qed.

Lemma safe_attempt {A} b (m : Py A) Q :
  safe N h0 b m Q → safe N h0 b (attempt m) (λ _ _, True).
Proof.
  intros Hm h Hinv Hb. destruct (Hm h Hinv Hb) as (? & ? & _).
  unfold attempt. simpl. done.
Qed.

Lemma safe_load b l :
  good N b l → safe N h0 b (load l) (λ o b', good_obj N b' o).
Proof.
  intros [Hl1 Hl2] h Hinv Hb. unfold load.
  destruct (store h !! l) as [o|] eqn:Hl; simpl.
  - split_and!; [done | lia |]. intros ? [= <-]. by eapply inv_refs.
  - split_and!; [done | lia | done].
Qed.

Lemma safe_put b l o :
  good N b l → good_obj N b o → safe N h0 b (put l o) (λ _ _, True).
Proof.
  intros Hl Ho h Hinv Hb. unfold put. simpl. split_and!; [| lia | done].
  apply Inv_hput; [done | | ]; eauto using good_mono, good_obj_mono.
Qed.

Lemma safe_alloc b o :
  good_obj N b o → safe N h0 b (alloc o) (λ l b', good N b' l).
Proof.
  intros Ho h Hinv Hb. unfold alloc. simpl. split_and!; [| lia |].
  - apply Inv_halloc; eauto using good_obj_mono.
  - intros ? [= <-]. split; [apply Hinv | lia].
Qed.

Lemma safe_for_each {A} b (l : list A) (body : A → Py unit) :
  (∀ a b', b ≤ b' → a ∈ l → safe N h0 b' (body a) (λ _ _, True)) →
  safe N h0 b (for_each l body) (λ _ _, True).
Proof.
  revert b. induction l as [|a l IH]; intros b Hbody; simpl.
  - by apply safe_ret.
  - eapply safe_bind.
    + apply Hbody; [lia | by left].
    + intros _ b' Hb' _. apply IH. intros a' b'' Hb'' Ha'.
      apply Hbody; [lia | by right].
Qed.

End safe_rules.

Create HintDb good discriminated.
#[export] Hint Resolve good_mono good_obj_mono : good.
#[export] Hint Extern 1 (_ ≤ _) => lia : good.
#[export] Hint Extern 1 (_ < _) => lia : good.

Ltac solve_good :=
  first
    [ eassumption
    | eapply good_mono; [eassumption | lia]
    | eapply good_obj_mono; [eassumption | lia]
    | unfold good in *; simpl in *; lia ].

Section derived_rules.
Context (N : nat) (h0 : heap).

Lemma good_obj_arr b x : good_obj N b (OArr x).
Proof. intros r Hr. simpl in Hr. by apply elem_of_nil in Hr. Qed.

Lemma good_obj_hyper b H : good_obj N b (OHyper H).
Proof. intros r Hr. simpl in Hr. by apply elem_of_nil in Hr. Qed.

Lemma good_obj_rec b t m v : good N b m → good N b v → good_obj N b (ORec t m v).
Proof.
  intros Hm Hv r Hr. simpl in Hr.
  apply elem_of_cons in Hr as [->|Hr]; [done |].
  apply elem_of_cons in Hr as [->|Hr]; [done |].
  by apply elem_of_nil in Hr.
Qed.

Lemma good_obj_inst b i :
  good N b (cache i) → good N b (hyperparameters i) → good_obj N b (OInst i).
Proof.
  intros Hm Hv r Hr. simpl in Hr.
  apply elem_of_cons in Hr as [->|Hr]; [done |].
  apply elem_of_cons in Hr as [->|Hr]; [done |].
  by apply elem_of_nil in Hr.
Qed.

Lemma good_obj_cache b (c : gmap string loc) :
  (∀ k e, c !! k = Some e → good N b e) ↔ good_obj N b (OCache c).
Proof.
  unfold good_obj. setoid_rewrite elem_of_refs_cache. split.
  - intros Hc r [k Hk]. eauto.
  - intros Hc k e Hk. eauto.
Qed.

Lemma good_obj_cache_insert b (c : gmap string loc) k e :
  good_obj N b (OCache c) → good N b e → good_obj N b (OCache (<[k := e]> c)).
Proof.
  rewrite <- !good_obj_cache. intros Hc He k' e'.
  destruct (decide (k = k')) as [<-|Hne].
  - rewrite lookup_insert_eq. by intros [= <-].
  - rewrite lookup_insert_ne by done. apply Hc.
Qed.

Lemma safe_get_inst b self :
  good N b self →
  safe N h0 b (get_inst self)
       (λ i b', good N b' (cache i) ∧ good N b' (hyperparameters i)).
Proof.
  intros Hs. unfold get_inst. eapply safe_bind; [by apply safe_load |].
  intros [| | | |i] b' Hb' Ho; simpl; try apply safe_raise.
  apply safe_ret. intros b'' Hb''.
  split; (eapply good_mono; [apply Ho; simpl; set_solver | lia]).
Qed.

Lemma safe_get_hyper b l :
  good N b l → safe N h0 b (get_hyper l) (λ _ _, True).
Proof.
  intros Hs. unfold get_hyper. eapply safe_bind; [by apply safe_load |].
  intros [| | | |i] b' Hb' Ho; simpl; try apply safe_raise.
  by apply safe_ret.
Qed.

Lemma safe_get_cache b l :
  good N b l → safe N h0 b (get_cache l) (λ c b', good_obj N b' (OCache c)).
Proof.
  intros Hs. unfold get_cache. eapply safe_bind; [by apply safe_load |].
  intros [| | | |i] b' Hb' Ho; simpl; try apply safe_raise.
  apply safe_ret. intros. by eapply good_obj_mono.
Qed.

Lemma safe_get_arr b l :
  good N b l → safe N h0 b (get_arr l) (λ _ _, True).
Proof.
  intros Hs. unfold get_arr. eapply safe_bind; [by apply safe_load |].
  intros [| | | |i] b' Hb' Ho; simpl; try apply safe_raise.
  by apply safe_ret.
Qed.

Lemma safe_get_rec b l :
  good N b l →
  safe N h0 b (get_rec l) (λ r b', good N b' r.1.2 ∧ good N b' r.2).
Proof.
  intros Hs. unfold get_rec. eapply safe_bind; [by apply safe_load |].
  intros [|t m v| | |i] b' Hb' Ho; simpl; try apply safe_raise.
  apply safe_ret. intros b'' Hb''. simpl.
  split; (eapply good_mono; [apply Ho; simpl; set_solver | lia]).
Qed.

Lemma safe_hyper_getitem b l k :
  good N b l → safe N h0 b (hyper_getitem l k) (λ _ _, True).
Proof.
  intros Hs. unfold hyper_getitem. eapply safe_bind; [by apply safe_get_hyper |].
  intros H b' Hb' _. destruct (H !! k); [by apply safe_ret | apply safe_raise].
Qed.

Lemma safe_hyper_setitem b l k v :
  good N b l → safe N h0 b (hyper_setitem l k v) (λ _ _, True).
Proof.
  intros Hs. unfold hyper_setitem. eapply safe_bind; [by apply safe_get_hyper |].
  intros H b' Hb' _. apply safe_put; [solve_good | apply good_obj_hyper].
Qed.

Lemma safe_cache_contains b l k :
  good N b l → safe N h0 b (cache_contains l k) (λ _ _, True).
Proof.
  intros Hs. unfold cache_contains. eapply safe_bind; [by apply safe_get_cache |].
  intros c b' Hb' _. by apply safe_ret.
Qed.

Lemma safe_cache_getitem b l k :
  good N b l → safe N h0 b (cache_getitem l k) (λ e b', good N b' e).
Proof.
  intros Hs. unfold cache_getitem. eapply safe_bind; [by apply safe_get_cache |].
  intros c b' Hb' Hc. cbv beta in Hc.
  destruct (c !! k) as [e|] eqn:Hk; [|apply safe_raise].
  apply safe_ret. intros b'' Hb''.
  eapply good_mono; [by eapply (proj2 (good_obj_cache _ _) Hc) | lia].
Qed.

Lemma safe_cache_setitem b l k e :
  good N b l → good N b e → safe N h0 b (cache_setitem l k e) (λ _ _, True).
Proof.
  intros Hs He. unfold cache_setitem.
  eapply safe_bind; [by apply safe_get_cache |].
  intros c b' Hb' Hc. apply safe_put; [solve_good |].
  apply good_obj_cache_insert; [done | solve_good].
Qed.

Lemma safe_set_cache_attr b self C :
  good N b self → good N b C → safe N h0 b (set_cache_attr self C) (λ _ _, True).
Proof.
  intros Hs HC. unfold set_cache_attr.
  eapply safe_bind; [by apply safe_get_inst |].
  intros i b' Hb' [Hi1 Hi2]. apply safe_put; [solve_good |].
  apply good_obj_inst; simpl; solve_good.
Qed.

Lemma safe_set_hyperparameters_attr b self H :
  good N b self → good N b H →
  safe N h0 b (set_hyperparameters_attr self H) (λ _ _, True).
Proof.
  intros Hs HC. unfold set_hyperparameters_attr.
  eapply safe_bind; [by apply safe_get_inst |].
  intros i b' Hb' [Hi1 Hi2]. apply safe_put; [solve_good |].
  apply good_obj_inst; simpl; solve_good.
Qed.

Lemma safe_set_lr_scheduler b self s :
  good N b self →
  safe N h0 b (OptimizerBase.set_lr_scheduler self s) (λ _ _, True).
Proof.
  intros Hs. unfold OptimizerBase.set_lr_scheduler.
  eapply safe_bind; [by apply safe_get_inst |].
  intros i b' Hb' [Hi1 Hi2]. apply safe_put; [solve_good |].
  apply good_obj_inst; simpl; solve_good.
Qed.

Lemma safe_step b self :
  good N b self → safe N h0 b (OptimizerBase.step self) (λ _ _, True).
Proof.
  intros Hs. unfold OptimizerBase.step.
  eapply safe_bind; [by apply safe_get_inst |].
  intros i b' Hb' [Hi1 Hi2]. apply safe_put; [solve_good |].
  apply good_obj_inst; simpl; solve_good.
Qed.

Lemma safe_reset_step b self :
  good N b self → safe N h0 b (OptimizerBase.reset_step self) (λ _ _, True).
Proof.
  intros Hs. unfold OptimizerBase.reset_step.
  eapply safe_bind; [by apply safe_get_inst |].
  intros i b' Hb' [Hi1 Hi2]. apply safe_put; [solve_good |].
  apply good_obj_inst; simpl; solve_good.
Qed.

Lemma safe_lift_any {A} b (o : outcome A) : safe N h0 b (lift o) (λ _ _, True).
Proof. by apply safe_lift. Qed.

Lemma safe_init_entry b C k g :
  good N b C → safe N h0 b (init_entry C k g) (λ _ _, True).
Proof.
  intros HC. unfold init_entry.
  eapply safe_bind; [by apply safe_cache_contains |].
  intros [|] b' Hb' _; [by apply safe_ret |].
  eapply safe_bind; [apply safe_alloc, good_obj_arr |].
  intros z b'' Hb'' Hz. apply safe_cache_setitem; solve_good.
Qed.

Lemma safe_Adam_init_entry b C k g :
  good N b C → safe N h0 b (Adam.init_entry C k g) (λ _ _, True).
Proof.
  intros HC. unfold Adam.init_entry.
  eapply safe_bind; [by apply safe_cache_contains |].
  intros [|] b' Hb' _; [by apply safe_ret |].
  eapply safe_bind; [apply safe_alloc, good_obj_arr |].
  intros m b1 Hb1 Hm.
  eapply safe_bind; [apply safe_alloc, good_obj_arr |].
  intros v b2 Hb2 Hv.
  eapply safe_bind; [apply safe_alloc, good_obj_rec; solve_good |].
  intros e b3 Hb3 He. apply safe_cache_setitem; solve_good.
Qed.

End derived_rules.

(** One step of a syntax-directed proof of [safe]. *)
Ltac safe_step N h0 :=
  lazymatch goal with
  | |- safe _ _ _ (mbind _ (lift _)) _ =>
      eapply safe_bind; [apply safe_lift_any | intros ? ? ? _]
  | |- safe _ _ _ (mbind _ (get_inst _)) _ =>
      eapply safe_bind; [apply safe_get_inst; solve_good | intros ? ? ? [? ?]]
  | |- safe _ _ _ (mbind _ (hyper_getitem _ _)) _ =>
      eapply safe_bind; [apply safe_hyper_getitem; solve_good | intros ? ? ? _]
  | |- safe _ _ _ (mbind _ (init_entry _ _ _)) _ =>
      eapply safe_bind; [apply safe_init_entry; solve_good | intros ? ? ? _]
  | |- safe _ _ _ (mbind _ (Adam.init_entry _ _ _)) _ =>
      eapply safe_bind; [apply safe_Adam_init_entry; solve_good | intros ? ? ? _]
  | |- safe _ _ _ (mbind _ (cache_getitem _ _)) _ =>
      eapply safe_bind; [apply safe_cache_getitem; solve_good | intros ? ? ? ?]
  | |- safe _ _ _ (mbind _ (cache_setitem _ _ _)) _ =>
      eapply safe_bind; [apply safe_cache_setitem; solve_good | intros ? ? ? _]
  | |- safe _ _ _ (mbind _ (get_arr _)) _ =>
      eapply safe_bind; [apply safe_get_arr; solve_good | intros ? ? ? _]
  | |- safe _ _ _ (mbind _ (get_rec _)) _ =>
      eapply safe_bind; [apply safe_get_rec; solve_good | intros [[? ?] ?] ? ? [? ?]]
  | |- safe _ _ _ (mbind _ (alloc (OArr _))) _ =>
      eapply safe_bind; [apply safe_alloc, good_obj_arr | intros ? ? ? ?]
  | |- safe _ _ _ (mbind _ (put _ (OArr _))) _ =>
      eapply safe_bind; [apply safe_put; [solve_good | apply good_obj_arr]
                        | intros ? ? ? _]
  | |- safe _ _ _ (mbind _ (put _ (ORec _ _ _))) _ =>
      eapply safe_bind; [apply safe_put; [solve_good | apply good_obj_rec; solve_good]
                        | intros ? ? ? _]
  | |- safe _ _ _ (mbind _ (set_cache_attr _ _)) _ =>
      eapply safe_bind; [apply safe_set_cache_attr; solve_good | intros ? ? ? _]
  | |- safe _ _ _ (lift _) _ => apply safe_lift_any
  | |- safe _ _ _ (raise _) _ => apply safe_raise
  end.

Section method_safety.
Context (N : nat) (h0 : heap).

Lemma safe_SGD_update b self p g n l :
  good N b self → safe N h0 b (SGD.update self p g n l) (λ _ _, True).
Proof.
  intros Hs. unfold SGD.update. repeat safe_step N h0.
Qed.

Lemma safe_AdaGrad_update b self p g n l :
  good N b self → safe N h0 b (AdaGrad.update self p g n l) (λ _ _, True).
Proof.
  intros Hs. unfold AdaGrad.update. repeat safe_step N h0.
Qed.

Lemma safe_RMSProp_update b self p g n l :
  good N b self → safe N h0 b (RMSProp.update self p g n l) (λ _ _, True).
Proof.
  intros Hs. unfold RMSProp.update. repeat safe_step N h0.
Qed.

Lemma safe_Adam_update b self p g n l :
  good N b self → safe N h0 b (Adam.update self p g n l) (λ _ _, True).
Proof.
  intros Hs. unfold Adam.update. repeat safe_step N h0. 
Qed.

Lemma safe_update b self p g n l :
  good N b self → safe N h0 b (update self p g n l) (λ _ _, True).
Proof.
  intros Hs. unfold update.
  eapply safe_bind; [by apply safe_get_inst |].
  intros i b' Hb' _. unfold update_of.
  destruct (cls i).
  - apply safe_raise.
  - apply safe_SGD_update; solve_good.
  - apply safe_AdaGrad_update; solve_good.
  - apply safe_RMSProp_update; solve_good.
  - apply safe_Adam_update; solve_good.
Qed.

End method_safety.

Section more_safety.
Context `{SI : SchedulerInitializer} (N : nat) (h0 : heap).

Lemma safe_set_hparam b self kv :
  good N b self → safe N h0 b (OptimizerBase.set_hparam self kv) (λ _ _, True).
Proof.
  intros Hs. unfold OptimizerBase.set_hparam.
  eapply safe_bind; [by apply safe_get_inst |].
  intros i b1 Hb1 [Hi1 Hi2].
  eapply safe_bind; [by apply safe_get_hyper |].
  intros Hd b2 Hb2 _.
  destruct (bool_decide (is_Some (Hd !! kv.1))); [|by apply safe_ret].
  eapply safe_bind; [apply safe_hyper_setitem; solve_good |].
  intros _ b3 Hb3 _.
  destruct (bool_decide (kv.1 = "lr_scheduler")); [|by apply safe_ret].
  apply safe_set_lr_scheduler; solve_good.
Qed.

Lemma safe_set_cache_entry b self kv :
  good N b self → good N b kv.2 →
  safe N h0 b (OptimizerBase.set_cache_entry self kv) (λ _ _, True).
Proof.
  intros Hs Hkv. unfold OptimizerBase.set_cache_entry.
  eapply safe_bind; [by apply safe_get_inst |].
  intros i b1 Hb1 [Hi1 Hi2].
  eapply safe_bind; [by apply safe_get_cache |].
  intros c b2 Hb2 _.
  destruct (bool_decide (is_Some (c !! kv.1))); [|by apply safe_ret].
  apply safe_cache_setitem; solve_good.
Qed.

Lemma safe_set_params b self hp (cd : option (gmap string loc)) :
  good N b self →
  (∀ d k e, cd = Some d → d !! k = Some e → good N b e) →
  safe N h0 b (OptimizerBase.set_params self hp cd) (λ _ _, True).
Proof.
  intros Hs Hcd. unfold OptimizerBase.set_params.
  eapply safe_bind with (Q1 := λ _ _, True).
  - destruct hp as [d|]; [|by apply safe_ret].
    apply safe_for_each. intros kv b' Hb' _.
    apply safe_set_hparam; solve_good.
  - intros _ b1 Hb1 _. destruct cd as [d|]; [|by apply safe_ret].
    apply safe_for_each. intros [k e] b' Hb' Hin.
    apply elem_of_map_to_list in Hin.
    apply safe_set_cache_entry; [solve_good |]. simpl.
    eapply good_mono; [by eapply Hcd | lia].
Qed.

Lemma safe_new_entry b e :
  safe N h0 b (new_entry e) (λ l b', good N b' l).
Proof.
  destruct e as [x|t m v]; simpl.
  - apply safe_alloc, good_obj_arr.
  - eapply safe_bind; [apply safe_alloc, good_obj_arr |].
    intros ml b1 Hb1 Hm.
    eapply safe_bind; [apply safe_alloc, good_obj_arr |].
    intros vl b2 Hb2 Hv.
    apply safe_alloc, good_obj_rec; solve_good.
Qed.

Lemma safe_new_entries b l :
  safe N h0 b (new_entries l) (λ r b', ∀ kv, kv ∈ r → good N b' kv.2).
Proof.
  revert b. induction l as [|kv l IH]; intros b; simpl.
  - apply safe_ret. intros b' _ kv Hkv. by apply elem_of_nil in Hkv.
  - eapply safe_bind; [apply safe_new_entry |].
    intros e b1 Hb1 He.
    eapply safe_bind; [apply IH |].
    intros r b2 Hb2 Hr. apply safe_ret. intros b3 Hb3 kv' Hkv'.
    apply elem_of_cons in Hkv' as [->|Hin]; simpl.
    + solve_good.
    + eapply good_mono; [by apply Hr | lia].
Qed.

Lemma safe_new_cache_dict b cd :
  safe N h0 b (new_cache_dict cd)
       (λ r b', ∀ d k e, r = Some d → d !! k = Some e → good N b' e).
Proof.
  destruct cd as [d|]; simpl.
  - eapply safe_bind; [apply safe_new_entries |].
    intros r b1 Hb1 Hr. apply safe_ret.
    intros b2 Hb2 d' k e [= <-] Hk.
    apply elem_of_list_to_map_2 in Hk.
    eapply good_mono; [apply (Hr (k, e) Hk) | lia].
  - apply safe_ret. by intros.
Qed.

Lemma safe_exec b self c :
  good N b self → safe N h0 b (exec self c) (λ _ _, True).
Proof.
  intros Hs. destruct c as [p g n l| | |hp cd]; simpl.
  - eapply safe_attempt. by apply safe_update.
  - eapply safe_attempt. by apply safe_step.
  - eapply safe_attempt. by apply safe_reset_step.
  - eapply safe_attempt with (Q := λ _ _, True).
    eapply safe_bind; [apply safe_new_cache_dict |].
    intros d b1 Hb1 Hd. apply safe_set_params; [solve_good |].
    intros d' k e -> Hk. by eapply Hd.
Qed.


End more_safety.

(* ================================================================== *)
(** * deepcopy *)

Section deepcopy.
Context (n : nat) (old : gmap loc obj).

Lemma clone_lookup_inv (ls : list loc) (s : gmap loc obj) k o :
  foldr (clone_at n old) s ls !! k = Some o →
  s !! k = Some o ∨
  ∃ l o', k = n + l ∧ l ∈ ls ∧ old !! l = Some o' ∧ o = shift_obj n o'.
Proof.
  induction ls as [|l ls IH]; simpl; [by left |].
  unfold clone_at at 1. destruct (old !! l) as [o'|] eqn:Hl.
  - destruct (decide (n + l = k)) as [<-|Hne].
    + rewrite lookup_insert_eq. intros [= <-]. right.
      exists l, o'. split_and!; [done | by left | done | done].
    + rewrite lookup_insert_ne by done. intros [?|(l' & o'' & ? & ? & ? & ?)]%IH.
      * by left.
      * right. exists l', o''. split_and!; [done | by right | done | done].
  - intros [?|(l' & o'' & ? & ? & ? & ?)]%IH.
    + by left.
    + right. exists l', o''. split_and!; [done | by right | done | done].
Qed.

Lemma clone_lookup_lt (ls : list loc) (s : gmap loc obj) k :
  k < n → foldr (clone_at n old) s ls !! k = s !! k.
Proof.
  intros Hk. induction ls as [|l ls IH]; simpl; [done |].
  unfold clone_at at 1. destruct (old !! l); [|done].
  by rewrite lookup_insert_ne by lia.
Qed.

Lemma clone_lookup (ls : list loc) (s : gmap loc obj) l o :
  l ∈ ls → old !! l = Some o →
  foldr (clone_at n old) s ls !! (n + l) = Some (shift_obj n o).
Proof.
  intros Hin Hl. induction ls as [|l' ls IH]; [by apply elem_of_nil in Hin |].
  simpl. unfold clone_at at 1.
  destruct (decide (l = l')) as [<-|Hne].
  - rewrite Hl. by rewrite lookup_insert_eq.
  - apply elem_of_cons in Hin as [?|Hin]; [done |].
    destruct (old !! l'); [|by apply IH].
    rewrite lookup_insert_ne by lia. by apply IH.
Qed.

Lemma refs_shift_obj (o : obj) r :
  r ∈ refs (shift_obj n o) → ∃ r', r = n + r' ∧ r' ∈ refs o.
Proof.
  destruct o as [x|t m v|c|H|i]; simpl.
  - by intros ?%elem_of_nil.
  - intros Hr. apply elem_of_cons in Hr as [->|Hr];
      [exists m; split; [done | by left] |].
    apply elem_of_cons in Hr as [->|Hr];
      [exists v; split; [done | by right; left] |].
    by apply elem_of_nil in Hr.
  - intros Hr. apply (elem_of_refs_cache ((λ l, n + l) <$> c)) in Hr as [k Hk].
    rewrite lookup_fmap in Hk.
    destruct (c !! k) as [e|] eqn:He; [|done]. injection Hk as <-.
    exists e. split; [done |]. apply elem_of_refs_cache. eauto.
  - by intros ?%elem_of_nil.
  - intros Hr. apply elem_of_cons in Hr as [->|Hr];
      [exists (cache i); split; [done | by left] |].
    apply elem_of_cons in Hr as [->|Hr];
      [exists (hyperparameters i); split; [done | by right; left] |].
    by apply elem_of_nil in Hr.
Qed.
End deepcopy.

(** After [deepcopy], the objects that existed are untouched and the
    clones refer to clones only. *)
Lemma deepcopy_Inv h x :
  heap_wf h → Inv (next h) h (deepcopy x h).2.
Proof.
  intros Hwf. unfold deepcopy. cbn [snd]. split; cbn [store next].
  - intros l Hl. by apply clone_lookup_lt.
  - intros l o [Hl|(l' & o' & -> & _ & Hl' & _)]%clone_lookup_inv.
    + destruct (Hwf l o Hl). lia.
    + destruct (Hwf l' o' Hl'). lia.
  - intros l o Hge [Hl|(l' & o' & -> & _ & Hl' & ->)]%clone_lookup_inv.
    + destruct (Hwf l o Hl). lia.
    + intros r (r' & -> & Hr')%refs_shift_obj.
      destruct (Hwf l' o' Hl') as [_ Hrefs]. specialize (Hrefs r' Hr').
      unfold good. lia.
  - lia.
Qed.

Lemma deepcopy_ret h x : (deepcopy x h).1 = Ret (next h + x).
Proof. done. Qed.

(* ================================================================== *)
(** * The state of an optimizer depends on its own objects only *)

Lemma wf_lt h l o : heap_wf h → store h !! l = Some o → l < next h.
Proof. intros Hwf Hl. by destruct (Hwf l o Hl). Qed.


Lemma wf_cache h l c k e :
  heap_wf h → store h !! l = Some (OCache c) → c !! k = Some e → e < next h.
Proof.
  intros Hwf Hl Hk. destruct (Hwf l _ Hl) as [_ Hr].
  apply Hr, elem_of_refs_cache. eauto.
Qed.


Section frame.
Context (h h' : heap).
Hypothesis Hwf : heap_wf h.
Hypothesis Hold : ∀ l, l < next h → store h' !! l = store h !! l.


End frame.

(* ================================================================== *)
(** * The copy has the state of the original *)

Lemma reach_self s d l : l ∈ reach s d l.
Proof. destruct d; simpl; by left. Qed.

Lemma reach_succ s d l o r x :
  s !! l = Some o → r ∈ refs o → x ∈ reach s d r → x ∈ reach s (S d) l.
Proof.
  intros Hl Hr Hx. simpl. right. apply list_elem_of_bind.
  exists r. split; [done |]. unfold succs. by rewrite Hl.
Qed.

Lemma deepcopy_lookup h x l o :
  l ∈ reach (store h) (3 + next h) x → store h !! l = Some o →
  store (deepcopy x h).2 !! (next h + l) = Some (shift_obj (next h) o).
Proof. intros Hin Hl. unfold deepcopy. cbn [snd store]. by apply clone_lookup. Qed.

Lemma deepcopy_lookup_None h x l :
  heap_wf h → store h !! l = None →
  store (deepcopy x h).2 !! (next h + l) = None.
Proof.
  intros Hwf Hl.
  destruct (store (deepcopy x h).2 !! (next h + l)) as [o|] eqn:Hl'; [|done].
  unfold deepcopy in Hl'. cbn [snd store] in Hl'.
  apply clone_lookup_inv in Hl' as [Hk|(l' & o' & Heq & _ & Hk & _)].
  - apply (wf_lt _ _ _ Hwf) in Hk. lia.
  - assert (l' = l) as -> by lia. congruence.
Qed.

Lemma copy_same_state h o i :
  heap_wf h → store h !! o = Some (OInst i) →
  snapshot_of (OptimizerBase.copy o h).2 (next h + o) = snapshot_of h o.
Proof.
  intros Hwf Ho. unfold OptimizerBase.copy.
  pose proof (deepcopy_lookup h o) as Hclone.
  pose proof (deepcopy_lookup_None h o) as Hnone.
  remember (next h) as N eqn:HN.
  remember (deepcopy o h).2 as h1 eqn:Hh1.
  assert (Hself : store h1 !! (N + o) = Some (shift_obj N (OInst i))).
  { apply Hclone; [apply reach_self | done]. }
  unfold snapshot_of. rewrite Hself, Ho.
  cbn [shift_obj cache hyperparameters cls cur_step lr_scheduler].
  destruct (store h !! cache i) as [oc|] eqn:HC; cycle 1.
  { by rewrite Hnone. }
  assert (HC1 : store h1 !! (N + cache i) = Some (shift_obj N oc)).
  { apply Hclone; [|done].
    eapply (reach_succ _ _ _ _ (cache i));
      [done | by left | apply reach_self]. }
  rewrite HC1.
  destruct (store h !! hyperparameters i) as [oh|] eqn:HH; cycle 1.
  { rewrite Hnone by done. by destruct oc. }
  assert (HH1 : store h1 !! (N + hyperparameters i) = Some (shift_obj N oh)).
  { apply Hclone; [|done].
    eapply (reach_succ _ _ _ _ (hyperparameters i));
      [done | by right; left | apply reach_self]. }
  rewrite HH1.
  destruct oc as [x|t m v|c|H|i']; try done; cbn [shift_obj].
  destruct oh as [x|t m v|c'|H|i']; try done; cbn [shift_obj].
  do 2 f_equal. rewrite <- map_fmap_compose.
  apply map_fmap_ext. intros k e Hk. cbn [compose].
  assert (He : e ∈ reach (store h) (2 + N) (cache i)).
  { eapply (reach_succ _ _ _ _ e);
      [done | apply elem_of_refs_cache; eauto | apply reach_self]. }
  unfold entry_view.
  destruct (store h !! e) as [oe|] eqn:Hle; cycle 1.
  { by rewrite Hnone. }
  assert (Hle1 : store h1 !! (N + e) = Some (shift_obj N oe)).
  { apply Hclone; [|done].
    eapply (reach_succ _ _ _ _ (cache i)); [done | by left | done]. }
  rewrite Hle1.
  destruct oe as [x|t m v|c'|H'|i']; try done; cbn [shift_obj].
  assert (Hsub : ∀ r, r ∈ [m; v] →
            store h1 !! (N + r) = shift_obj N <$> store h !! r).
  { intros r Hr. destruct (store h !! r) as [or|] eqn:Hlr; simpl.
    - apply Hclone; [|done].
      eapply (reach_succ _ _ _ _ (cache i)); [done | by left |].
      eapply (reach_succ _ _ _ _ e); [done | apply elem_of_refs_cache; eauto |].
      eapply (reach_succ _ _ _ _ r); [done | done | apply reach_self].
    - by apply Hnone. }
  rewrite (Hsub m), (Hsub v) by (by left || by right; left).
  destruct (store h !! m) as [[]|], (store h !! v) as [[]|]; done.
Qed.

(* ================================================================== *)
(** * C8 *)


(* ================================================================== *)
(** * set_params *)

Lemma overwrite_lookup {V} (l : list (string * V)) (m : gmap string V) k :
  NoDup l.*1 →
  foldl overwrite_step m l !! k
  = match m !! k with
    | Some v0 => Some (default v0 ((list_to_map l : gmap string V) !! k))
    | None => None
    end.
Proof.
  revert m. induction l as [|[k1 v1] l IH]; intros m Hnd.
  - simpl. rewrite lookup_empty. by destruct (m !! k).
  - apply NoDup_cons in Hnd as [Hk1 Hnd]. simpl foldl.
    rewrite IH by done. unfold overwrite_step. simpl.
    destruct (decide (k1 = k)) as [->|Hne].
    + rewrite lookup_insert_eq.
      rewrite (not_elem_of_list_to_map_1 _ _ Hk1).
      destruct (m !! k) as [v0|] eqn:Hk.
      * rewrite bool_decide_true by eauto. by rewrite lookup_insert_eq.
      * rewrite bool_decide_false by (by intros [??]). by rewrite Hk.
    + rewrite lookup_insert_ne by done.
      destruct (bool_decide (is_Some (m !! k1))); [|done].
      by rewrite lookup_insert_ne.
Qed.

Lemma overwrite_map_to_list {V} (d m : gmap string V) k :
  foldl overwrite_step m (map_to_list d) !! k
  = match m !! k with
    | Some v0 => Some (default v0 (d !! k))
    | None => None
    end.
Proof.
  rewrite overwrite_lookup by apply NoDup_fst_map_to_list.
  by rewrite list_to_map_to_list.
Qed.

Section set_params.
Context `{SI : SchedulerInitializer} (self : loc).

Lemma set_hparam_eq h i H0 k v :
  store h !! self = Some (OInst i) →
  store h !! hyperparameters i = Some (OHyper H0) →
  OptimizerBase.set_hparam self (k, v) h
  = (Ret (),
     if bool_decide (is_Some (H0 !! k)) then
       let h1 := hput (hyperparameters i) (OHyper (<[k := v]> H0)) h in
       if bool_decide (k = "lr_scheduler") then
         hput self
           (OInst {| cls := cls i; cache := cache i;
                     cur_step := cur_step i;
                     hyperparameters := hyperparameters i;
                     lr_scheduler := resolve_scheduler v None |}) h1
       else h1
     else h).
Proof.
  intros Hs HH.
  assert (Hne : self ≠ hyperparameters i) by (intros Heq; congruence).
  unfold OptimizerBase.set_hparam.
  erewrite bind_eq by (by apply get_inst_eq).
  erewrite bind_eq by (by apply get_hyper_eq).
  cbn [fst snd]. destruct (bool_decide (is_Some (H0 !! k))); [|done].
  erewrite bind_eq by (by apply hyper_setitem_eq).
  destruct (bool_decide (k = "lr_scheduler")); [|done].
  unfold OptimizerBase.set_lr_scheduler.
  erewrite bind_eq
    by (apply get_inst_eq; rewrite lookup_hput_ne by done; done).
  done.
Qed.

Lemma set_cache_entry_eq h i c0 k e :
  store h !! self = Some (OInst i) →
  store h !! cache i = Some (OCache c0) →
  OptimizerBase.set_cache_entry self (k, e) h
  = (Ret (),
     if bool_decide (is_Some (c0 !! k))
     then hput (cache i) (OCache (<[k := e]> c0)) h
     else h).
Proof.
  intros Hs HC. unfold OptimizerBase.set_cache_entry.
  erewrite bind_eq by (by apply get_inst_eq).
  erewrite bind_eq by (by apply get_cache_eq).
  cbn [fst snd]. destruct (bool_decide (is_Some (c0 !! k))); [|done].
  by apply cache_setitem_eq.
Qed.

Lemma set_hparam_loop (l : list (string * hval)) h0 h i s H0 :
  store h !! self
    = Some (OInst {| cls := cls i; cache := cache i;
                     cur_step := cur_step i;
                     hyperparameters := hyperparameters i;
                     lr_scheduler := s |}) →
  store h !! hyperparameters i = Some (OHyper H0) →
  (∀ l, l ≠ self → l ≠ hyperparameters i → store h !! l = store h0 !! l) →
  ∃ h', for_each l (OptimizerBase.set_hparam self) h = (Ret (), h') ∧
        hparams_set self h0 h' i (foldl overwrite_step H0 l).
Proof.
  revert h s H0. induction l as [|[k v] l IH]; intros h s H0 Hs HH Hfr.
  - exists h. split; [done |]. split_and!; eauto.
  - assert (Hne : self ≠ hyperparameters i) by (intros Heq; congruence).
    simpl for_each.
    erewrite bind_eq by (by eapply set_hparam_eq).
    cbn [cls cache cur_step hyperparameters].
    simpl foldl. unfold overwrite_step at 2. cbn [fst snd].
    destruct (bool_decide (is_Some (H0 !! k))); [|by eapply IH].
    cbv zeta. destruct (bool_decide (k = "lr_scheduler")).
    + eapply IH.
      * by rewrite lookup_hput_eq.
      * rewrite lookup_hput_ne by done. by rewrite lookup_hput_eq.
      * intros l' ??. rewrite !lookup_hput_ne by done. by apply Hfr.
    + eapply IH.
      * rewrite lookup_hput_ne by done. exact Hs.
      * by rewrite lookup_hput_eq.
      * intros l' ??. rewrite !lookup_hput_ne by done. by apply Hfr.
Qed.

Lemma set_cache_entry_loop (l : list (string * loc)) h0 h i c0 :
  store h !! self = Some (OInst i) →
  store h !! cache i = Some (OCache c0) →
  (∀ l, l ≠ cache i → store h !! l = store h0 !! l) →
  ∃ h', for_each l (OptimizerBase.set_cache_entry self) h = (Ret (), h') ∧
        store h' !! cache i = Some (OCache (foldl overwrite_step c0 l)) ∧
        (∀ l, l ≠ cache i → store h' !! l = store h0 !! l).
Proof.
  revert h c0. induction l as [|[k e] l IH]; intros h c0 Hs HC Hfr.
  - exists h. split; [done |]. split_and!; eauto.
  - assert (Hne : self ≠ cache i) by (intros Heq; congruence).
    simpl for_each.
    erewrite bind_eq by (by eapply set_cache_entry_eq).
    simpl foldl. unfold overwrite_step at 2. cbn [fst snd].
    destruct (bool_decide (is_Some (c0 !! k))); [|by eapply IH].
    eapply IH.
    + rewrite lookup_hput_ne by done. exact Hs.
    + by rewrite lookup_hput_eq.
    + intros l' ?. rewrite !lookup_hput_ne by done. by apply Hfr.
Qed.

End set_params.

(** C7. [set_params] overwrites only keys that exist: a key of
    [hparam_dict] present in [hyperparameters] gets the new value, a key of
    [cache_dict] present in the cache gets the new value, and every other
    key of the two arguments is ignored; no key is added, nothing else in
    the two dicts changes, and no exception is raised. *)
Theorem set_params_overwrites_existing_keys `{SI : SchedulerInitializer}
    (h : heap) (self : loc) (i : instance)
    (H : gmap string hval) (c : gmap string loc)
    (hparam_dict : option (gmap string hval))
    (cache_dict : option (gmap string loc)) :
  store h !! self = Some (OInst i) →
  store h !! hyperparameters i = Some (OHyper H) →
  store h !! cache i = Some (OCache c) →
  ∃ h' i' H' c',
    OptimizerBase.set_params self hparam_dict cache_dict h = (Ret (), h') ∧
    store h' !! self = Some (OInst i') ∧
    hyperparameters i' = hyperparameters i ∧ cache i' = cache i ∧
    cur_step i' = cur_step i ∧ cls i' = cls i ∧
    store h' !! hyperparameters i = Some (OHyper H') ∧
    store h' !! cache i = Some (OCache c') ∧
    (∀ k, H' !! k = match H !! k with
                    | Some v => Some (default v (hparam_dict ≫= (.!! k)))
                    | None => None
                    end) ∧
    (∀ k, c' !! k = match c !! k with
                    | Some e => Some (default e (cache_dict ≫= (.!! k)))
                    | None => None
                    end) ∧
    dom H' = dom H ∧ dom c' = dom c.
Proof.
  intros Hs HH HC.
  assert (Hne1 : self ≠ hyperparameters i) by (intros Heq; congruence).
  assert (Hne2 : self ≠ cache i) by (intros Heq; congruence).
  assert (Hne3 : cache i ≠ hyperparameters i) by (intros Heq; congruence).
  (* the first loop *)
  assert (∃ h1 s H',
    match hparam_dict with
    | Some d => for_each (map_to_list d) (OptimizerBase.set_hparam self)
    | None => mret ()
    end h = (Ret (), h1) ∧
    store h1 !! self
      = Some (OInst {| cls := cls i; cache := cache i;
                       cur_step := cur_step i;
                       hyperparameters := hyperparameters i;
                       lr_scheduler := s |}) ∧
    store h1 !! hyperparameters i = Some (OHyper H') ∧
    store h1 !! cache i = Some (OCache c) ∧
    ∀ k, H' !! k = match H !! k with
                   | Some v => Some (default v (hparam_dict ≫= (.!! k)))
                   | None => None
                   end) as (h1 & s & H' & Hrun1 & Hs1 & HH1 & HC1 & HH').
  { destruct hparam_dict as [d|].
    - destruct (set_hparam_loop self (map_to_list d) h h i (lr_scheduler i) H)
        as (h1 & Hrun & [s Hs1] & HH1 & Hfr); [by destruct i | done | done |].
      exists h1, s, (foldl overwrite_step H (map_to_list d)).
      split_and!; [done | done | done | by rewrite Hfr |].
      intros k. apply overwrite_map_to_list.
    - exists h, (lr_scheduler i), H.
      split_and!; [done | by destruct i | done | done |].
      intros k. simpl. by destruct (H !! k). }
  (* the second loop *)
  set (i1 := {| cls := cls i; cache := cache i; cur_step := cur_step i;
                hyperparameters := hyperparameters i; lr_scheduler := s |}).
  assert (∃ h2 c',
    match cache_dict with
    | Some d => for_each (map_to_list d) (OptimizerBase.set_cache_entry self)
    | None => mret ()
    end h1 = (Ret (), h2) ∧
    store h2 !! cache i = Some (OCache c') ∧
    (∀ l, l ≠ cache i → store h2 !! l = store h1 !! l) ∧
    ∀ k, c' !! k = match c !! k with
                   | Some e => Some (default e (cache_dict ≫= (.!! k)))
                   | None => None
                   end) as (h2 & c' & Hrun2 & HC2 & Hfr2 & Hc').
  { destruct cache_dict as [d|].
    - destruct (set_cache_entry_loop self (map_to_list d) h1 h1 i1 c)
        as (h2 & Hrun & HC2 & Hfr); [done | done | done |].
      exists h2, (foldl overwrite_step c (map_to_list d)).
      split_and!; [done | done | done |].
      intros k. apply overwrite_map_to_list.
    - exists h1, c. split_and!; [done | done | done |].
      intros k. simpl. by destruct (c !! k). }
  exists h2, i1, H', c'. split_and!; try done.
  - unfold OptimizerBase.set_params. by erewrite bind_eq by exact Hrun1.
  - by rewrite Hfr2.
  - by rewrite Hfr2.
  - apply set_eq. intros k. rewrite !elem_of_dom, HH'.
    destruct (H !! k); [by split; eauto | by split; intros [??]].
  - apply set_eq. intros k. rewrite !elem_of_dom, Hc'.
    destruct (c !! k); [by split; eauto | by split; intros [??]].
Qed.

(* ================================================================== *)
(** * Running the update methods *)

Lemma lookup_halloc_at l o h : l = next h → store (halloc o h) !! l = Some o.
Proof. intros ->. apply lookup_halloc_eq. Qed.

Lemma lookup_hput_at l l' o h : l' = l → store (hput l o h) !! l' = Some o.
Proof. intros ->. apply lookup_hput_eq. Qed.

Ltac heap_neq := cbn [next hput halloc] in *; first [ congruence | lia ].

Ltac heap_eq := cbn [next hput halloc] in *; first [ reflexivity | lia ].

Ltac heap_lookup :=
  repeat first
    [ rewrite lookup_hput_at by heap_eq
    | rewrite lookup_halloc_at by heap_eq
    | rewrite lookup_hput_ne by heap_neq
    | rewrite lookup_halloc_ne by heap_neq ];
  first [ eassumption | reflexivity ].

(** Run the next call of a sequence whose outcome is known. *)
Ltac py_step lem := erewrite bind_eq by (eapply lem; heap_lookup).

Lemma init_entry_run h self i c name g :
  heap_wf h →
  store h !! self = Some (OInst i) →
  store h !! cache i = Some (OCache c) →
  ∃ h1 c1 e,
    init_entry (cache i) name g h = (Ret (), h1) ∧
    entry_ready h1 self i c1 name e ∧
    match c !! name with
    | Some e0 => h1 = h ∧ c1 = c ∧ e = e0
    | None =>
        h1 = hput (cache i) (OCache (<[name := next h]> c))
                  (halloc (OArr (zeros_like g)) h) ∧
        c1 = <[name := next h]> c ∧ e = next h
    end.
Proof.
  intros Hwf Hs HC.
  pose proof (wf_lt _ _ _ Hwf Hs). pose proof (wf_lt _ _ _ Hwf HC).
  assert (self ≠ cache i) by congruence.
  destruct (c !! name) as [e0|] eqn:Hn.
  - exists h, c, e0. split; [by eapply init_entry_present |].
    split; [|done]. split; try done. by eapply wf_cache.
  - exists (hput (cache i) (OCache (<[name := next h]> c))
                 (halloc (OArr (zeros_like g)) h)),
           (<[name := next h]> c), (next h).
    split; [apply init_entry_fresh; [done | done | lia] |].
    split; [|done]. split.
    + heap_lookup.
    + heap_lookup.
    + by rewrite lookup_insert_eq.
    + heap_neq.
    + heap_neq.
    + heap_neq.
Qed.

Section SGD_run.
Context (h : heap) (self : loc) (i : instance) (H : gmap string hval).
Context (param param_grad : tensor) (name : string) (cur_loss : option fl).
Context (m : fl) (cn : hval) (g' : tensor).
Context (h1 : heap) (c1 : gmap string loc) (e : loc) (x : tensor).
Hypothesis Hs : store h !! self = Some (OInst i).
Hypothesis HH : store h !! hyperparameters i = Some (OHyper H).
Hypothesis Hm : H !! "momentum" = Some (HNum m).
Hypothesis Hcn : H !! "clip_norm" = Some cn.
Hypothesis Hclip : clip param_grad cn = Ret g'.
Hypothesis Hinit : init_entry (cache i) name param_grad h = (Ret (), h1).
Hypothesis Hready : entry_ready h1 self i c1 name e.
Hypothesis Hx : store h1 !! e = Some (OArr x).

Let lr := sched_call (lr_scheduler i) (cur_step i) cur_loss.

Lemma SGD_update_run :
  SGD.update self param param_grad name cur_loss h
  = match broadcast fadd (scalar_mul m x) (scalar_mul lr g') with
    | Ret u =>
        (broadcast fsub param u,
         hput (cache i) (OCache (<[name := next h1]> c1))
              (halloc (OArr u) h1))
    | Raise ex => (Raise ex, h1)
    end.
Proof.
  destruct Hready as [Hs1 HC1 He1 ? ? ?].
  unfold SGD.update.
  py_step get_inst_eq. py_step hyper_getitem_eq. py_step hyper_getitem_eq.
  erewrite bind_eq by exact Hinit.
  rewrite bind_lift, Hclip.
  py_step cache_getitem_eq.
  rewrite bind_lift. cbn [as_float].
  py_step get_arr_eq.
  rewrite bind_lift. fold lr.
  destruct (broadcast fadd (scalar_mul m x) (scalar_mul lr g')) as [u|ex];
    [|done].
  py_step get_inst_eq.
  erewrite bind_eq by reflexivity.
  py_step cache_setitem_eq.
  done.
Qed.
End SGD_run.

Lemma cache_insert_same h C (c : gmap string loc) k e :
  store h !! C = Some (OCache c) → c !! k = Some e →
  hput C (OCache (<[k := e]> c)) h = h.
Proof. intros HC Hk. rewrite insert_id by done. by apply hput_same. Qed.

Section AdaGrad_run.
Context (h : heap) (self : loc) (i : instance) (H : gmap string hval).
Context (param param_grad : tensor) (name : string) (cur_loss : option fl).
Context (eps : fl) (cn : hval) (g' : tensor).
Context (h1 : heap) (c1 : gmap string loc) (e : loc) (x : tensor).
Hypothesis Hs : store h !! self = Some (OInst i).
Hypothesis HH : store h !! hyperparameters i = Some (OHyper H).
Hypothesis Heps : H !! "eps" = Some (HNum eps).
Hypothesis Hcn : H !! "clip_norm" = Some cn.
Hypothesis Hclip : clip param_grad cn = Ret g'.
Hypothesis Hinit : init_entry (cache i) name param_grad h = (Ret (), h1).
Hypothesis Hready : entry_ready h1 self i c1 name e.
Hypothesis Hx : store h1 !! e = Some (OArr x).

Let lr := sched_call (lr_scheduler i) (cur_step i) cur_loss.

Lemma AdaGrad_update_run :
  AdaGrad.update self param param_grad name cur_loss h
  = match iadd x (square g') with
    | Ret x' =>
        (match broadcast fdiv (scalar_mul lr g')
                         (add_scalar (tsqrt x') eps) with
         | Ret u => broadcast fsub param u
         | Raise ex => Raise ex
         end,
         hput e (OArr x') h1)
    | Raise ex => (Raise ex, h1)
    end.
Proof.
  destruct Hready as [Hs1 HC1 He1 ? ? ?].
  assert (e ≠ self) by congruence. assert (e ≠ cache i) by congruence.
  assert (self ≠ cache i) by congruence.
  unfold AdaGrad.update.
  py_step get_inst_eq. py_step hyper_getitem_eq. py_step hyper_getitem_eq.
  erewrite bind_eq by exact Hinit.
  rewrite bind_lift, Hclip.
  py_step cache_getitem_eq. py_step get_arr_eq.
  rewrite bind_lift.
  destruct (iadd x (square g')) as [x'|ex]; [|done].
  erewrite bind_eq by reflexivity.
  py_step cache_setitem_eq.
  rewrite cache_insert_same by (done || heap_lookup).
  rewrite bind_lift. cbn [as_float]. rewrite bind_lift. fold lr.
  destruct (broadcast fdiv (scalar_mul lr g') (add_scalar (tsqrt x') eps))
    as [u|ex]; [|done].
  py_step set_cache_attr_eq.
  rewrite hput_same by heap_lookup.
  done.
Qed.
End AdaGrad_run.

Section RMSProp_run.
Context (h : heap) (self : loc) (i : instance) (H : gmap string hval).
Context (param param_grad : tensor) (name : string) (cur_loss : option fl).
Context (eps decay : fl) (cn : hval) (g' : tensor).
Context (h1 : heap) (c1 : gmap string loc) (e : loc) (x : tensor).
Hypothesis Hs : store h !! self = Some (OInst i).
Hypothesis HH : store h !! hyperparameters i = Some (OHyper H).
Hypothesis Heps : H !! "eps" = Some (HNum eps).
Hypothesis Hdecay : H !! "decay" = Some (HNum decay).
Hypothesis Hcn : H !! "clip_norm" = Some cn.
Hypothesis Hclip : clip param_grad cn = Ret g'.
Hypothesis Hinit : init_entry (cache i) name param_grad h = (Ret (), h1).
Hypothesis Hready : entry_ready h1 self i c1 name e.
Hypothesis Hx : store h1 !! e = Some (OArr x).

Let lr := sched_call (lr_scheduler i) (cur_step i) cur_loss.

Lemma RMSProp_update_run :
  RMSProp.update self param param_grad name cur_loss h
  = match broadcast fadd (scalar_mul decay x)
                    (scalar_mul (fsub (Fin 1) decay) (square g')) with
    | Ret x' =>
        (match broadcast fdiv (scalar_mul lr g')
                         (add_scalar (tsqrt x') eps) with
         | Ret u => broadcast fsub param u
         | Raise ex => Raise ex
         end,
         hput (cache i) (OCache (<[name := next h1]> c1))
              (halloc (OArr x') h1))
    | Raise ex => (Raise ex, h1)
    end.
Proof.
  destruct Hready as [Hs1 HC1 He1 ? ? ?].
  assert (e ≠ self) by congruence. assert (e ≠ cache i) by congruence.
  assert (self ≠ cache i) by congruence.
  unfold RMSProp.update.
  py_step get_inst_eq.
  py_step hyper_getitem_eq. py_step hyper_getitem_eq. py_step hyper_getitem_eq.
  erewrite bind_eq by exact Hinit.
  rewrite bind_lift, Hclip.
  rewrite bind_lift. cbn [as_float].
  py_step cache_getitem_eq. py_step get_arr_eq.
  rewrite bind_lift.
  destruct (broadcast fadd (scalar_mul decay x)
              (scalar_mul (fsub (Fin 1) decay) (square g'))) as [x'|ex];
    [|done].
  erewrite bind_eq by reflexivity.
  py_step cache_setitem_eq.
  rewrite bind_lift. rewrite bind_lift. fold lr.
  destruct (broadcast fdiv (scalar_mul lr g') (add_scalar (tsqrt x') eps))
    as [u|ex]; [|done].
  py_step set_cache_attr_eq.
  rewrite hput_same by heap_lookup.
  done.
Qed.
End RMSProp_run.

Lemma Adam_init_entry_run h self i c name g :
  heap_wf h →
  store h !! self = Some (OInst i) →
  store h !! cache i = Some (OCache c) →
  ∃ h1 c1 e,
    Adam.init_entry (cache i) name g h = (Ret (), h1) ∧
    entry_ready h1 self i c1 name e ∧
    match c !! name with
    | Some e0 => h1 = h ∧ c1 = c ∧ e = e0
    | None =>
        h1 = hput (cache i) (OCache (<[name := 2 + next h]> c))
               (halloc (ORec 0 (next h) (1 + next h))
                 (halloc (OArr (zeros_like g))
                   (halloc (OArr (zeros_like g)) h))) ∧
        c1 = <[name := 2 + next h]> c ∧ e = 2 + next h ∧
        adam_ready h1 e 0 (next h) (1 + next h) (zeros_like g) (zeros_like g)
    end.
Proof.
  intros Hwf Hs HC.
  pose proof (wf_lt _ _ _ Hwf Hs). pose proof (wf_lt _ _ _ Hwf HC).
  assert (self ≠ cache i) by congruence.
  unfold Adam.init_entry.
  rewrite (bind_eq _ _ _ _ _ (cache_contains_eq _ _ _ _ HC)).
  destruct (c !! name) as [e0|] eqn:Hn.
  - rewrite bool_decide_true by eauto.
    exists h, c, e0. split; [done |].
    split; [|done]. split; try done. by eapply wf_cache.
  - rewrite bool_decide_false by (by intros [??]).
    do 3 erewrite bind_eq by reflexivity.
    eexists _, _, _. split; [apply cache_setitem_eq; heap_lookup |].
    split_and!; try done.
    + split.
      * heap_lookup.
      * heap_lookup.
      * by rewrite lookup_insert_eq.
      * heap_neq.
      * heap_neq.
      * heap_neq.
    + split.
      * heap_lookup.
      * heap_lookup.
      * heap_lookup.
      * heap_neq.
      * heap_neq.
Qed.

Section Adam_run.
Context (h : heap) (self : loc) (i : instance) (H : gmap string hval).
Context (param param_grad : tensor) (name : string) (cur_loss : option fl).
Context (d1 d2 eps : fl) (cn : hval) (g' : tensor).
Context (h1 : heap) (c1 : gmap string loc) (e : loc).
Context (t0 : Z) (ml vl : loc) (mx vx : tensor).
Hypothesis Hs : store h !! self = Some (OInst i).
Hypothesis HH : store h !! hyperparameters i = Some (OHyper H).
Hypothesis Hd1 : H !! "decay1" = Some (HNum d1).
Hypothesis Hd2 : H !! "decay2" = Some (HNum d2).
Hypothesis Heps : H !! "eps" = Some (HNum eps).
Hypothesis Hcn : H !! "clip_norm" = Some cn.
Hypothesis Hclip : clip param_grad cn = Ret g'.
Hypothesis Hinit : Adam.init_entry (cache i) name param_grad h = (Ret (), h1).
Hypothesis Hready : entry_ready h1 self i c1 name e.
Hypothesis Hrec : adam_ready h1 e t0 ml vl mx vx.

Let lr := sched_call (lr_scheduler i) (cur_step i) cur_loss.
Let t := (t0 + 1)%Z.

(** The heaps Adam's update goes through. *)
Let h2 := hput e (ORec t ml vl) h1.
Let h4 (var' : tensor) :=
  hput e (ORec t ml (next h1)) (halloc (OArr var') h2).
Let h6 (var' mean' : tensor) :=
  hput e (ORec t (S (next h1)) (next h1)) (halloc (OArr mean') (h4 var')).

Lemma Adam_update_run :
  Adam.update self param param_grad name cur_loss h
  = match broadcast fadd (scalar_mul d2 vx)
                    (scalar_mul (fsub (Fin 1) d2) (square g')) with
    | Raise ex => (Raise ex, h2)
    | Ret var' =>
        match broadcast fadd (scalar_mul d1 mx)
                        (scalar_mul (fsub (Fin 1) d1) g') with
        | Raise ex => (Raise ex, h4 var')
        | Ret mean' =>
            (match py_pow d2 t with
             | Raise ex => Raise ex
             | Ret p2 =>
                 match py_pow d1 t with
                 | Raise ex => Raise ex
                 | Ret p1 =>
                     let v_hat := div_scalar var' (fsub (Fin 1) p2) in
                     let m_hat := div_scalar mean' (fsub (Fin 1) p1) in
                     match broadcast fdiv (scalar_mul lr m_hat)
                                     (add_scalar (tsqrt v_hat) eps) with
                     | Raise ex => Raise ex
                     | Ret u => broadcast fsub param u
                     end
                 end
             end,
             h6 var' mean')
        end
    end.
Proof.
  destruct Hready as [Hs1 HC1 He1 ? ? ?].
  destruct Hrec as [Hr Hml Hvl ? ?].
  assert (e ≠ self) by congruence. assert (e ≠ cache i) by congruence.
  assert (self ≠ cache i) by congruence.
  assert (e ≠ ml) by congruence. assert (e ≠ vl) by congruence.
  unfold Adam.update.
  py_step get_inst_eq.
  py_step hyper_getitem_eq. py_step hyper_getitem_eq.
  py_step hyper_getitem_eq. py_step hyper_getitem_eq.
  erewrite bind_eq by exact Hinit.
  rewrite bind_lift, Hclip.
  py_step cache_getitem_eq. py_step get_rec_eq.
  cbn [fst snd]. fold t.
  erewrite bind_eq by reflexivity. fold h2.
  rewrite bind_lift. cbn [as_float].
  erewrite bind_eq by (eapply get_arr_eq; unfold h2; heap_lookup).
  rewrite bind_lift.
  destruct (broadcast fadd (scalar_mul d2 vx)
              (scalar_mul (fsub (Fin 1) d2) (square g'))) as [var'|ex];
    [|done].
  erewrite bind_eq by reflexivity.
  erewrite bind_eq by reflexivity.
  change (next h2) with (next h1). fold (h4 var').
  rewrite bind_lift. cbn [as_float].
  erewrite bind_eq by (eapply get_arr_eq; unfold h4, h2; heap_lookup).
  rewrite bind_lift.
  destruct (broadcast fadd (scalar_mul d1 mx)
              (scalar_mul (fsub (Fin 1) d1) g')) as [mean'|ex];
    [|done].
  erewrite bind_eq by reflexivity.
  erewrite bind_eq by reflexivity.
  change (next (h4 var')) with (S (next h1)). fold (h6 var' mean').
  erewrite bind_eq
    by (eapply set_cache_attr_eq; unfold h6, h4, h2; heap_lookup).
  rewrite hput_same by (unfold h6, h4, h2; heap_lookup).
  rewrite bind_lift. destruct (py_pow d2 t) as [p2|ex]; [|done].
  rewrite bind_lift. destruct (py_pow d1 t) as [p1|ex]; [|done].
  rewrite bind_lift. cbn [as_float]. rewrite bind_lift. fold lr. cbv zeta.
  by destruct (broadcast fdiv _ _).
Qed.
End Adam_run.

(* ================================================================== *)
(** * The constructors *)

Lemma heap_wf_empty : heap_wf empty_heap.
Proof. intros l o Hl. simpl in Hl. by rewrite lookup_empty in Hl. Qed.

Lemma safe_wf {A} (m : Py A) h Q :
  heap_wf h → safe 0 h (next h) m Q → heap_wf (m h).2.
Proof.
  intros Hwf Hm. apply heap_wf_Inv in Hwf.
  destruct (Hm h Hwf (Nat.le_refl _)) as (Hinv & _ & _).
  apply heap_wf_Inv. by eapply Inv_0.
Qed.

Section constructors_safe.
Context `{SI : SchedulerInitializer} (N : nat) (h0 : heap).

Lemma good_obj_cache_empty b : good_obj N b (OCache ∅).
Proof. apply good_obj_cache. intros k e Hk. by rewrite lookup_empty in Hk. Qed.

Lemma safe_Base_init b c lr s :
  safe N h0 b (OptimizerBase.__init__ c lr s) (λ self b', good N b' self).
Proof.
  unfold OptimizerBase.__init__.
  eapply safe_bind; [apply safe_alloc, good_obj_cache_empty |].
  intros C b1 Hb1 HC.
  eapply safe_bind; [apply safe_alloc, good_obj_hyper |].
  intros H b2 Hb2 HH.
  apply safe_alloc, good_obj_inst; simpl; solve_good.
Qed.

Lemma safe_init_tail b self (i : instance) Hd :
  good N b self →
  safe N h0 b (H ← alloc (OHyper Hd);
               set_hyperparameters_attr self H;; mret self)
       (λ self b', good N b' self).
Proof.
  intros Hs.
  eapply safe_bind; [apply safe_alloc, good_obj_hyper |].
  intros H b2 Hb2 HH.
  eapply safe_bind; [apply safe_set_hyperparameters_attr; solve_good |].
  intros _ b3 Hb3 _. apply safe_ret. intros. solve_good.
Qed.

Lemma safe_SGD_init b lr m cn s :
  safe N h0 b (SGD.__init__ lr m cn s) (λ self b', good N b' self).
Proof.
  unfold SGD.__init__.
  eapply safe_bind; [apply safe_Base_init |].
  intros self b1 Hb1 Hs.
  eapply safe_bind; [apply safe_get_inst; solve_good |].
  intros i b2 Hb2 _. apply (safe_init_tail _ _ i). solve_good.
Qed.

Lemma safe_init_cache b self :
  good N b self →
  safe N h0 b (C ← alloc (OCache ∅); set_cache_attr self C) (λ _ _, True).
Proof.
  intros Hs.
  eapply safe_bind; [apply safe_alloc, good_obj_cache_empty |].
  intros C b2 Hb2 HC. apply safe_set_cache_attr; solve_good.
Qed.

Lemma safe_AdaGrad_init b lr eps cn s :
  safe N h0 b (AdaGrad.__init__ lr eps cn s) (λ self b', good N b' self).
Proof.
  unfold AdaGrad.__init__.
  eapply safe_bind; [apply safe_Base_init |].
  intros self b1 Hb1 Hs.
  eapply safe_bind; [apply safe_alloc, good_obj_cache_empty |].
  intros C b2 Hb2 HC.
  eapply safe_bind; [apply safe_set_cache_attr; solve_good |].
  intros _ b3 Hb3 _.
  eapply safe_bind; [apply safe_get_inst; solve_good |].
  intros i b4 Hb4 _. apply (safe_init_tail _ _ i). solve_good.
Qed.

Lemma safe_RMSProp_init b lr decay eps cn s :
  safe N h0 b (RMSProp.__init__ lr decay eps cn s) (λ self b', good N b' self).
Proof.
  unfold RMSProp.__init__.
  eapply safe_bind; [apply safe_Base_init |].
  intros self b1 Hb1 Hs.
  eapply safe_bind; [apply safe_alloc, good_obj_cache_empty |].
  intros C b2 Hb2 HC.
  eapply safe_bind; [apply safe_set_cache_attr; solve_good |].
  intros _ b3 Hb3 _.
  eapply safe_bind; [apply safe_get_inst; solve_good |].
  intros i b4 Hb4 _. apply (safe_init_tail _ _ i). solve_good.
Qed.

Lemma safe_Adam_init b lr d1 d2 eps cn s :
  safe N h0 b (Adam.__init__ lr d1 d2 eps cn s) (λ self b', good N b' self).
Proof.
  unfold Adam.__init__.
  eapply safe_bind; [apply safe_Base_init |].
  intros self b1 Hb1 Hs.
  eapply safe_bind; [apply safe_alloc, good_obj_cache_empty |].
  intros C b2 Hb2 HC.
  eapply safe_bind; [apply safe_set_cache_attr; solve_good |].
  intros _ b3 Hb3 _.
  eapply safe_bind; [apply safe_get_inst; solve_good |].
  intros i b4 Hb4 _. apply (safe_init_tail _ _ i). solve_good.
Qed.
End constructors_safe.

Lemma Base_init_run `{SI : SchedulerInitializer} c lr s h :
  OptimizerBase.__init__ c lr s h
  = (Ret (2 + next h),
     halloc (OInst {| cls := c; cache := next h; cur_step := 0;
                      hyperparameters := 1 + next h;
                      lr_scheduler := resolve_scheduler s (Some lr) |})
       (halloc (OHyper ∅) (halloc (OCache ∅) h))).
Proof. done. Qed.

Lemma set_hyperparameters_attr_eq h self i H :
  store h !! self = Some (OInst i) →
  set_hyperparameters_attr self H h
  = (Ret (), hput self (OInst {| cls := cls i; cache := cache i;
                                 cur_step := cur_step i;
                                 hyperparameters := H;
                                 lr_scheduler := lr_scheduler i |}) h).
Proof.
  intros Hl. unfold set_hyperparameters_attr.
  by rewrite (bind_eq _ _ _ _ _ (get_inst_eq _ _ _ Hl)).
Qed.

Lemma set_cache_attr_new h self i C :
  store h !! self = Some (OInst i) →
  set_cache_attr self C h
  = (Ret (), hput self (OInst {| cls := cls i; cache := C;
                                 cur_step := cur_step i;
                                 hyperparameters := hyperparameters i;
                                 lr_scheduler := lr_scheduler i |}) h).
Proof.
  intros Hl. unfold set_cache_attr.
  by rewrite (bind_eq _ _ _ _ _ (get_inst_eq _ _ _ Hl)).
Qed.

Section constructors.
Context `{SI : SchedulerInitializer} (h : heap).
Hypothesis Hwf : heap_wf h.

Lemma SGD_init_run lr m cn sch :
  ∃ h',
    SGD.__init__ lr m cn sch h = (Ret (2 + next h), h') ∧
    fresh_optimizer h' (2 + next h) ClsSGD lr sch
      (<["id" := HStr "SGD"]>
       (<["lr" := HNum lr]>
       (<["momentum" := HNum m]>
       (<["clip_norm" := cn]>
       (<["lr_scheduler" :=
            HStr (sched_str (resolve_scheduler sch (Some lr)))]> ∅))))).
Proof.
  pose proof (safe_wf (SGD.__init__ lr m cn sch) h _ Hwf
                (safe_SGD_init 0 h _ lr m cn sch)) as Hwf'.
  revert Hwf'. unfold SGD.__init__.
  erewrite bind_eq by apply Base_init_run.
  py_step get_inst_eq.
  erewrite bind_eq by reflexivity.
  py_step set_hyperparameters_attr_eq.
  intros Hwf'. eexists. split; [reflexivity |].
  split; [exact Hwf' |].
  eexists. split_and!; [heap_lookup | done | done | done | |];
    cbn [cache hyperparameters]; heap_lookup.
Qed.

Lemma AdaGrad_init_run lr eps cn sch :
  ∃ h',
    AdaGrad.__init__ lr eps cn sch h = (Ret (2 + next h), h') ∧
    fresh_optimizer h' (2 + next h) ClsAdaGrad lr sch
      (<["id" := HStr "AdaGrad"]>
       (<["lr" := HNum lr]>
       (<["eps" := HNum eps]>
       (<["clip_norm" := cn]>
       (<["lr_scheduler" :=
            HStr (sched_str (resolve_scheduler sch (Some lr)))]> ∅))))).
Proof.
  pose proof (safe_wf (AdaGrad.__init__ lr eps cn sch) h _ Hwf
                (safe_AdaGrad_init 0 h _ lr eps cn sch)) as Hwf'.
  revert Hwf'. unfold AdaGrad.__init__.
  erewrite bind_eq by apply Base_init_run.
  erewrite bind_eq by reflexivity.
  py_step set_cache_attr_new.
  py_step get_inst_eq.
  erewrite bind_eq by reflexivity.
  py_step set_hyperparameters_attr_eq.
  intros Hwf'. eexists. split; [reflexivity |].
  split; [exact Hwf' |].
  eexists. split_and!; [heap_lookup | done | done | done | |];
    cbn [cache hyperparameters]; heap_lookup.
Qed.

Lemma RMSProp_init_run lr decay eps cn sch :
  ∃ h',
    RMSProp.__init__ lr decay eps cn sch h = (Ret (2 + next h), h') ∧
    fresh_optimizer h' (2 + next h) ClsRMSProp lr sch
      (<["id" := HStr "RMSProp"]>
       (<["lr" := HNum lr]>
       (<["eps" := HNum eps]>
       (<["decay" := HNum decay]>
       (<["clip_norm" := cn]>
       (<["lr_scheduler" :=
            HStr (sched_str (resolve_scheduler sch (Some lr)))]> ∅)))))).
Proof.
  pose proof (safe_wf (RMSProp.__init__ lr decay eps cn sch) h _ Hwf
                (safe_RMSProp_init 0 h _ lr decay eps cn sch)) as Hwf'.
  revert Hwf'. unfold RMSProp.__init__.
  erewrite bind_eq by apply Base_init_run.
  erewrite bind_eq by reflexivity.
  py_step set_cache_attr_new.
  py_step get_inst_eq.
  erewrite bind_eq by reflexivity.
  py_step set_hyperparameters_attr_eq.
  intros Hwf'. eexists. split; [reflexivity |].
  split; [exact Hwf' |].
  eexists. split_and!; [heap_lookup | done | done | done | |];
    cbn [cache hyperparameters]; heap_lookup.
Qed.

Lemma Adam_init_run lr d1 d2 eps cn sch :
  ∃ h',
    Adam.__init__ lr d1 d2 eps cn sch h = (Ret (2 + next h), h') ∧
    fresh_optimizer h' (2 + next h) ClsAdam lr sch
      (<["id" := HStr "Adam"]>
       (<["lr" := HNum lr]>
       (<["eps" := HNum eps]>
       (<["decay1" := HNum d1]>
       (<["decay2" := HNum d2]>
       (<["clip_norm" := cn]>
       (<["lr_scheduler" :=
            HStr (sched_str (resolve_scheduler sch (Some lr)))]> ∅))))))).
Proof.
  pose proof (safe_wf (Adam.__init__ lr d1 d2 eps cn sch) h _ Hwf
                (safe_Adam_init 0 h _ lr d1 d2 eps cn sch)) as Hwf'.
  revert Hwf'. unfold Adam.__init__.
  erewrite bind_eq by apply Base_init_run.
  erewrite bind_eq by reflexivity.
  py_step set_cache_attr_new.
  py_step get_inst_eq.
  erewrite bind_eq by reflexivity.
  py_step set_hyperparameters_attr_eq.
  intros Hwf'. eexists. split; [reflexivity |].
  split; [exact Hwf' |].
  eexists. split_and!; [heap_lookup | done | done | done | |];
    cbn [cache hyperparameters]; heap_lookup.
Qed.
End constructors.

(* ================================================================== *)
(** * Calls of update *)

Lemma update_eq h self i p g n l :
  store h !! self = Some (OInst i) →
  update self p g n l h = update_of (cls i) self p g n l h.
Proof. intros Hs. unfold update. by py_step get_inst_eq. Qed.

Lemma update_wf h self p g n l :
  heap_wf h → self < next h → heap_wf (update self p g n l h).2.
Proof.
  intros Hwf Hs. eapply safe_wf; [done |].
  apply safe_update. unfold good. lia.
Qed.

Lemma cached_eq h self i c H name e :
  store h !! self = Some (OInst i) →
  store h !! cache i = Some (OCache c) →
  store h !! hyperparameters i = Some (OHyper H) →
  c !! name = Some e →
  cached h self name = entry_view (store h) e.
Proof.
  intros Hs HC HH Hn. unfold cached, snapshot_of. rewrite Hs, HC, HH.
  simpl. rewrite lookup_fmap, Hn. simpl. by destruct (entry_view _ _).
Qed.

Lemma entry_view_arr s e x : s !! e = Some (OArr x) → entry_view s e = Some (EArr x).
Proof. intros He. unfold entry_view. by rewrite He. Qed.

Lemma clip_length g cn g' : clip g cn = Ret g' → length g' = length g.
Proof.
  unfold clip. destruct cn as [|t|s]; [| |done].
  - destruct (fgt _ _); intros [= <-]; [|done].
    unfold div_scalar, mul_scalar. by rewrite !length_fmap.
  - destruct (fgt _ _); intros [= <-]; [|done].
    unfold div_scalar, mul_scalar. by rewrite !length_fmap.
Qed.

Lemma clip_ret g cn : (∀ s, cn ≠ HStr s) → ∃ g', clip g cn = Ret g'.
Proof.
  intros Hcn. unfold clip. destruct cn as [|t|s]; [| |by destruct (Hcn s)];
    destruct (fgt _ _); eauto.
Qed.

Section SGD_step.
Context (h : heap) (self : loc) (i : instance) (H : gmap string hval)
        (c : gmap string loc).
Context (p g g' x u : tensor) (name : string) (loss : option fl) (m : fl)
        (cn : hval).
Hypothesis Hwf : heap_wf h.
Hypothesis Hs : store h !! self = Some (OInst i).
Hypothesis Hcls : cls i = ClsSGD.
Hypothesis HH : store h !! hyperparameters i = Some (OHyper H).
Hypothesis HC : store h !! cache i = Some (OCache c).
Hypothesis Hm : H !! "momentum" = Some (HNum m).
Hypothesis Hcn : H !! "clip_norm" = Some cn.
Hypothesis Hclip : clip g cn = Ret g'.
Hypothesis Hx : entry_array h c name g x.

Let lr := sched_call (lr_scheduler i) (cur_step i) loss.

Lemma SGD_step :
  ∃ h' c',
    update self p g name loss h
    = (match broadcast fadd (scalar_mul m x) (scalar_mul lr g') with
       | Ret u => broadcast fsub p u
       | Raise ex => Raise ex
       end, h') ∧
    heap_wf h' ∧
    store h' !! self = Some (OInst i) ∧
    store h' !! hyperparameters i = Some (OHyper H) ∧
    store h' !! cache i = Some (OCache c') ∧
    entry_array h' c' name g
      match broadcast fadd (scalar_mul m x) (scalar_mul lr g') with
      | Ret u => u
      | Raise _ => x
      end ∧
    cached h' self name
    = Some (EArr match broadcast fadd (scalar_mul m x) (scalar_mul lr g') with
                 | Ret u => u
                 | Raise _ => x
                 end).
Proof.
  pose proof (wf_lt _ _ _ Hwf Hs) as Hlt.
  pose proof (update_wf h self p g name loss Hwf Hlt) as Hwf'.
  revert Hwf'. rewrite (update_eq _ _ _ _ _ _ _ Hs), Hcls. simpl update_of.
  destruct (init_entry_run h self i c name g Hwf Hs HC)
    as (h1 & c1 & e & Hinit & Hready & Hcase).
  assert (Hx1 : store h1 !! e = Some (OArr x)).
  { unfold entry_array in Hx. destruct (c !! name) as [e0|].
    - by destruct Hcase as (-> & -> & ->).
    - destruct Hcase as (-> & -> & ->). subst x.
      pose proof (wf_lt _ _ _ Hwf HC). heap_lookup. }
  assert (HH1 : store h1 !! hyperparameters i = Some (OHyper H)).
  { destruct (c !! name) as [e0|].
    - by destruct Hcase as (-> & -> & ->).
    - destruct Hcase as (-> & -> & ->).
      pose proof (wf_lt _ _ _ Hwf HH).
      assert (cache i ≠ hyperparameters i) by congruence. heap_lookup. }
  rewrite (SGD_update_run h self i H p g name loss m cn g' h1 c1 e x
             Hs HH Hm Hcn Hclip Hinit Hready Hx1).
  fold lr. destruct Hready as [Hs1 HC1 He1 ? ? ?].
  assert (e ≠ self) by congruence. assert (e ≠ cache i) by congruence.
  assert (self ≠ cache i) by congruence.
  assert (cache i ≠ hyperparameters i) by congruence.
  pose proof (wf_lt _ _ _ Hwf HH).
  assert (hyperparameters i < next h1).
  { destruct (c !! name); [by destruct Hcase as (-> & -> & ->) |].
    destruct Hcase as (-> & -> & ->). cbn [next hput halloc]. lia. }
  destruct (broadcast fadd (scalar_mul m x) (scalar_mul lr g')) as [u'|ex].
  - intros Hwf'. eexists _, _. split; [reflexivity |].
    split; [exact Hwf' |].
    split_and!; [heap_lookup | heap_lookup | heap_lookup | |].
    + unfold entry_array. rewrite lookup_insert_eq. heap_lookup.
    + erewrite cached_eq;
        [| heap_lookup | heap_lookup | heap_lookup | apply lookup_insert_eq].
      apply entry_view_arr. heap_lookup.
  - intros Hwf'. eexists _, _. split; [reflexivity |].
    split; [exact Hwf' |].
    split_and!; [done | done | done | |].
    + unfold entry_array. by rewrite He1.
    + erewrite cached_eq by done. by apply entry_view_arr.
Qed.
End SGD_step.

(* ================================================================== *)
(** * C10 *)

(** C10. Calling an optimizer instance is calling its [update] method:
    for an instance of any class, [__call__] returns what the class's
    [update] returns with the same arguments, and leaves the same heap. *)
Theorem call_is_update (h : heap) (self : loc) (i : instance)
    (param param_grad : tensor) (param_name : string)
    (cur_loss : option fl) :
  store h !! self = Some (OInst i) →
  __call__ self param param_grad param_name cur_loss h
  = update_of (cls i) self param param_grad param_name cur_loss h.
Proof. intros Hs. unfold __call__. by apply update_eq. Qed.

(* ================================================================== *)
(** * C9 *)

Section scenario.
Local Open Scope R_scope.

Lemma clip_unset g : clip g HNone = Ret g.
Proof. unfold clip. by rewrite fgt_PInf. Qed.

End scenario.

(* ================================================================== *)
(** * One update of each adaptive optimizer *)

Lemma wf_ge_None h l : heap_wf h → next h ≤ l → store h !! l = None.
Proof.
  intros Hwf Hl. destruct (store h !! l) as [o|] eqn:Ho; [|done].
  apply (wf_lt _ _ _ Hwf) in Ho. lia.
Qed.

Lemma wf_next_None h : heap_wf h → store h !! next h = None.
Proof. intros Hwf. by apply wf_ge_None. Qed.

Lemma init_entry_facts h self i c name g x :
  heap_wf h →
  store h !! self = Some (OInst i) →
  store h !! cache i = Some (OCache c) →
  entry_array h c name g x →
  ∃ h1 c1 e,
    init_entry (cache i) name g h = (Ret (), h1) ∧
    entry_ready h1 self i c1 name e ∧
    entry_added h h1 (cache i) c c1 name e ∧
    store h1 !! e = Some (OArr x).
Proof.
  intros Hwf Hs HC Hx.
  destruct (init_entry_run h self i c name g Hwf Hs HC)
    as (h1 & c1 & e & Hinit & Hready & Hcase).
  exists h1, c1, e. split; [done |]. split; [done |].
  pose proof (wf_lt _ _ _ Hwf HC).
  unfold entry_array in Hx. destruct (c !! name) as [e0|] eqn:Hn.
  - destruct Hcase as (-> & -> & ->). split; [|done].
    split; try done. intros ?. congruence.
  - destruct Hcase as (-> & -> & ->). subst x. split; [split |].
    + intros l ? ?. heap_lookup.
    + intros k e Hk. rewrite lookup_insert_ne; [done | congruence].
    + intros k Hk. by rewrite lookup_insert_ne.
    + cbn [next hput halloc]. lia.
    + intros _. by apply wf_next_None.
    + heap_lookup.
Qed.

Lemma Adam_init_entry_facts h self i c name g t0 mx vx :
  heap_wf h →
  store h !! self = Some (OInst i) →
  store h !! cache i = Some (OCache c) →
  entry_rec h c name g t0 mx vx →
  ∃ h1 c1 e ml vl,
    Adam.init_entry (cache i) name g h = (Ret (), h1) ∧
    entry_ready h1 self i c1 name e ∧
    entry_added h h1 (cache i) c c1 name e ∧
    adam_ready h1 e t0 ml vl mx vx.
Proof.
  intros Hwf Hs HC Hx.
  destruct (Adam_init_entry_run h self i c name g Hwf Hs HC)
    as (h1 & c1 & e & Hinit & Hready & Hcase).
  pose proof (wf_lt _ _ _ Hwf HC).
  unfold entry_rec in Hx. destruct (c !! name) as [e0|] eqn:Hn.
  - destruct Hcase as (-> & -> & ->). destruct Hx as (ml & vl & Hrec).
    exists h, c, e0, ml, vl. split_and!; try done.
    split; try done. intros ?. congruence.
  - destruct Hcase as (-> & -> & -> & Hrec). destruct Hx as (-> & -> & ->).
    eexists _, _, _, _, _. split_and!; [done | done | | exact Hrec].
    split.
    + intros l ? ?. heap_lookup.
    + intros k e Hk. rewrite lookup_insert_ne; [done | congruence].
    + intros k Hk. by rewrite lookup_insert_ne.
    + cbn [next hput halloc]. lia.
    + intros _. apply wf_ge_None; [done | lia].
Qed.

Section AdaGrad_step.
Context (h : heap) (self : loc) (i : instance) (H : gmap string hval)
        (c : gmap string loc).
Context (p g g' x : tensor) (name : string) (loss : option fl) (eps : fl)
        (cn : hval).
Hypothesis Hwf : heap_wf h.
Hypothesis Hs : store h !! self = Some (OInst i).
Hypothesis Hcls : cls i = ClsAdaGrad.
Hypothesis HH : store h !! hyperparameters i = Some (OHyper H).
Hypothesis HC : store h !! cache i = Some (OCache c).
Hypothesis Heps : H !! "eps" = Some (HNum eps).
Hypothesis Hcn : H !! "clip_norm" = Some cn.
Hypothesis Hclip : clip g cn = Ret g'.
Hypothesis Hx : entry_array h c name g x.

Let lr := sched_call (lr_scheduler i) (cur_step i) loss.

Lemma AdaGrad_step :
  ∃ h' c' e,
    update self p g name loss h
    = (match iadd x (square g') with
       | Ret x' =>
           match broadcast fdiv (scalar_mul lr g')
                           (add_scalar (tsqrt x') eps) with
           | Ret u => broadcast fsub p u
           | Raise ex => Raise ex
           end
       | Raise ex => Raise ex
       end, h') ∧
    heap_wf h' ∧
    store h' !! self = Some (OInst i) ∧
    store h' !! hyperparameters i = Some (OHyper H) ∧
    store h' !! cache i = Some (OCache c') ∧
    c' !! name = Some e ∧
    store h' !! e = Some (OArr match iadd x (square g') with
                               | Ret x' => x'
                               | Raise _ => x
                               end) ∧
    (∀ k e0, c !! k = Some e0 → c' !! k = Some e0) ∧
    (∀ k, k ≠ name → c' !! k = c !! k) ∧
    (c !! name = None → store h !! e = None) ∧
    (∀ l, l < next h → l ≠ cache i → l ≠ e →
          store h' !! l = store h !! l).
Proof.
  pose proof (wf_lt _ _ _ Hwf Hs) as Hlt.
  pose proof (update_wf h self p g name loss Hwf Hlt) as Hwf'.
  revert Hwf'. rewrite (update_eq _ _ _ _ _ _ _ Hs), Hcls. simpl update_of.
  destruct (init_entry_facts h self i c name g x Hwf Hs HC Hx)
    as (h1 & c1 & e & Hinit & Hready & [Hfr Hkeep Hoth Hnext Hfresh] & Hx1).
  rewrite (AdaGrad_update_run h self i H p g name loss eps cn g' h1 c1 e x
             Hs HH Heps Hcn Hclip Hinit Hready Hx1).
  fold lr. destruct Hready as [Hs1 HC1 He1 ? ? ?].
  assert (e ≠ self) by congruence. assert (e ≠ cache i) by congruence.
  assert (self ≠ cache i) by congruence.
  assert (cache i ≠ hyperparameters i) by congruence.
  pose proof (wf_lt _ _ _ Hwf HH).
  assert (HH1 : store h1 !! hyperparameters i = Some (OHyper H))
    by (rewrite Hfr by done; done).
  assert (e ≠ hyperparameters i) by congruence.
  intros Hwf'. exists (match iadd x (square g') with
                       | Ret x' => hput e (OArr x') h1
                       | Raise _ => h1
                       end), c1, e.
  destruct (iadd x (square g')) as [x'|ex].
  - split; [done |]. split; [exact Hwf' |].
    split_and!; [heap_lookup | heap_lookup | heap_lookup | done
                 | heap_lookup | done | done | done |].
    intros l ? ? ?. rewrite lookup_hput_ne by done. by apply Hfr.
  - split; [done |]. split; [exact Hwf' |].
    split_and!; try done. intros l ? ? ?. by apply Hfr.
Qed.
End AdaGrad_step.

Section RMSProp_step.
Context (h : heap) (self : loc) (i : instance) (H : gmap string hval)
        (c : gmap string loc).
Context (p g g' x : tensor) (name : string) (loss : option fl)
        (eps decay : fl) (cn : hval).
Hypothesis Hwf : heap_wf h.
Hypothesis Hs : store h !! self = Some (OInst i).
Hypothesis Hcls : cls i = ClsRMSProp.
Hypothesis HH : store h !! hyperparameters i = Some (OHyper H).
Hypothesis HC : store h !! cache i = Some (OCache c).
Hypothesis Heps : H !! "eps" = Some (HNum eps).
Hypothesis Hdecay : H !! "decay" = Some (HNum decay).
Hypothesis Hcn : H !! "clip_norm" = Some cn.
Hypothesis Hclip : clip g cn = Ret g'.
Hypothesis Hx : entry_array h c name g x.

Let lr := sched_call (lr_scheduler i) (cur_step i) loss.
Let avg := broadcast fadd (scalar_mul decay x)
                     (scalar_mul (fsub (Fin 1) decay) (square g')).

Lemma RMSProp_step :
  ∃ h' c' e,
    update self p g name loss h
    = (match avg with
       | Ret x' =>
           match broadcast fdiv (scalar_mul lr g')
                           (add_scalar (tsqrt x') eps) with
           | Ret u => broadcast fsub p u
           | Raise ex => Raise ex
           end
       | Raise ex => Raise ex
       end, h') ∧
    heap_wf h' ∧
    store h' !! self = Some (OInst i) ∧
    store h' !! hyperparameters i = Some (OHyper H) ∧
    store h' !! cache i = Some (OCache c') ∧
    c' !! name = Some e ∧
    store h' !! e = Some (OArr match avg with
                               | Ret x' => x'
                               | Raise _ => x
                               end) ∧
    (∀ k, k ≠ name → c' !! k = c !! k) ∧
    (∀ l, l < next h → l ≠ cache i → store h' !! l = store h !! l).
Proof.
  pose proof (wf_lt _ _ _ Hwf Hs) as Hlt.
  pose proof (update_wf h self p g name loss Hwf Hlt) as Hwf'.
  revert Hwf'. rewrite (update_eq _ _ _ _ _ _ _ Hs), Hcls. simpl update_of.
  destruct (init_entry_facts h self i c name g x Hwf Hs HC Hx)
    as (h1 & c1 & e & Hinit & Hready & [Hfr Hkeep Hoth Hnext Hfresh] & Hx1).
  rewrite (RMSProp_update_run h self i H p g name loss eps decay cn g'
             h1 c1 e x Hs HH Heps Hdecay Hcn Hclip Hinit Hready Hx1).
  fold lr avg. destruct Hready as [Hs1 HC1 He1 ? ? ?].
  assert (e ≠ self) by congruence. assert (e ≠ cache i) by congruence.
  assert (self ≠ cache i) by congruence.
  assert (cache i ≠ hyperparameters i) by congruence.
  pose proof (wf_lt _ _ _ Hwf HH).
  assert (HH1 : store h1 !! hyperparameters i = Some (OHyper H))
    by (rewrite Hfr by done; done).
  destruct avg as [x'|ex].
  - intros Hwf'. eexists _, _, (next h1). split; [reflexivity |].
    split; [exact Hwf' |].
    split_and!; [heap_lookup | heap_lookup | heap_lookup
                 | apply lookup_insert_eq | heap_lookup | |].
    + intros k Hk. rewrite lookup_insert_ne by done. by apply Hoth.
    + intros l ? ?. rewrite lookup_hput_ne by done.
      rewrite lookup_halloc_ne by lia. by apply Hfr.
  - intros Hwf'. exists h1, c1, e. split; [done |]. split; [exact Hwf' |].
    split_and!; try done.
Qed.
End RMSProp_step.

Section Adam_step.
Context (h : heap) (self : loc) (i : instance) (H : gmap string hval)
        (c : gmap string loc).
Context (p g g' mx vx : tensor) (t0 : Z) (name : string) (loss : option fl)
        (d1 d2 eps : fl) (cn : hval).
Hypothesis Hwf : heap_wf h.
Hypothesis Hs : store h !! self = Some (OInst i).
Hypothesis Hcls : cls i = ClsAdam.
Hypothesis HH : store h !! hyperparameters i = Some (OHyper H).
Hypothesis HC : store h !! cache i = Some (OCache c).
Hypothesis Hd1 : H !! "decay1" = Some (HNum d1).
Hypothesis Hd2 : H !! "decay2" = Some (HNum d2).
Hypothesis Heps : H !! "eps" = Some (HNum eps).
Hypothesis Hcn : H !! "clip_norm" = Some cn.
Hypothesis Hclip : clip g cn = Ret g'.
Hypothesis Hx : entry_rec h c name g t0 mx vx.

Let lr := sched_call (lr_scheduler i) (cur_step i) loss.
Let t := (t0 + 1)%Z.
Let var := broadcast fadd (scalar_mul d2 vx)
                     (scalar_mul (fsub (Fin 1) d2) (square g')).
Let mean := broadcast fadd (scalar_mul d1 mx)
                      (scalar_mul (fsub (Fin 1) d1) g').

Lemma Adam_step :
  ∃ h' c' e ml vl,
    update self p g name loss h
    = (match var with
       | Raise ex => Raise ex
       | Ret var' =>
           match mean with
           | Raise ex => Raise ex
           | Ret mean' =>
               match py_pow d2 t with
               | Raise ex => Raise ex
               | Ret p2 =>
                   match py_pow d1 t with
                   | Raise ex => Raise ex
                   | Ret p1 =>
                       let v_hat := div_scalar var' (fsub (Fin 1) p2) in
                       let m_hat := div_scalar mean' (fsub (Fin 1) p1) in
                       match broadcast fdiv (scalar_mul lr m_hat)
                                       (add_scalar (tsqrt v_hat) eps) with
                       | Raise ex => Raise ex
                       | Ret u => broadcast fsub p u
                       end
                   end
               end
           end
       end, h') ∧
    heap_wf h' ∧
    store h' !! self = Some (OInst i) ∧
    store h' !! hyperparameters i = Some (OHyper H) ∧
    store h' !! cache i = Some (OCache c') ∧
    c' !! name = Some e ∧
    adam_ready h' e t ml vl
      match var, mean with
      | Ret _, Ret mean' => mean'
      | _, _ => mx
      end
      match var with
      | Ret var' => var'
      | Raise _ => vx
      end ∧
    (∀ k e0, c !! k = Some e0 → c' !! k = Some e0) ∧
    (∀ k, k ≠ name → c' !! k = c !! k) ∧
    (c !! name = None → store h !! e = None) ∧
    (∀ l, l < next h → l ≠ cache i → l ≠ e →
          store h' !! l = store h !! l) ∧
    next h ≤ next h'.
Proof.
  pose proof (wf_lt _ _ _ Hwf Hs) as Hlt.
  pose proof (update_wf h self p g name loss Hwf Hlt) as Hwf'.
  revert Hwf'. rewrite (update_eq _ _ _ _ _ _ _ Hs), Hcls. simpl update_of.
  destruct (Adam_init_entry_facts h self i c name g t0 mx vx Hwf Hs HC Hx)
    as (h1 & c1 & e & ml & vl & Hinit & Hready &
        [Hfr Hkeep Hoth Hnext Hfresh] & Hrec).
  rewrite (Adam_update_run h self i H p g name loss d1 d2 eps cn g' h1 c1 e
             t0 ml vl mx vx Hs HH Hd1 Hd2 Heps Hcn Hclip Hinit Hready Hrec).
  fold lr t var mean. destruct Hready as [Hs1 HC1 He1 ? ? ?].
  destruct Hrec as [Hr Hml Hvl ? ?].
  assert (e ≠ self) by congruence. assert (e ≠ cache i) by congruence.
  assert (self ≠ cache i) by congruence.
  assert (cache i ≠ hyperparameters i) by congruence.
  assert (e ≠ ml) by congruence. assert (e ≠ vl) by congruence.
  pose proof (wf_lt _ _ _ Hwf HH).
  assert (HH1 : store h1 !! hyperparameters i = Some (OHyper H))
    by (rewrite Hfr by done; done).
  assert (e ≠ hyperparameters i) by congruence.
  destruct var as [var'|ex]; [destruct mean as [mean'|ex] |].
  - intros Hwf'. eexists _, c1, e, _, _. split; [reflexivity |].
    split; [exact Hwf' |].
    split_and!; [heap_lookup | heap_lookup | heap_lookup | done | | done
                 | done | done | |].
    + split; [heap_lookup | heap_lookup | heap_lookup | heap_neq | heap_neq].
    + intros l ? ? ?. rewrite lookup_hput_ne by done.
      rewrite lookup_halloc_ne by (cbn [next hput halloc]; lia).
      rewrite lookup_hput_ne by done.
      rewrite lookup_halloc_ne by (cbn [next hput halloc]; lia).
      rewrite lookup_hput_ne by done. by apply Hfr.
    + cbn [next hput halloc]. lia.
  - intros Hwf'. eexists _, c1, e, _, _. split; [reflexivity |].
    split; [exact Hwf' |].
    split_and!; [heap_lookup | heap_lookup | heap_lookup | done | | done
                 | done | done | |].
    + split; [heap_lookup | heap_lookup | heap_lookup | heap_neq | heap_neq].
    + intros l ? ? ?. rewrite lookup_hput_ne by done.
      rewrite lookup_halloc_ne by (cbn [next hput halloc]; lia).
      rewrite lookup_hput_ne by done. by apply Hfr.
    + cbn [next hput halloc]. lia.
  - intros Hwf'. eexists _, c1, e, _, _. split; [reflexivity |].
    split; [exact Hwf' |].
    split_and!; [heap_lookup | heap_lookup | heap_lookup | done | | done
                 | done | done | |].
    + split; [heap_lookup | heap_lookup | heap_lookup | heap_neq | heap_neq].
    + intros l ? ? ?. rewrite lookup_hput_ne by done. by apply Hfr.
    + cbn [next hput halloc]. lia.
Qed.
End Adam_step.

(* ================================================================== *)
(** * Arithmetic on all-zero tensors *)

Section zeros.
Local Open Scope R_scope.
Implicit Types (n : nat).

Local Abbreviation zeros n := (replicate n (Fin 0)) (only parsing).

Lemma zeros_like_replicate x : zeros_like x = zeros (length x).
Proof. done. Qed.

Lemma zeros_like_zeros x : zeros_like (zeros_like x) = zeros (length x).
Proof. unfold zeros_like. by rewrite length_replicate. Qed.

Lemma scalar_mul_zeros s n : scalar_mul (Fin s) (zeros n) = zeros n.
Proof.
  unfold scalar_mul. rewrite fmap_replicate. simpl. by rewrite Rmult_0_r.
Qed.

Lemma square_zeros n : square (zeros n) = zeros n.
Proof. unfold square. rewrite fmap_replicate. simpl. by rewrite Rmult_0_r. Qed.

Lemma tsqrt_zeros n : tsqrt (zeros n) = zeros n.
Proof.
  unfold tsqrt. rewrite fmap_replicate.
  rewrite fsqrt_fin by lra. by rewrite sqrt_0.
Qed.

Lemma add_scalar_zeros n e : add_scalar (zeros n) (Fin e) = replicate n (Fin e).
Proof.
  unfold add_scalar. rewrite fmap_replicate. simpl. by rewrite Rplus_0_l.
Qed.

Lemma div_scalar_zeros n s : s ≠ 0 → div_scalar (zeros n) (Fin s) = zeros n.
Proof.
  intros Hs. unfold div_scalar. rewrite fmap_replicate.
  rewrite fdiv_fin by done. do 2 f_equal. by field.
Qed.

Lemma fadd_zeros n : zip_with fadd (zeros n) (zeros n) = zeros n.
Proof. rewrite zip_with_replicate. simpl. by rewrite Rplus_0_l. Qed.

Lemma fdiv_zeros n e :
  e ≠ 0 → zip_with fdiv (zeros n) (replicate n (Fin e)) = zeros n.
Proof.
  intros He. rewrite zip_with_replicate, fdiv_fin by done.
  do 2 f_equal. by field.
Qed.

Lemma fsub_zeros x : zip_with fsub x (zeros (length x)) = x.
Proof.
  induction x as [|a x IH]; [done |]. simpl. by rewrite fsub_zero, IH.
Qed.

Lemma broadcast_zeros f n :
  broadcast f (zeros n) (zeros n) = Ret (zip_with f (zeros n) (zeros n)).
Proof. by apply broadcast_same. Qed.

Lemma normR_zeros n : normR (replicate n 0) = 0.
Proof.
  unfold normR. replace (sum_sqR (replicate n 0)) with 0; [apply sqrt_0 |].
  induction n as [|n IH]; [done |].
  simpl replicate. rewrite sum_sqR_cons, <- IH. lra.
Qed.

Lemma clip_zeros n cn : valid_clip cn → clip (zeros n) cn = Ret (zeros n).
Proof.
  intros Hcn. replace (zeros n) with (of_reals (replicate n 0))
    by apply fmap_replicate.
  rewrite clip_of_reals by done. f_equal. f_equal.
  destruct cn as [|[c| | |]|]; try done. simpl.
  rewrite normR_zeros. simpl in Hcn.
  destruct (Rlt_dec c 0); [lra | done].
Qed.

Lemma py_pow_one d : py_pow (Fin d) 1 = Ret (Fin d).
Proof.
  unfold py_pow. rewrite decide_True by lia. simpl. by rewrite Rmult_1_r.
Qed.

Lemma fdiv_zero_zero x y : x = 0 → y = 0 → fdiv (Fin x) (Fin y) = NaN.
Proof.
  intros -> ->. simpl. destruct (Req_dec_T 0 0); [|done].
  unfold inf_scaled. destruct (Rlt_dec 0 0); [lra | done].
Qed.
End zeros.

(* ================================================================== *)
(** * C1 *)

Section zero_gradient.
Local Open Scope R_scope.

(** C1, amended. With hyperparameters that are finite, a [clip_norm]
    that is unset or not negative, an [eps] other than 0 and (for Adam)
    decay rates other than 1, and a finite learning rate: an update with
    an all-zero gradient of the shape of the parameter, for a name that
    is not in the cache, returns the parameter unchanged, for each of
    the four optimizers. *)
Theorem zero_gradient_returns_parameter
    (h : heap) (self : loc) (i : instance) (H : gmap string hval)
    (c : gmap string loc) (param : tensor) (name : string)
    (cur_loss : option fl) (lr : R) :
  heap_wf h →
  store h !! self = Some (OInst i) →
  store h !! hyperparameters i = Some (OHyper H) →
  store h !! cache i = Some (OCache c) →
  c !! name = None →
  nondegenerate (cls i) H →
  sched_call (lr_scheduler i) (cur_step i) cur_loss = Fin lr →
  (update self param (zeros_like param) name cur_loss h).1 = Ret param.
Proof.
  intros Hwf Hs HH HC Hn [(cn & Hcn & Hvalid) Hcls] Hlr.
  set (n := length param).
  assert (Hclip : clip (zeros_like param) cn = Ret (replicate n (Fin 0)))
    by (by apply clip_zeros).
  assert (Hlen : length (zeros_like param) = n)
    by apply length_replicate.
  destruct (cls i) eqn:Hc; [done | | | |].
  - (* SGD *)
    destruct Hcls as (m & Hm & _).
    destruct (SGD_step h self i H c param (zeros_like param) _
                (replicate n (Fin 0)) name cur_loss (Fin m) cn
                Hwf Hs Hc HH HC Hm Hcn Hclip)
      as (h' & c' & -> & _).
    { unfold entry_array. rewrite Hn. by rewrite zeros_like_zeros. }
    rewrite Hlr, !scalar_mul_zeros, broadcast_zeros, fadd_zeros.
    cbn [fst]. rewrite broadcast_same by (by rewrite length_replicate).
    by rewrite fsub_zeros.
  - (* AdaGrad *)
    destruct Hcls as (eps & Heps & Hne).
    destruct (AdaGrad_step h self i H c param (zeros_like param) _
                (replicate n (Fin 0)) name cur_loss (Fin eps) cn
                Hwf Hs Hc HH HC Heps Hcn Hclip)
      as (h' & c' & e & -> & _).
    { unfold entry_array. rewrite Hn. by rewrite zeros_like_zeros. }
    rewrite Hlr, square_zeros, iadd_same, fadd_zeros by done.
    rewrite scalar_mul_zeros, tsqrt_zeros, add_scalar_zeros.
    rewrite broadcast_same, fdiv_zeros by (by rewrite ?length_replicate).
    cbn [fst]. rewrite broadcast_same by (by rewrite length_replicate).
    by rewrite fsub_zeros.
  - (* RMSProp *)
    destruct Hcls as [(eps & Heps & Hne) (d & Hd & _)].
    destruct (RMSProp_step h self i H c param (zeros_like param) _
                (replicate n (Fin 0)) name cur_loss (Fin eps) (Fin d) cn
                Hwf Hs Hc HH HC Heps Hd Hcn Hclip)
      as (h' & c' & e & -> & _).
    { unfold entry_array. rewrite Hn. by rewrite zeros_like_zeros. }
    rewrite Hlr, square_zeros. cbn [fsub fopp fadd].
    rewrite !scalar_mul_zeros, broadcast_zeros, fadd_zeros.
    rewrite tsqrt_zeros, add_scalar_zeros.
    rewrite broadcast_same, fdiv_zeros by (by rewrite ?length_replicate).
    cbn [fst]. rewrite broadcast_same by (by rewrite length_replicate).
    by rewrite fsub_zeros.
  - (* Adam *)
    destruct Hcls as ((eps & Heps & Hne) & (d1 & Hd1 & Hne1) & (d2 & Hd2 & Hne2)).
    destruct (Adam_step h self i H c param (zeros_like param) _
                (replicate n (Fin 0)) (replicate n (Fin 0)) 0 name cur_loss
                (Fin d1) (Fin d2) (Fin eps) cn
                Hwf Hs Hc HH HC Hd1 Hd2 Heps Hcn Hclip)
      as (h' & c' & e & ml & vl & -> & _).
    { unfold entry_rec. rewrite Hn. by rewrite zeros_like_zeros. }
    rewrite Hlr, square_zeros. cbn [fsub fopp fadd].
    rewrite !scalar_mul_zeros, broadcast_zeros, fadd_zeros.
    change (0 + 1)%Z with 1%Z. rewrite !py_pow_one. cbv zeta.
    cbn [fsub fopp fadd].
    rewrite !div_scalar_zeros by lra.
    rewrite scalar_mul_zeros, tsqrt_zeros, add_scalar_zeros.
    rewrite broadcast_same, fdiv_zeros by (by rewrite ?length_replicate).
    cbn [fst]. rewrite broadcast_same by (by rewrite length_replicate).
    by rewrite fsub_zeros.
Qed.

(** C1 as stated fails: AdaGrad built with [eps = 0] divides zero by
    zero, and returns NaN where the parameter was 1. *)
Lemma zero_gradient_nan_when_eps_is_zero :
  let s0 := AdaGrad.__init__ (SI := constant_factory)
              (Fin 0.01) (Fin 0) HNone HNone empty_heap in
  s0.1 = Ret 2%nat ∧
  (update 2%nat [Fin 1] [Fin 0] "w" None s0.2).1 = Ret [NaN] ∧
  (update 2%nat [Fin 1] [Fin 0] "w" None s0.2).1 ≠ Ret [Fin 1].
Proof.
  destruct (AdaGrad_init_run (SI := constant_factory) empty_heap
              heap_wf_empty (Fin 0.01) (Fin 0) HNone HNone)
    as (h0 & Hinit & [Hwf0 (i & Hs & Hcls & Hstep & Hsched & HH & HC)]).
  cbn zeta. rewrite Hinit. cbn [fst snd]. split; [done |].
  destruct (AdaGrad_step h0 2%nat i _ ∅ [Fin 1] [Fin 0] [Fin 0] [Fin 0] "w"
              None (Fin 0) HNone Hwf0 Hs Hcls HH HC eq_refl eq_refl
              (clip_unset _) eq_refl)
    as (h' & c' & e & Hrun & _).
  rewrite Hrun, Hsched. cbn [fst]. 
  rewrite iadd_same by done.
  cbn [square zip_with fmap list_fmap fmul fadd tsqrt add_scalar scalar_mul
       sched_call constant_factory resolve_scheduler constant_scheduler
       default from_option Datatypes.id].
  rewrite fsqrt_fin by lra. rewrite broadcast_same by done.
  cbn [zip_with fadd]. rewrite fdiv_zero_zero; cycle 1.
  { lra. }
  { replace (0 + 0 * 0) with 0 by lra. rewrite sqrt_0. lra. }
  by rewrite broadcast_same by done.
Qed.
End zero_gradient.

(* ================================================================== *)
(** * Shapes *)

Lemma length_scalar_mul s x : length (scalar_mul s x) = length x.
Proof. apply length_fmap. Qed.
Lemma length_div_scalar x s : length (div_scalar x s) = length x.
Proof. apply length_fmap. Qed.
Lemma length_add_scalar x s : length (add_scalar x s) = length x.
Proof. apply length_fmap. Qed.
Lemma length_square x : length (square x) = length x.
Proof. apply length_fmap. Qed.
Lemma length_tsqrt x : length (tsqrt x) = length x.
Proof. apply length_fmap. Qed.
Lemma length_zeros_like x : length (zeros_like x) = length x.
Proof. apply length_replicate. Qed.

Create Rewrite HintDb shape.
#[export] Hint Rewrite length_scalar_mul length_div_scalar length_add_scalar
  length_square length_tsqrt length_zeros_like : shape.

Ltac shape := autorewrite with shape; try congruence.

Lemma broadcast_ret_length f x y :
  length x = length y →
  ∃ r, broadcast f x y = Ret r ∧ length r = length x.
Proof.
  intros Hl. exists (zip_with f x y). split; [by apply broadcast_same |].
  by apply length_zip_with_l_eq.
Qed.

Lemma iadd_ret_length x y :
  length x = length y → ∃ r, iadd x y = Ret r ∧ length r = length x.
Proof.
  intros Hl. exists (zip_with fadd x y). split; [by apply iadd_same |].
  by apply length_zip_with_l_eq.
Qed.


(** The last line of every update, [param - update]. *)
Lemma final_sub_shape p u n :
  length u = n →
  (¬ compatible (length p) n → broadcast fsub p u = Raise ValueError) ∧
  (compatible (length p) n → ∃ r, broadcast fsub p u = Ret r).
Proof.
  intros <-. split; [apply broadcast_incompatible | apply broadcast_compatible].
Qed.



(* ================================================================== *)
(** * C2 *)

Section shapes.
Context (h : heap) (self : loc) (i : instance) (H : gmap string hval)
        (c : gmap string loc).
Context (param param_grad : tensor) (name : string) (cur_loss : option fl).
Hypothesis Hwf : heap_wf h.
Hypothesis Hs : store h !! self = Some (OInst i).
Hypothesis HH : store h !! hyperparameters i = Some (OHyper H).
Hypothesis HC : store h !! cache i = Some (OCache c).
Hypothesis Htyped : well_typed (cls i) H.

Let out := (update self param param_grad name cur_loss h).1.

Lemma fresh_name_shapes :
  c !! name = None →
  (¬ compatible (length param) (length param_grad) →
     out = Raise ValueError) ∧
  (compatible (length param) (length param_grad) → ∃ r, out = Ret r).
Proof.
  intros Hn. destruct Htyped as [(cn & Hcn & Hcn') Hcls].
  destruct (clip_ret param_grad cn Hcn') as [g' Hclip].
  pose proof (clip_length _ _ _ Hclip) as Hg'.
  unfold out. destruct (cls i) eqn:Hc; [done | | | |].
  - destruct Hcls as [m Hm].
    destruct (SGD_step h self i H c param param_grad g' (zeros_like param_grad)
                name cur_loss m cn Hwf Hs Hc HH HC Hm Hcn Hclip)
      as (h' & c' & -> & _); [unfold entry_array; by rewrite Hn |].
    cbn [fst].
    edestruct broadcast_ret_length as (u & -> & Hu); [|apply final_sub_shape].
    + shape.
    + rewrite Hu. shape.
  - destruct Hcls as [eps Heps].
    destruct (AdaGrad_step h self i H c param param_grad g'
                (zeros_like param_grad) name cur_loss eps cn
                Hwf Hs Hc HH HC Heps Hcn Hclip)
      as (h' & c' & e & -> & _); [unfold entry_array; by rewrite Hn |].
    cbn [fst].
    edestruct iadd_ret_length as (x' & -> & Hx'); [shape |].
    edestruct broadcast_ret_length as (u & -> & Hu);
      [|apply final_sub_shape].
    + shape. rewrite Hx'. shape.
    + rewrite Hu. shape.
  - destruct Hcls as [[eps Heps] [d Hd]].
    destruct (RMSProp_step h self i H c param param_grad g'
                (zeros_like param_grad) name cur_loss eps d cn
                Hwf Hs Hc HH HC Heps Hd Hcn Hclip)
      as (h' & c' & e & -> & _); [unfold entry_array; by rewrite Hn |].
    cbn [fst].
    edestruct broadcast_ret_length as (x' & -> & Hx'); [shape |].
    edestruct broadcast_ret_length as (u & -> & Hu);
      [|apply final_sub_shape].
    + shape. rewrite Hx'. shape.
    + rewrite Hu. shape.
  - destruct Hcls as ([eps Heps] & [d1 Hd1] & [d2 Hd2]).
    destruct (Adam_step h self i H c param param_grad g'
                (zeros_like param_grad) (zeros_like param_grad) 0
                name cur_loss d1 d2 eps cn
                Hwf Hs Hc HH HC Hd1 Hd2 Heps Hcn Hclip)
      as (h' & c' & e & ml & vl & -> & _);
      [unfold entry_rec; by rewrite Hn |].
    cbn [fst].
    edestruct broadcast_ret_length as (var' & -> & Hvar); [shape |].
    edestruct broadcast_ret_length as (mean' & -> & Hmean); [shape |].
    change (0 + 1)%Z with 1%Z. unfold py_pow.
    rewrite !decide_True by lia. cbv zeta.
    edestruct broadcast_ret_length as (u & -> & Hu);
      [|apply final_sub_shape].
    + shape. rewrite Hvar, Hmean. shape.
    + rewrite Hu. shape. rewrite Hmean. shape.
Qed.



End shapes.

Section shapes_counterexample.
Local Open Scope R_scope.

End shapes_counterexample.

(* ================================================================== *)
(** * C3 *)

Section bind_ext.
Context {A B : Type}.


Lemma bind_ext_l (m m' : Py A) (k : A → Py B) h :
  m h = m' h → (m ≫= k) h = (m' ≫= k) h.
Proof. intros Hm. by rewrite !bind_unfold, Hm. Qed.
End bind_ext.





Section clipped_gradient_is_used.
Context (h : heap) (self : loc) (i : instance) (H : gmap string hval).
Context (cn : hval) (g g2 : tensor).
Context (p : tensor) (name : string) (loss : option fl).
Hypothesis Hs : store h !! self = Some (OInst i).
Hypothesis HH : store h !! hyperparameters i = Some (OHyper H).
Hypothesis Hcn : H !! "clip_norm" = Some cn.
Hypothesis Hlen : length g = length g2.
Hypothesis Hclip : clip g cn = clip g2 cn.

End clipped_gradient_is_used.

Section clipping.
Local Open Scope R_scope.


End clipping.

(* ================================================================== *)
(** * Sequences of calls *)

Section runs.
Context `{SI : SchedulerInitializer} (self : loc).

Lemma exec_ret c h : (exec self c h).1 = Ret ().
Proof. by destruct c. Qed.


Lemma run_cons c cs h : run self (c :: cs) h = run self cs (exec self c h).2.
Proof.
  unfold run. simpl for_each. rewrite bind_unfold, exec_ret. done.
Qed.


Lemma exec_update p g n l h :
  (exec self (CallUpdate p g n l) h).2 = (update self p g n l h).2.
Proof. done. Qed.

Lemma exec_wf c h : heap_wf h → self < next h → heap_wf (exec self c h).2.
Proof.
  intros Hwf Hs. eapply safe_wf; [done |].
  apply safe_exec. unfold good. lia.
Qed.
End runs.

Lemma step_eq h self i :
  store h !! self = Some (OInst i) →
  OptimizerBase.step self h
  = (Ret (), hput self (OInst {| cls := cls i; cache := cache i;
                                 cur_step := cur_step i + 1;
                                 hyperparameters := hyperparameters i;
                                 lr_scheduler := lr_scheduler i |}) h).
Proof. intros Hs. unfold OptimizerBase.step. by py_step get_inst_eq. Qed.

Lemma reset_step_eq h self i :
  store h !! self = Some (OInst i) →
  OptimizerBase.reset_step self h
  = (Ret (), hput self (OInst {| cls := cls i; cache := cache i;
                                 cur_step := 0;
                                 hyperparameters := hyperparameters i;
                                 lr_scheduler := lr_scheduler i |}) h).
Proof. intros Hs. unfold OptimizerBase.reset_step. by py_step get_inst_eq. Qed.

Section optimizer_at.
Context `{SI : SchedulerInitializer}.
Context (self : loc) (k : opt_class) (C Hl : loc) (H : gmap string hval).

Lemma optimizer_at_cached h c name :
  optimizer_at self k C Hl H h c →
  cached h self name = c !! name ≫= entry_view (store h).
Proof.
  intros (Hwf & (i & Hs & Hk & <- & <-) & HH & HC).
  unfold cached, snapshot_of. rewrite Hs, HC, HH. simpl.
  rewrite lookup_fmap. destruct (c !! name) as [e|]; [|done]. simpl.
  by destruct (entry_view _ _).
Qed.

Lemma optimizer_at_lt h c :
  optimizer_at self k C Hl H h c → self < next h.
Proof. intros (Hwf & (i & Hs & _) & _). by eapply wf_lt. Qed.

(** [step] and [reset_step] replace the instance, and nothing else. *)
Lemma optimizer_at_steps h c call :
  optimizer_at self k C Hl H h c →
  call = CallStep ∨ call = CallResetStep →
  optimizer_at self k C Hl H (exec self call h).2 c ∧
  ∀ l, l ≠ self → store (exec self call h).2 !! l = store h !! l.
Proof.
  intros Hat Hcall. pose proof (optimizer_at_lt _ _ Hat) as Hlt.
  destruct Hat as (Hwf & (i & Hs & Hk & HC' & HH') & HH & HC).
  pose proof (exec_wf self call h Hwf Hlt) as Hwf'.
  assert (self ≠ C) by congruence. assert (self ≠ Hl) by congruence.
  destruct Hcall as [-> | ->]; simpl in *; unfold attempt in *.
  - rewrite (step_eq _ _ _ Hs) in *. cbn [snd] in *.
    split; [|intros l ?; by rewrite lookup_hput_ne].
    split_and!; [done | | by rewrite lookup_hput_ne
                 | by rewrite lookup_hput_ne].
    eexists. split; [apply lookup_hput_eq | done].
  - rewrite (reset_step_eq _ _ _ Hs) in *. cbn [snd] in *.
    split; [|intros l ?; by rewrite lookup_hput_ne].
    split_and!; [done | | by rewrite lookup_hput_ne
                 | by rewrite lookup_hput_ne].
    eexists. split; [apply lookup_hput_eq | done].
Qed.
End optimizer_at.

(* ================================================================== *)
(** * Finite tensors *)

Section finite.
Local Open Scope R_scope.






End finite.

(* ================================================================== *)
(** * C5 *)

Section AdaGrad_monotone.
Context `{SI : SchedulerInitializer}.
Context (self C Hl : loc) (H : gmap string hval) (eps : fl) (cn : hval).
Hypothesis Heps : H !! "eps" = Some (HNum eps).
Hypothesis Hcn : H !! "clip_norm" = Some cn.
Hypothesis Hvalid : valid_clip cn.



End AdaGrad_monotone.

(* ================================================================== *)
(** * C6 *)

Section bounds.
Local Open Scope R_scope.








End bounds.

Section RMSProp_bounded.
Context `{SI : SchedulerInitializer}.
Context (self C Hl : loc) (H : gmap string hval) (d : R) (eps : fl) (cn : hval).
Hypothesis Hdecay : H !! "decay" = Some (HNum (Fin d)).
Hypothesis Hd : (0 <= d <= 1)%R.
Hypothesis Heps : H !! "eps" = Some (HNum eps).
Hypothesis Hcn : H !! "clip_norm" = Some cn.
Hypothesis Hvalid : valid_clip cn.


Context (name : string) (n : nat).




End RMSProp_bounded.

(* ================================================================== *)
(** * C4 *)

Section Adam_counter.
Context `{SI : SchedulerInitializer}.
Context (self C Hl : loc) (H : gmap string hval).
Hypothesis Htyped : well_typed ClsAdam H.

Lemma counter_cached h c name :
  optimizer_at self ClsAdam C Hl H h c →
  adam_entries h c →
  cached_t h self name = counter h c name.
Proof.
  intros Hat [Hrec _]. unfold cached_t, counter.
  rewrite (optimizer_at_cached _ _ _ _ _ _ _ _ Hat).
  destruct (c !! name) as [e|] eqn:Hn; [|done]. simpl.
  destruct (Hrec name e Hn) as (t & ml & vl & mx & vx & [Hr Hm Hv _ _]).
  unfold entry_view. by rewrite Hr, Hm, Hv.
Qed.

(** One [update] of [k] adds one to the counter of [k] and leaves the
    counters of the other names as they were. *)
Lemma Adam_update_counts h c p g k l :
  optimizer_at self ClsAdam C Hl H h c →
  adam_entries h c →
  ∃ c',
    optimizer_at self ClsAdam C Hl H (update self p g k l h).2 c' ∧
    adam_entries (update self p g k l h).2 c' ∧
    counter (update self p g k l h).2 c' k
    = Some (default 0 (counter h c k) + 1)%Z ∧
    ∀ k', k' ≠ k → counter (update self p g k l h).2 c' k' = counter h c k'.
Proof.
  intros (Hwf & (i & Hs & Hk & HC' & HH') & HH & HC) [Hrec Hinj].
  subst C Hl.
  destruct Htyped as [(cn & Hcn & Hstr) ([eps Heps] & [d1 Hd1] & [d2 Hd2])].
  destruct (clip_ret g cn Hstr) as [g' Hclip].
  assert (∃ t0 mx vx, entry_rec h c k g t0 mx vx ∧
                      default 0%Z (counter h c k) = t0)
    as (t0 & mx & vx & Hx & Ht0).
  { unfold entry_rec, counter. destruct (c !! k) as [e|] eqn:Hn.
    - destruct (Hrec k e Hn) as (t & ml & vl & mx & vx & Har).
      exists t, mx, vx. split; [eauto |]. simpl.
      by rewrite (ar_rec _ _ _ _ _ _ _ Har).
    - by exists 0%Z, (zeros_like g), (zeros_like g). }
  destruct (Adam_step h self i H c p g g' mx vx t0 k l d1 d2 eps cn
              Hwf Hs Hk HH HC Hd1 Hd2 Heps Hcn Hclip Hx)
    as (h' & c' & e & ml & vl & Hrun & Hwf' & Hs' & HH'' & HC'' & He & Har &
        Hkeep & Hoth & Hfresh & Hfr & Hnext).
  rewrite Hrun. cbn [snd].
  (* an entry of another name is not the one updated *)
  assert (Hne : ∀ k' e', k' ≠ k → c !! k' = Some e' → e' ≠ e).
  { intros k' e' Hk' Hn' ->. destruct (c !! k) as [e0|] eqn:Hn.
    - pose proof (Hkeep _ _ Hn) as Hn0.
      assert (e0 = e) as -> by congruence. by apply Hk', (Hinj k' k e).
    - destruct (Hrec k' e Hn') as (? & ? & ? & ? & ? & [Hr _ _ _ _]).
      rewrite (Hfresh eq_refl) in Hr. done. }
  (* what the heap held at [e] was no array *)
  assert (Hnarr : ∀ x, store h !! e ≠ Some (OArr x)).
  { intros x Hxe. destruct (c !! k) as [e0|] eqn:Hn.
    - pose proof (Hkeep _ _ Hn) as Hn0.
      assert (e0 = e) as -> by congruence.
      destruct (Hrec k e Hn) as (? & ? & ? & ? & ? & [Hr _ _ _ _]).
      congruence.
    - rewrite (Hfresh eq_refl) in Hxe. done. }
  assert (Hsame : ∀ k' e' t m v mx' vx', k' ≠ k → c !! k' = Some e' →
            adam_ready h e' t m v mx' vx' → adam_ready h' e' t m v mx' vx').
  { intros k' e' t m v mx' vx' Hk' Hn' [Hr Hm Hv Hml Hvl].
    split; [| | | lia | lia].
    - rewrite Hfr; [done | by eapply wf_lt | congruence | by eapply Hne].
    - rewrite Hfr; [done | done | congruence |]. intros ->. by eapply Hnarr.
    - rewrite Hfr; [done | done | congruence |]. intros ->. by eapply Hnarr. }
  exists c'. split_and!.
  - by split_and!; [| exists i | |].
  - split.
    + intros k' e' Hn'. destruct (decide (k' = k)) as [->|Hk'].
      * assert (e' = e) as -> by congruence. eauto 10.
      * rewrite Hoth in Hn' by done.
        destruct (Hrec k' e' Hn') as (t & m & v & mx' & vx' & Har').
        exists t, m, v, mx', vx'. by eapply Hsame.
    + intros k1 k2 e' H1 H2.
      destruct (decide (k1 = k)) as [->|Hk1], (decide (k2 = k)) as [->|Hk2];
        try done.
      * assert (e' = e) as -> by congruence. rewrite Hoth in H2 by done.
        by destruct (Hne k2 e Hk2 H2).
      * assert (e' = e) as -> by congruence. rewrite Hoth in H1 by done.
        by destruct (Hne k1 e Hk1 H1).
      * rewrite Hoth in H1, H2 by done. by eapply Hinj.
  - unfold counter at 1. rewrite He. simpl.
    rewrite (ar_rec _ _ _ _ _ _ _ Har). by rewrite Ht0.
  - intros k' Hk'. unfold counter. rewrite Hoth by done.
    destruct (c !! k') as [e'|] eqn:Hn'; [|done]. simpl.
    destruct (Hrec k' e' Hn') as (t & m & v & mx' & vx' & Har').
    rewrite (ar_rec _ _ _ _ _ _ _ Har').
    by rewrite (ar_rec _ _ _ _ _ _ _ (Hsame _ _ _ _ _ _ _ Hk' Hn' Har')).
Qed.

Lemma Adam_steps_keep_counters h c call :
  optimizer_at self ClsAdam C Hl H h c →
  adam_entries h c →
  call = CallStep ∨ call = CallResetStep →
  optimizer_at self ClsAdam C Hl H (exec self call h).2 c ∧
  adam_entries (exec self call h).2 c ∧
  ∀ k, counter (exec self call h).2 c k = counter h c k.
Proof.
  intros Hat [Hrec Hinj] Hcall.
  destruct (optimizer_at_steps self _ C Hl H h c call Hat Hcall)
    as [Hat1 Hfr].
  pose proof (optimizer_at_lt _ _ _ _ _ _ _ Hat) as Hlt.
  destruct Hat as (Hwf & (i & Hs & _) & _).
  assert (Hsame : ∀ e t m v mx vx,
            adam_ready h e t m v mx vx →
            adam_ready (exec self call h).2 e t m v mx vx).
  { intros e t m v mx vx [Hr Hm Hv Hml Hvl].
    pose proof (optimizer_at_lt _ _ _ _ _ _ _ Hat1) as Hlt1.
    destruct Hat1 as (Hwf1 & _).
    split.
    - rewrite Hfr; [done | congruence].
    - rewrite Hfr; [done | congruence].
    - rewrite Hfr; [done | congruence].
    - eapply wf_lt; [exact Hwf1 |]. rewrite Hfr; [done | congruence].
    - eapply wf_lt; [exact Hwf1 |]. rewrite Hfr; [done | congruence]. }
  split_and!; [done | |].
  - split; [|done]. intros k e Hn.
    destruct (Hrec k e Hn) as (t & m & v & mx & vx & Har). eauto 10.
  - intros k. unfold counter. destruct (c !! k) as [e|] eqn:Hn; [|done].
    simpl. destruct (Hrec k e Hn) as (t & m & v & mx & vx & Har).
    rewrite (ar_rec _ _ _ _ _ _ _ Har).
    by rewrite (ar_rec _ _ _ _ _ _ _ (Hsame _ _ _ _ _ _ Har)).
Qed.

Lemma Adam_run_counts cs h c name :
  optimizer_at self ClsAdam C Hl H h c →
  adam_entries h c →
  Forall (λ c, is_set_params c = false) cs →
  ∃ c',
    optimizer_at self ClsAdam C Hl H (run self cs h).2 c' ∧
    adam_entries (run self cs h).2 c' ∧
    counter (run self cs h).2 c' name
    = match length (grads_of name cs) with
      | 0 => counter h c name
      | S n => Some (default 0 (counter h c name) + Z.of_nat (S n))%Z
      end.
Proof.
  revert h c. induction cs as [|call cs IH]; intros h c Hat Hent Hns.
  - by exists c.
  - rewrite run_cons. apply Forall_cons in Hns as [Hn1 Hns].
    destruct call as [p g k l| | |]; [| | |done].
    + rewrite exec_update. simpl grads_of.
      destruct (Adam_update_counts h c p g k l Hat Hent)
        as (c1 & Hat1 & Hent1 & Hk & Hoth).
      destruct (IH _ c1 Hat1 Hent1 Hns) as (c' & Hat' & Hent' & Hcount).
      exists c'. split_and!; [done | done |]. rewrite Hcount.
      destruct (decide (k = name)) as [->|Hne].
      * rewrite Hk. simpl length.
        destruct (length (grads_of name cs)); simpl default; f_equal; lia.
      * by rewrite Hoth.
    + destruct (Adam_steps_keep_counters h c CallStep Hat Hent)
        as (Hat1 & Hent1 & Hsame); [by left |].
      destruct (IH _ c Hat1 Hent1 Hns) as (c' & Hat' & Hent' & Hcount).
      exists c'. split_and!; [done | done |]. by rewrite Hcount, Hsame.
    + destruct (Adam_steps_keep_counters h c CallResetStep Hat Hent)
        as (Hat1 & Hent1 & Hsame); [by right |].
      destruct (IH _ c Hat1 Hent1 Hns) as (c' & Hat' & Hent' & Hcount).
      exists c'. split_and!; [done | done |]. by rewrite Hcount, Hsame.
Qed.

(** C4. Adam's counter [t] of a name counts the updates of that name:
    after any calls of [update], [step] and [reset_step] on an
    optimizer whose cache was empty, the counter cached for [name] is
    the number of [update] calls made for [name] (there is no entry
    before the first one), whatever was done for other names and
    whatever [cur_step] is. *)
Theorem Adam_counter_counts_updates (h : heap) (cs : list call)
    (name : string) :
  optimizer_at self ClsAdam C Hl H h ∅ →
  Forall (λ c, is_set_params c = false) cs →
  cached_t (run self cs h).2 self name
  = match length (grads_of name cs) with
    | 0 => None
    | S n => Some (Z.of_nat (S n))
    end.
Proof.
  intros Hat Hns.
  assert (Hent : adam_entries h ∅) by (split; intros *; by rewrite lookup_empty).
  destruct (Adam_run_counts cs h ∅ name Hat Hent Hns)
    as (c' & Hat' & Hent' & Hcount).
  rewrite (counter_cached _ _ _ Hat' Hent'), Hcount.
  unfold counter. rewrite lookup_empty. simpl.
  destruct (length (grads_of name cs)); try done; f_equal; lia.
Qed.
End Adam_counter.

(* ================================================================== *)
(** * Examples *)

Section constructors_wf.
Context `{SI : SchedulerInitializer} (h : heap).
Hypothesis Hwf : heap_wf h.

Lemma SGD_init_wf lr m cn sch : heap_wf (SGD.__init__ lr m cn sch h).2.
Proof. by destruct (SGD_init_run h Hwf lr m cn sch) as (h' & -> & [? _]). Qed.

Lemma AdaGrad_init_wf lr eps cn sch :
  heap_wf (AdaGrad.__init__ lr eps cn sch h).2.
Proof.
  by destruct (AdaGrad_init_run h Hwf lr eps cn sch) as (h' & -> & [? _]).
Qed.

Lemma RMSProp_init_wf lr d eps cn sch :
  heap_wf (RMSProp.__init__ lr d eps cn sch h).2.
Proof.
  by destruct (RMSProp_init_run h Hwf lr d eps cn sch) as (h' & -> & [? _]).
Qed.

Lemma Adam_init_wf lr d1 d2 eps cn sch :
  heap_wf (Adam.__init__ lr d1 d2 eps cn sch h).2.
Proof.
  by destruct (Adam_init_run h Hwf lr d1 d2 eps cn sch) as (h' & -> & [? _]).
Qed.
End constructors_wf.

Lemma sgd0_wf : heap_wf sgd0.
Proof. apply SGD_init_wf, heap_wf_empty. Qed.

Lemma adagrad0_wf : heap_wf adagrad0.
Proof. apply AdaGrad_init_wf, heap_wf_empty. Qed.

Lemma rmsprop0_wf : heap_wf rmsprop0.
Proof. apply RMSProp_init_wf, heap_wf_empty. Qed.

Lemma adam0_wf : heap_wf adam0.
Proof. apply Adam_init_wf, heap_wf_empty. Qed.

(** Reading a concrete heap. *)
Ltac read_heap := vm_compute; reflexivity.

(** C1 at work: a fresh Adam given a zero gradient for ["w"] returns the
    parameter. *)
Lemma zero_gradient_returns_parameter_witness :
  (update 2 [Fin 1; Fin 2] (zeros_like [Fin 1; Fin 2]) "w" None adam0).1
  = Ret [Fin 1; Fin 2].
Proof.
  eapply (zero_gradient_returns_parameter adam0 2 _ _ _ _ "w" None 0.001).
  - exact adam0_wf.
  - read_heap.
  - read_heap.
  - read_heap.
  - read_heap.
  - split; [exists HNone; split; [read_heap | done] |].
    split_and!.
    + exists 0.5%R. split; [read_heap | lra].
    + exists 0.9%R. split; [read_heap | lra].
    + exists 0.999%R. split; [read_heap | lra].
  - read_heap.
Defined.



(** The hyperparameters the example optimizers were built with. *)
Ltac read_optimizer wf :=
  split; [exact wf |];
  split; [eexists; split_and!; read_heap |];
  split; read_heap.

(** C4 at work: after two updates of ["w"], one of ["b"] and a [step],
    the counter of ["w"] is 2. *)
Lemma Adam_counter_counts_updates_witness :
  cached_t
    (run (SI := constant_factory) 2
         [CallUpdate [Fin 1] [Fin 2] "w" None;
          CallUpdate [Fin 1] [Fin 3] "b" None;
          CallStep;
          CallUpdate [Fin 1] [Fin 2] "w" None] adam0).2 2 "w"
  = Some 2%Z.
Proof.
  refine (Adam_counter_counts_updates (SI := constant_factory) 2 3 4 _ _
            adam0 _ "w" _ _); cycle 1.
  - read_optimizer adam0_wf.
  - repeat constructor.
  - split; [eexists; split; [read_heap | done] |].
    split_and!; eexists; read_heap.
Defined.


(** C7 at work: [set_params({"lr": 0.5, "bogus": 1})] on SGD sets [lr],
    keeps [momentum] and adds no key [bogus]. *)
Lemma set_params_overwrites_existing_keys_witness :
  ∃ h' H',
    OptimizerBase.set_params (SI := constant_factory) 2
      (Some (<["lr" := HNum (Fin 0.5)]> (<["bogus" := HNum (Fin 1)]> ∅)))
      None sgd0 = (Ret (), h') ∧
    store h' !! 3 = Some (OHyper H') ∧
    H' !! "lr" = Some (HNum (Fin 0.5)) ∧
    H' !! "momentum" = Some (HNum (Fin 0.9)) ∧
    H' !! "bogus" = None.
Proof.
  destruct (set_params_overwrites_existing_keys (SI := constant_factory)
              sgd0 2 sgd0_instance sgd0_hyperparameters ∅
              (Some (<["lr" := HNum (Fin 0.5)]>
                       (<["bogus" := HNum (Fin 1)]> ∅)))
              None)
    as (h' & i' & H' & c' & Hrun & _ & _ & _ & _ & _ & HH' & _ & Hk & _).
  - read_heap.
  - read_heap.
  - read_heap.
  - exists h', H'. split_and!; [done | done | | |].
    + rewrite (Hk "lr"). read_heap.
    + rewrite (Hk "momentum"). read_heap.
    + rewrite (Hk "bogus"). read_heap.
Defined.



(** C10 at work: calling an SGD instance is [SGD.update]. *)
Lemma call_is_update_witness :
  __call__ 2 [Fin 1] [Fin 2] "w" None sgd0
  = SGD.update 2 [Fin 1] [Fin 2] "w" None sgd0.
Proof.
  refine (call_is_update sgd0 2 sgd0_instance [Fin 1] [Fin 2] "w" None _).
  read_heap.
Defined.



(* ================================================================== *)
(** * The update equations *)

Section real_tensors.
Local Open Scope R_scope.




Lemma of_reals_inj x y : of_reals x = of_reals y → x = y.
Proof.
  revert y. induction x as [|a x IH]; intros [|b y]; try done.
  intros [= -> Hxy]. f_equal. by apply IH.
Qed.

End real_tensors.

Section SGD_equation.
Local Open Scope R_scope.
Context (h : heap) (self : loc) (i : instance) (H : gmap string hval)
        (c : gmap string loc).
Context (momentum lr : R) (cn : hval) (p g v : list R) (name : string)
        (loss : option fl).
Hypothesis Hwf : heap_wf h.
Hypothesis Hs : store h !! self = Some (OInst i).
Hypothesis Hcls : cls i = ClsSGD.
Hypothesis HH : store h !! hyperparameters i = Some (OHyper H).
Hypothesis HC : store h !! cache i = Some (OCache c).
Hypothesis Hm : H !! "momentum" = Some (HNum (Fin momentum)).
Hypothesis Hcn : H !! "clip_norm" = Some cn.
Hypothesis Hvalid : valid_clip cn.
Hypothesis Hlr : sched_call (lr_scheduler i) (cur_step i) loss = Fin lr.
Hypothesis Hv : entry_array h c name (of_reals g) (of_reals v).
Hypothesis Hlv : length v = length g.
Hypothesis Hlp : length p = length g.

End SGD_equation.

Section adaptive.
Local Open Scope R_scope.








End adaptive.

Section AdaGrad_equation.
Local Open Scope R_scope.
Context (h : heap) (self : loc) (i : instance) (H : gmap string hval)
        (c : gmap string loc).
Context (lr eps : R) (cn : hval) (p g s : list R) (name : string)
        (loss : option fl).
Hypothesis Hwf : heap_wf h.
Hypothesis Hs : store h !! self = Some (OInst i).
Hypothesis Hcls : cls i = ClsAdaGrad.
Hypothesis HH : store h !! hyperparameters i = Some (OHyper H).
Hypothesis HC : store h !! cache i = Some (OCache c).
Hypothesis Heps : H !! "eps" = Some (HNum (Fin eps)).
Hypothesis Hpos : 0 < eps.
Hypothesis Hcn : H !! "clip_norm" = Some cn.
Hypothesis Hvalid : valid_clip cn.
Hypothesis Hlr : sched_call (lr_scheduler i) (cur_step i) loss = Fin lr.
Hypothesis Hentry : entry_array h c name (of_reals g) (of_reals s).
Hypothesis Hnonneg : Forall (λ a, 0 <= a) s.
Hypothesis Hls : length s = length g.
Hypothesis Hlp : length p = length g.


End AdaGrad_equation.

Section RMSProp_equation.
Local Open Scope R_scope.
Context (h : heap) (self : loc) (i : instance) (H : gmap string hval)
        (c : gmap string loc).
Context (lr eps decay : R) (cn : hval) (p g s : list R) (name : string)
        (loss : option fl).
Hypothesis Hwf : heap_wf h.
Hypothesis Hs : store h !! self = Some (OInst i).
Hypothesis Hcls : cls i = ClsRMSProp.
Hypothesis HH : store h !! hyperparameters i = Some (OHyper H).
Hypothesis HC : store h !! cache i = Some (OCache c).
Hypothesis Heps : H !! "eps" = Some (HNum (Fin eps)).
Hypothesis Hpos : 0 < eps.
Hypothesis Hdecay : H !! "decay" = Some (HNum (Fin decay)).
Hypothesis Hd : 0 <= decay <= 1.
Hypothesis Hcn : H !! "clip_norm" = Some cn.
Hypothesis Hvalid : valid_clip cn.
Hypothesis Hlr : sched_call (lr_scheduler i) (cur_step i) loss = Fin lr.
Hypothesis Hentry : entry_array h c name (of_reals g) (of_reals s).
Hypothesis Hnonneg : Forall (λ a, 0 <= a) s.
Hypothesis Hls : length s = length g.
Hypothesis Hlp : length p = length g.

End RMSProp_equation.

Section powers.
Local Open Scope R_scope.



End powers.

Section Adam_equation.
Local Open Scope R_scope.
Context (h : heap) (self : loc) (i : instance) (H : gmap string hval)
        (c : gmap string loc).
Context (lr eps d1 d2 : R) (cn : hval) (p g m v : list R) (t : nat)
        (name : string) (loss : option fl).
Hypothesis Hwf : heap_wf h.
Hypothesis Hs : store h !! self = Some (OInst i).
Hypothesis Hcls : cls i = ClsAdam.
Hypothesis HH : store h !! hyperparameters i = Some (OHyper H).
Hypothesis HC : store h !! cache i = Some (OCache c).
Hypothesis Heps : H !! "eps" = Some (HNum (Fin eps)).
Hypothesis Hpos : 0 < eps.
Hypothesis Hdecay1 : H !! "decay1" = Some (HNum (Fin d1)).
Hypothesis Hd1 : 0 <= d1 < 1.
Hypothesis Hdecay2 : H !! "decay2" = Some (HNum (Fin d2)).
Hypothesis Hd2 : 0 <= d2 < 1.
Hypothesis Hcn : H !! "clip_norm" = Some cn.
Hypothesis Hvalid : valid_clip cn.
Hypothesis Hlr : sched_call (lr_scheduler i) (cur_step i) loss = Fin lr.
Hypothesis Hentry :
  entry_rec h c name (of_reals g) (Z.of_nat t) (of_reals m) (of_reals v).
Hypothesis Hnonneg : Forall (λ a, 0 <= a) v.
Hypothesis Hlm : length m = length g.
Hypothesis Hlv : length v = length g.
Hypothesis Hlp : length p = length g.


End Adam_equation.

Section first_step.
Local Open Scope R_scope.



End first_step.

Section Adam_first_update.
Local Open Scope R_scope.
Context (h : heap) (self : loc) (i : instance) (H : gmap string hval)
        (c : gmap string loc).
Context (lr eps d1 d2 : R) (cn : hval) (p g : list R)
        (name : string) (loss : option fl).
Hypothesis Hwf : heap_wf h.
Hypothesis Hs : store h !! self = Some (OInst i).
Hypothesis Hcls : cls i = ClsAdam.
Hypothesis HH : store h !! hyperparameters i = Some (OHyper H).
Hypothesis HC : store h !! cache i = Some (OCache c).
Hypothesis Heps : H !! "eps" = Some (HNum (Fin eps)).
Hypothesis Hpos : 0 < eps.
Hypothesis Hdecay1 : H !! "decay1" = Some (HNum (Fin d1)).
Hypothesis Hd1 : 0 <= d1 < 1.
Hypothesis Hdecay2 : H !! "decay2" = Some (HNum (Fin d2)).
Hypothesis Hd2 : 0 <= d2 < 1.
Hypothesis Hcn : H !! "clip_norm" = Some cn.
Hypothesis Hvalid : valid_clip cn.
Hypothesis Hlr : sched_call (lr_scheduler i) (cur_step i) loss = Fin lr.
Hypothesis Hnew : c !! name = None.
Hypothesis Hlp : length p = length g.

End Adam_first_update.

Section AdaGrad_bound.
Local Open Scope R_scope.
Context (h : heap) (self : loc) (i : instance) (H : gmap string hval)
        (c : gmap string loc).
Context (lr eps : R) (cn : hval) (p g s : list R) (name : string)
        (loss : option fl).
Hypothesis Hwf : heap_wf h.
Hypothesis Hs : store h !! self = Some (OInst i).
Hypothesis Hcls : cls i = ClsAdaGrad.
Hypothesis HH : store h !! hyperparameters i = Some (OHyper H).
Hypothesis HC : store h !! cache i = Some (OCache c).
Hypothesis Heps : H !! "eps" = Some (HNum (Fin eps)).
Hypothesis Hpos : 0 < eps.
Hypothesis Hcn : H !! "clip_norm" = Some cn.
Hypothesis Hvalid : valid_clip cn.
Hypothesis Hlr : sched_call (lr_scheduler i) (cur_step i) loss = Fin lr.
Hypothesis Hentry : entry_array h c name (of_reals g) (of_reals s).
Hypothesis Hnonneg : Forall (λ a, 0 <= a) s.
Hypothesis Hls : length s = length g.
Hypothesis Hlp : length p = length g.

End AdaGrad_bound.

(* ================================================================== *)
(** * What an update leaves alone *)

Section SGD_step_frame.
Context (h : heap) (self : loc) (i : instance) (H : gmap string hval)
        (c : gmap string loc).
Context (p g g' x : tensor) (name : string) (loss : option fl) (m : fl)
        (cn : hval).
Hypothesis Hwf : heap_wf h.
Hypothesis Hs : store h !! self = Some (OInst i).
Hypothesis Hcls : cls i = ClsSGD.
Hypothesis HH : store h !! hyperparameters i = Some (OHyper H).
Hypothesis HC : store h !! cache i = Some (OCache c).
Hypothesis Hm : H !! "momentum" = Some (HNum m).
Hypothesis Hcn : H !! "clip_norm" = Some cn.
Hypothesis Hclip : clip g cn = Ret g'.
Hypothesis Hx : entry_array h c name g x.

Let lr := sched_call (lr_scheduler i) (cur_step i) loss.
Let vel := broadcast fadd (scalar_mul m x) (scalar_mul lr g').

Lemma SGD_step_frame :
  ∃ h' c' e,
    update self p g name loss h
    = (match vel with
       | Ret u => broadcast fsub p u
       | Raise ex => Raise ex
       end, h') ∧
    heap_wf h' ∧
    store h' !! self = Some (OInst i) ∧
    store h' !! hyperparameters i = Some (OHyper H) ∧
    store h' !! cache i = Some (OCache c') ∧
    c' !! name = Some e ∧
    store h' !! e = Some (OArr match vel with
                               | Ret u => u
                               | Raise _ => x
                               end) ∧
    (∀ k, k ≠ name → c' !! k = c !! k) ∧
    (∀ l, l < next h → l ≠ cache i → store h' !! l = store h !! l) ∧
    (c !! name = Some e ∨ store h !! e = None).
Proof.
  pose proof (wf_lt _ _ _ Hwf Hs) as Hlt.
  pose proof (update_wf h self p g name loss Hwf Hlt) as Hwf'.
  revert Hwf'. rewrite (update_eq _ _ _ _ _ _ _ Hs), Hcls. simpl update_of.
  destruct (init_entry_facts h self i c name g x Hwf Hs HC Hx)
    as (h1 & c1 & e & Hinit & Hready & [Hfr Hkeep Hoth Hnext Hfresh] & Hx1).
  rewrite (SGD_update_run h self i H p g name loss m cn g' h1 c1 e x
             Hs HH Hm Hcn Hclip Hinit Hready Hx1).
  fold lr vel. destruct Hready as [Hs1 HC1 He1 ? ? ?].
  assert (e ≠ self) by congruence. assert (e ≠ cache i) by congruence.
  assert (self ≠ cache i) by congruence.
  assert (cache i ≠ hyperparameters i) by congruence.
  pose proof (wf_lt _ _ _ Hwf HH).
  assert (HH1 : store h1 !! hyperparameters i = Some (OHyper H))
    by (rewrite Hfr by done; done).
  destruct vel as [u|ex].
  - intros Hwf'. eexists _, _, (next h1). split; [reflexivity |].
    split; [exact Hwf' |].
    split_and!; [heap_lookup | heap_lookup | heap_lookup
                 | apply lookup_insert_eq | heap_lookup | | |].
    + intros k Hk. rewrite lookup_insert_ne by done. by apply Hoth.
    + intros l ? ?. rewrite lookup_hput_ne by done.
      rewrite lookup_halloc_ne by lia. by apply Hfr.
    + right. apply wf_ge_None; [done | lia].
  - intros Hwf'. exists h1, c1, e. split; [done |]. split; [exact Hwf' |].
    split_and!; try done.
    destruct (c !! name) as [e0|] eqn:Hn; [|right; by apply Hfresh].
    left. f_equal. pose proof (Hkeep _ _ Hn). congruence.
Qed.
End SGD_step_frame.

Section RMSProp_step_frame.
Context (h : heap) (self : loc) (i : instance) (H : gmap string hval)
        (c : gmap string loc).
Context (p g g' x : tensor) (name : string) (loss : option fl)
        (eps decay : fl) (cn : hval).
Hypothesis Hwf : heap_wf h.
Hypothesis Hs : store h !! self = Some (OInst i).
Hypothesis Hcls : cls i = ClsRMSProp.
Hypothesis HH : store h !! hyperparameters i = Some (OHyper H).
Hypothesis HC : store h !! cache i = Some (OCache c).
Hypothesis Heps : H !! "eps" = Some (HNum eps).
Hypothesis Hdecay : H !! "decay" = Some (HNum decay).
Hypothesis Hcn : H !! "clip_norm" = Some cn.
Hypothesis Hclip : clip g cn = Ret g'.
Hypothesis Hx : entry_array h c name g x.

Let avg := broadcast fadd (scalar_mul decay x)
                     (scalar_mul (fsub (Fin 1) decay) (square g')).

Lemma RMSProp_step_frame :
  ∃ h' c' e,
    (update self p g name loss h).2 = h' ∧
    heap_wf h' ∧
    store h' !! self = Some (OInst i) ∧
    store h' !! hyperparameters i = Some (OHyper H) ∧
    store h' !! cache i = Some (OCache c') ∧
    c' !! name = Some e ∧
    store h' !! e = Some (OArr match avg with
                               | Ret x' => x'
                               | Raise _ => x
                               end) ∧
    (∀ k, k ≠ name → c' !! k = c !! k) ∧
    (∀ l, l < next h → l ≠ cache i → store h' !! l = store h !! l) ∧
    (c !! name = Some e ∨ store h !! e = None).
Proof.
  pose proof (wf_lt _ _ _ Hwf Hs) as Hlt.
  pose proof (update_wf h self p g name loss Hwf Hlt) as Hwf'.
  revert Hwf'. rewrite (update_eq _ _ _ _ _ _ _ Hs), Hcls. simpl update_of.
  destruct (init_entry_facts h self i c name g x Hwf Hs HC Hx)
    as (h1 & c1 & e & Hinit & Hready & [Hfr Hkeep Hoth Hnext Hfresh] & Hx1).
  rewrite (RMSProp_update_run h self i H p g name loss eps decay cn g'
             h1 c1 e x Hs HH Heps Hdecay Hcn Hclip Hinit Hready Hx1).
  fold avg. destruct Hready as [Hs1 HC1 He1 ? ? ?].
  assert (e ≠ self) by congruence. assert (e ≠ cache i) by congruence.
  assert (self ≠ cache i) by congruence.
  assert (cache i ≠ hyperparameters i) by congruence.
  pose proof (wf_lt _ _ _ Hwf HH).
  assert (HH1 : store h1 !! hyperparameters i = Some (OHyper H))
    by (rewrite Hfr by done; done).
  destruct avg as [x'|ex].
  - cbn [snd]. intros Hwf'. eexists _, _, (next h1). split; [reflexivity |].
    split; [exact Hwf' |].
    split_and!; [heap_lookup | heap_lookup | heap_lookup
                 | apply lookup_insert_eq | heap_lookup | | |].
    + intros k Hk. rewrite lookup_insert_ne by done. by apply Hoth.
    + intros l ? ?. rewrite lookup_hput_ne by done.
      rewrite lookup_halloc_ne by lia. by apply Hfr.
    + right. apply wf_ge_None; [done | lia].
  - cbn [snd]. intros Hwf'. exists h1, c1, e. split; [done |]. split; [exact Hwf' |].
    split_and!; try done.
    destruct (c !! name) as [e0|] eqn:Hn; [|right; by apply Hfresh].
    left. f_equal. pose proof (Hkeep _ _ Hn). congruence.
Qed.
End RMSProp_step_frame.

Section update_frame.
Context (self C Hl : loc) (k : opt_class) (H : gmap string hval).
Context (h : heap) (c : gmap string loc).
Context (p g : tensor) (name : string) (loss : option fl).
Hypothesis Hat : optimizer_at self k C Hl H h c.
Hypothesis Htyped : well_typed k H.
Hypothesis Hshape : cache_shape k h c.

Lemma array_entries_after h' c' e x :
  array_entries h c →
  c' !! name = Some e →
  store h' !! e = Some (OArr x) →
  (∀ k', k' ≠ name → c' !! k' = c !! k') →
  (∀ e' y, store h !! e' = Some (OArr y) → e' ≠ e →
           store h' !! e' = Some (OArr y)) →
  array_entries h' c'.
Proof.
  intros Harr He Hx Hoth Hold k' e' Hk'.
  destruct (decide (e' = e)) as [->|Hne]; [eauto |].
  destruct (decide (k' = name)) as [->|Hk]; [congruence |].
  rewrite Hoth in Hk' by done.
  destruct (Harr k' e' Hk') as [y Hy]. eauto.
Qed.

(** The new entry [e] of [name] is no entry of another name: it is the
    one [name] had, or it did not exist. *)
Lemma distinct_entries_after c' e :
  distinct_entries c →
  (∀ k' e', c !! k' = Some e' → is_Some (store h !! e')) →
  c' !! name = Some e →
  (∀ k', k' ≠ name → c' !! k' = c !! k') →
  c !! name = Some e ∨ store h !! e = None →
  distinct_entries c'.
Proof.
  intros Hinj Hex He Hoth Horigin k1 k2 e' H1 H2.
  assert (Hno : ∀ k', k' ≠ name → c !! k' = Some e → False).
  { intros k' Hk' Hk'e. destruct Horigin as [Hn|Hnone].
    - by apply Hk', (Hinj k' name e).
    - destruct (Hex k' e Hk'e) as [o Ho]. congruence. }
  destruct (decide (k1 = name)) as [->|Hk1], (decide (k2 = name)) as [->|Hk2];
    try done.
  - assert (e' = e) as -> by congruence. rewrite Hoth in H2 by done.
    by destruct (Hno k2).
  - assert (e' = e) as -> by congruence. rewrite Hoth in H1 by done.
    by destruct (Hno k1).
  - rewrite Hoth in H1, H2 by done. by eapply Hinj.
Qed.

Lemma array_entries_exist :
  array_entries h c → ∀ k' e', c !! k' = Some e' → is_Some (store h !! e').
Proof. intros Harr k' e' Hk'. destruct (Harr k' e' Hk') as [x ->]. eauto. Qed.

Lemma update_has_frame :
  ∃ c', update_frame self C Hl k H name h
          (update self p g name loss h).2 c c'.
Proof.
  destruct Hat as (Hwf & (i & Hs & Hk & HC' & HH') & HH & HC).
  subst k C Hl.
  destruct Htyped as [(cn & Hcn & Hstr) Hcls].
  destruct (clip_ret g cn Hstr) as [g' Hclip].
  destruct (cls i) eqn:Hc; [done | | | |].
  - (* SGD: the entry is rebound, no array is written to *)
    destruct Hcls as [m Hm]. destruct Hshape as [Harr Hinj].
    assert (∃ x0, entry_array h c name g x0) as [x0 Hx0].
    { unfold entry_array. destruct (c !! name) as [e|] eqn:Hn; [|eauto].
      destruct (Harr name e Hn) as (x & Hx). eauto. }
    destruct (SGD_step_frame h self i H c p g g' x0 name loss m cn
                Hwf Hs Hc HH HC Hm Hcn Hclip Hx0)
      as (h' & c' & e & Hrun & Hwf' & Hs' & HH'' & HC'' & He & Hxe & Hoth
          & Hfr & Horigin).
    rewrite Hrun. cbn [snd]. exists c'.
    assert (Hold : ∀ e', e' < next h → e' ≠ cache i →
              store h' !! e' = store h !! e') by (intros; by apply Hfr).
    assert (Hobj : ∀ k' e', c !! k' = Some e' →
              e' < next h ∧ e' ≠ cache i).
    { intros k' e' Hk'. destruct (Harr k' e' Hk') as [y Hy].
      split; [by eapply wf_lt | congruence]. }
    split.
    + by split_and!; [| exists i | |].
    + congruence.
    + rewrite He. simpl. rewrite (entry_view_arr _ _ _ Hxe). eauto.
    + done.
    + intros k' e' _ Hk'. destruct (Hobj k' e' Hk').
      destruct (Harr k' e' Hk') as [y Hy].
      rewrite (entry_view_arr _ _ y), (entry_view_arr _ _ y); [done.. |].
      by rewrite Hold.
    + split.
      * eapply array_entries_after; eauto.
        intros e' y Hy _. rewrite Hold; [done | by eapply wf_lt | congruence].
      * eapply distinct_entries_after; eauto using array_entries_exist.
    + intros l o Hl0 Hne _. rewrite Hold; [done | by eapply wf_lt | done].
    + intros e0 He0. by assert (e0 = e) as -> by congruence.
  - (* AdaGrad: the cached array is written to *)
    destruct Hcls as [eps Heps]. destruct Hshape as [Harr Hinj].
    assert (∃ x0, entry_array h c name g x0) as [x0 Hx0].
    { unfold entry_array. destruct (c !! name) as [e|] eqn:Hn; [|eauto].
      destruct (Harr name e Hn) as (x & Hx). eauto. }
    destruct (AdaGrad_step h self i H c p g g' x0 name loss eps cn
                Hwf Hs Hc HH HC Heps Hcn Hclip Hx0)
      as (h' & c' & e & Hrun & Hwf' & Hs' & HH'' & HC'' & He & Hxe & Hkeep
          & Hoth & Hfresh & Hfr).
    rewrite Hrun. cbn [snd]. exists c'.
    assert (Horigin : c !! name = Some e ∨ store h !! e = None).
    { destruct (c !! name) as [e0|] eqn:Hn; [|right; by apply Hfresh].
      left. f_equal. pose proof (Hkeep _ _ Hn). congruence. }
    assert (Hno : ∀ k', k' ≠ name → c !! k' = Some e → False).
    { intros k' Hk' Hk'e. destruct Horigin as [Hn|Hnone].
      - by apply Hk', (Hinj k' name e).
      - destruct (Harr k' e Hk'e) as [y Hy]. congruence. }
    assert (Hold : ∀ k' e' y, k' ≠ name → c !! k' = Some e' →
              store h !! e' = Some (OArr y) →
              store h' !! e' = Some (OArr y)).
    { intros k' e' y Hk' Hk'e Hy.
      rewrite Hfr; [done | by eapply wf_lt | congruence |].
      intros ->. by eapply Hno. }
    split.
    + by split_and!; [| exists i | |].
    + congruence.
    + rewrite He. simpl. rewrite (entry_view_arr _ _ _ Hxe). eauto.
    + done.
    + intros k' e' Hk' Hk'e. destruct (Harr k' e' Hk'e) as [y Hy].
      rewrite (entry_view_arr _ _ y), (entry_view_arr _ _ y); [done.. |].
      by eapply Hold.
    + split.
      * intros k' e' Hk'e. destruct (decide (k' = name)) as [->|Hk'].
        -- assert (e' = e) as -> by congruence. eauto.
        -- rewrite Hoth in Hk'e by done.
           destruct (Harr k' e' Hk'e) as [y Hy]. eauto.
      * eapply distinct_entries_after; eauto using array_entries_exist.
    + intros l o Hl0 Hne Hnot.
      rewrite Hfr; [done | by eapply wf_lt | done |].
      intros ->. destruct Horigin; congruence.
    + intros e0 He0. by assert (e0 = e) as -> by congruence.
  - (* RMSProp: the entry is rebound, no array is written to *)
    destruct Hcls as [[eps Heps] [d Hd]]. destruct Hshape as [Harr Hinj].
    assert (∃ x0, entry_array h c name g x0) as [x0 Hx0].
    { unfold entry_array. destruct (c !! name) as [e|] eqn:Hn; [|eauto].
      destruct (Harr name e Hn) as (x & Hx). eauto. }
    destruct (RMSProp_step_frame h self i H c p g g' x0 name loss eps d cn
                Hwf Hs Hc HH HC Heps Hd Hcn Hclip Hx0)
      as (h' & c' & e & Hrun & Hwf' & Hs' & HH'' & HC'' & He & Hxe & Hoth
          & Hfr & Horigin).
    rewrite Hrun. exists c'.
    assert (Hold : ∀ e', e' < next h → e' ≠ cache i →
              store h' !! e' = store h !! e') by (intros; by apply Hfr).
    assert (Hobj : ∀ k' e', c !! k' = Some e' →
              e' < next h ∧ e' ≠ cache i).
    { intros k' e' Hk'. destruct (Harr k' e' Hk') as [y Hy].
      split; [by eapply wf_lt | congruence]. }
    split.
    + by split_and!; [| exists i | |].
    + congruence.
    + rewrite He. simpl. rewrite (entry_view_arr _ _ _ Hxe). eauto.
    + done.
    + intros k' e' _ Hk'. destruct (Hobj k' e' Hk').
      destruct (Harr k' e' Hk') as [y Hy].
      rewrite (entry_view_arr _ _ y), (entry_view_arr _ _ y); [done.. |].
      by rewrite Hold.
    + split.
      * eapply array_entries_after; eauto.
        intros e' y Hy _. rewrite Hold; [done | by eapply wf_lt | congruence].
      * eapply distinct_entries_after; eauto using array_entries_exist.
    + intros l o Hl0 Hne _. rewrite Hold; [done | by eapply wf_lt | done].
    + intros e0 He0. by assert (e0 = e) as -> by congruence.
  - (* Adam: the cached dict is written to *)
    destruct Hcls as ([eps Heps] & [d1 Hd1] & [d2 Hd2]).
    destruct Hshape as [Hrec Hinj].
    assert (∃ t0 mx vx, entry_rec h c name g t0 mx vx)
      as (t0 & mx & vx & Hx).
    { unfold entry_rec. destruct (c !! name) as [e|] eqn:Hn.
      - destruct (Hrec name e Hn) as (t & ml & vl & mx & vx & Har). eauto 10.
      - by exists 0%Z, (zeros_like g), (zeros_like g). }
    destruct (Adam_step h self i H c p g g' mx vx t0 name loss d1 d2 eps cn
                Hwf Hs Hc HH HC Hd1 Hd2 Heps Hcn Hclip Hx)
      as (h' & c' & e & ml & vl & Hrun & Hwf' & Hs' & HH'' & HC'' & He & Har
          & Hkeep & Hoth & Hfresh & Hfr & Hnext).
    rewrite Hrun. cbn [snd]. exists c'.
    assert (Horigin : c !! name = Some e ∨ store h !! e = None).
    { destruct (c !! name) as [e0|] eqn:Hn; [|right; by apply Hfresh].
      left. f_equal. pose proof (Hkeep _ _ Hn). congruence. }
    assert (Hno : ∀ k', k' ≠ name → c !! k' = Some e → False).
    { intros k' Hk' Hk'e. destruct Horigin as [Hn|Hnone].
      - by apply Hk', (Hinj k' name e).
      - destruct (Hrec k' e Hk'e) as (? & ? & ? & ? & ? & [Hr _ _ _ _]).
        congruence. }
    assert (Hnarr : ∀ x, store h !! e ≠ Some (OArr x)).
    { intros x Hxe. destruct Horigin as [Hn|Hnone]; [|congruence].
      destruct (Hrec name e Hn) as (? & ? & ? & ? & ? & [Hr _ _ _ _]).
      congruence. }
    assert (Hsame : ∀ k' e' t m v mx' vx', k' ≠ name → c !! k' = Some e' →
              adam_ready h e' t m v mx' vx' → adam_ready h' e' t m v mx' vx').
    { intros k' e' t m v mx' vx' Hk' Hn' [Hr Hm Hv Hml Hvl].
      split; [| | | lia | lia].
      - rewrite Hfr; [done | by eapply wf_lt | congruence |].
        intros ->. by eapply Hno.
      - rewrite Hfr; [done | done | congruence |]. intros ->. by eapply Hnarr.
      - rewrite Hfr; [done | done | congruence |]. intros ->. by eapply Hnarr. }
    assert (Hview : ∀ h0 e0 t m v mx' vx', adam_ready h0 e0 t m v mx' vx' →
              entry_view (store h0) e0 = Some (ERec t mx' vx')).
    { intros h0 e0 t m v mx' vx' [Hr Hm Hv _ _]. unfold entry_view.
      by rewrite Hr, Hm, Hv. }
    split.
    + by split_and!; [| exists i | |].
    + congruence.
    + rewrite He. simpl. erewrite Hview by exact Har. eauto.
    + done.
    + intros k' e' Hk' Hk'e.
      destruct (Hrec k' e' Hk'e) as (t & m & v & mx' & vx' & Har').
      erewrite Hview by (eapply Hsame; eauto).
      by erewrite Hview by exact Har'.
    + split.
      * intros k' e' Hk'e. destruct (decide (k' = name)) as [->|Hk'].
        -- assert (e' = e) as -> by congruence. eauto 10.
        -- rewrite Hoth in Hk'e by done.
           destruct (Hrec k' e' Hk'e) as (t & m & v & mx' & vx' & Har').
           exists t, m, v, mx', vx'. by eapply Hsame.
      * eapply distinct_entries_after; eauto.
        intros k' e' Hk'e.
        destruct (Hrec k' e' Hk'e) as (? & ? & ? & ? & ? & [-> _ _ _ _]).
        eauto.
    + intros l o Hl0 Hne Hnot.
      rewrite Hfr; [done | by eapply wf_lt | done |].
      intros ->. destruct Horigin; congruence.
    + intros e0 He0. by assert (e0 = e) as -> by congruence.
Qed.
End update_frame.

Section snapshots.
Context (self C Hl : loc) (k : opt_class) (H : gmap string hval).

Lemma optimizer_at_snapshot h c :
  optimizer_at self k C Hl H h c →
  ∃ i, store h !! self = Some (OInst i) ∧
       snapshot_of h self
       = Some {| snap_cls := k;
                 snap_cache := entry_view (store h) <$> c;
                 snap_cur_step := cur_step i;
                 snap_hyperparameters := H;
                 snap_lr_scheduler := lr_scheduler i |}.
Proof.
  intros (Hwf & (i & Hs & <- & <- & <-) & HH & HC). exists i.
  split; [done |]. unfold snapshot_of. by rewrite Hs, HC, HH.
Qed.
End snapshots.

Section update_frame_theorems.
Context (self C Hl : loc) (k : opt_class) (H : gmap string hval).
Context (h : heap) (c : gmap string loc).
Context (p g : tensor) (name : string) (loss : option fl).
Hypothesis Hat : optimizer_at self k C Hl H h c.
Hypothesis Htyped : well_typed k H.
Hypothesis Hshape : cache_shape k h c.

(** X7. An update touches the entry of its name only: whatever it returns
    or raises, the class, the step counter, the hyperparameters and
    the scheduler of the optimizer are afterwards what they were, and
    so is the cached entry of every other name; and of the objects
    that existed, none but the cache dict and the entry the name had
    is written to. *)
Theorem update_changes_only_its_entry :
  (∃ s s',
    snapshot_of h self = Some s ∧
    snapshot_of (update self p g name loss h).2 self = Some s' ∧
    snap_cls s' = snap_cls s ∧
    snap_cur_step s' = snap_cur_step s ∧
    snap_hyperparameters s' = snap_hyperparameters s ∧
    snap_lr_scheduler s' = snap_lr_scheduler s ∧
    ∀ k', k' ≠ name → snap_cache s' !! k' = snap_cache s !! k') ∧
  ∀ l o, store h !! l = Some o → l ≠ C → c !! name ≠ Some l →
         store (update self p g name loss h).2 !! l = Some o.
Proof.
  destruct (update_has_frame self C Hl k H h c p g name loss Hat Htyped
              Hshape) as (c' & [Hat' Hself _ Hoth Hviews _ Hframe _]).
  split; [|done].
  destruct (optimizer_at_snapshot _ _ _ _ _ _ _ Hat) as (i & Hs & Hsnap).
  destruct (optimizer_at_snapshot _ _ _ _ _ _ _ Hat') as (i' & Hs' & Hsnap').
  assert (i' = i) as -> by congruence.
  eexists _, _. split; [exact Hsnap |]. split; [exact Hsnap' |].
  split_and!; try done.
  intros k' Hk'. cbn [snap_cache]. rewrite !lookup_fmap, Hoth by done.
  destruct (c !! k') as [e'|] eqn:Hk'e; [|done]. simpl. f_equal.
  by eapply Hviews.
Qed.

(** X8. An update that fails is not undone: for a name that is not cached
    and a parameter whose shape cannot be broadcast with the
    gradient's, [update] raises [ValueError], and the name has an entry
    in the cache afterwards. *)
Theorem failed_update_leaves_its_entry :
  c !! name = None →
  ¬ compatible (length p) (length g) →
  (update self p g name loss h).1 = Raise ValueError ∧
  cached h self name = None ∧
  is_Some (cached (update self p g name loss h).2 self name).
Proof.
  intros Hnew Hshapes.
  destruct (update_has_frame self C Hl k H h c p g name loss Hat Htyped
              Hshape) as (c' & [Hat' _ Hentry _ _ _ _ _]).
  split_and!.
  - destruct Hat as (Hwf & (i & Hs & <- & <- & <-) & HH & HC).
    by apply (fresh_name_shapes h self i H c p g name loss Hwf Hs HH HC).
  - by rewrite (optimizer_at_cached _ _ _ _ _ _ _ _ Hat), Hnew.
  - by rewrite (optimizer_at_cached _ _ _ _ _ _ _ _ Hat').
Qed.
End update_frame_theorems.

(* ================================================================== *)
(** * Sequences of updates and steps *)

(** The shape of a cache, and what it holds, depend on its arrays and
    dicts only. *)
Lemma cache_shape_frame k h h' c :
  heap_wf h' →
  (∀ e x, store h !! e = Some (OArr x) → store h' !! e = Some (OArr x)) →
  (∀ e t m v, store h !! e = Some (ORec t m v) →
              store h' !! e = Some (ORec t m v)) →
  cache_shape k h c →
  cache_shape k h' c ∧
  ∀ name e, c !! name = Some e →
            entry_view (store h') e = entry_view (store h) e.
Proof.
  intros Hwf' Harr Hrec Hshape.
  assert (Harrs : array_entries h c ∧ distinct_entries c →
            (array_entries h' c ∧ distinct_entries c) ∧
            ∀ name e, c !! name = Some e →
                      entry_view (store h') e = entry_view (store h) e).
  { intros [Ha Hinj]. split; [split; [|done] |].
    - intros k' e Hk'. destruct (Ha k' e Hk') as [x Hx]. eauto.
    - intros name e Hn. destruct (Ha name e Hn) as [x Hx].
      by rewrite (entry_view_arr _ _ x), (entry_view_arr _ _ x) by eauto. }
  destruct k; simpl in *; [by apply Harrs.. |].
  destruct Hshape as [Ha Hinj].
  assert (Hready : ∀ e t m v mx vx, adam_ready h e t m v mx vx →
            adam_ready h' e t m v mx vx).
  { intros e t m v mx vx [Hr Hm Hv Hml Hvl]. split; eauto.
    - eapply wf_lt; [exact Hwf' | by eapply Harr].
    - eapply wf_lt; [exact Hwf' | by eapply Harr]. }
  split; [split; [|done] |].
  - intros k' e Hk'. destruct (Ha k' e Hk') as (t & m & v & mx & vx & Har).
    eauto 10.
  - intros name e Hn. destruct (Ha name e Hn) as (t & m & v & mx & vx & Har).
    pose proof (Hready _ _ _ _ _ _ Har) as Har'.
    destruct Har as [Hr Hm Hv _ _], Har' as [Hr' Hm' Hv' _ _].
    unfold entry_view. by rewrite Hr, Hm, Hv, Hr', Hm', Hv'.
Qed.

Section run_frame.
Context `{SI : SchedulerInitializer}.
Context (self C Hl : loc) (k : opt_class) (H : gmap string hval).
Hypothesis Htyped : well_typed k H.

(** [name] has in [h'] the entry it had in [h]. *)
Let same_entry (h h' : heap) (c c' : gmap string loc) (name : string)
    : Prop :=
  c' !! name = c !! name ∧
  ∀ e, c !! name = Some e →
       entry_view (store h') e = entry_view (store h) e.

Lemma steps_keep_cache h c call :
  optimizer_at self k C Hl H h c →
  cache_shape k h c →
  call = CallStep ∨ call = CallResetStep →
  optimizer_at self k C Hl H (exec self call h).2 c ∧
  cache_shape k (exec self call h).2 c ∧
  (∀ name, same_entry h (exec self call h).2 c c name) ∧
  ∃ i i', store h !! self = Some (OInst i) ∧
          store (exec self call h).2 !! self = Some (OInst i') ∧
          lr_scheduler i' = lr_scheduler i ∧
          cur_step i' = step_count (cur_step i) [call].
Proof.
  intros Hat Hshape Hcall.
  destruct (optimizer_at_steps self k C Hl H h c call Hat Hcall)
    as [Hat1 Hfr].
  pose proof (optimizer_at_lt _ _ _ _ _ _ _ Hat1) as Hlt1.
  assert (Hwf1 : heap_wf (exec self call h).2) by (by destruct Hat1).
  assert (Hi : ∃ i, store h !! self = Some (OInst i))
    by (destruct Hat as (_ & (i & ? & _) & _); eauto).
  destruct Hi as [i Hs].
  destruct (cache_shape_frame k h (exec self call h).2 c Hwf1)
    as [Hshape1 Hviews]; [| | done |].
  { intros e x Hx. rewrite Hfr; [done | congruence]. }
  { intros e t m v Hx. rewrite Hfr; [done | congruence]. }
  split; [done |]. split_and!.
  - done.
  - intros name. split; [done |]. intros e Hn. by eapply Hviews.
  - destruct Hcall as [-> | ->]; simpl; unfold attempt.
    + rewrite (step_eq _ _ _ Hs). cbn [snd].
      eexists i, _. split; [done |]. split; [apply lookup_hput_eq |]. done.
    + rewrite (reset_step_eq _ _ _ Hs). cbn [snd].
      eexists i, _. split; [done |]. split; [apply lookup_hput_eq |]. done.
Qed.

Lemma run_keeps cs : ∀ h c,
  optimizer_at self k C Hl H h c →
  cache_shape k h c →
  Forall (λ c, is_set_params c = false) cs →
  ∃ c',
    optimizer_at self k C Hl H (run self cs h).2 c' ∧
    cache_shape k (run self cs h).2 c' ∧
    (∀ name, grads_of name cs = [] →
             same_entry h (run self cs h).2 c c' name) ∧
    ∃ i i', store h !! self = Some (OInst i) ∧
            store (run self cs h).2 !! self = Some (OInst i') ∧
            lr_scheduler i' = lr_scheduler i ∧
            cur_step i' = step_count (cur_step i) cs.
Proof.
  induction cs as [|call cs IH]; intros h c Hat Hshape Hns.
  - exists c. split_and!; try done.
    destruct Hat as (_ & (i & ? & _) & _). by exists i, i.
  - rewrite run_cons. apply Forall_cons in Hns as [Hn1 Hns].
    assert (∃ c1,
      optimizer_at self k C Hl H (exec self call h).2 c1 ∧
      cache_shape k (exec self call h).2 c1 ∧
      (∀ name, grads_of name [call] = [] →
               same_entry h (exec self call h).2 c c1 name) ∧
      ∃ i i', store h !! self = Some (OInst i) ∧
              store (exec self call h).2 !! self = Some (OInst i') ∧
              lr_scheduler i' = lr_scheduler i ∧
              cur_step i' = step_count (cur_step i) [call])
      as (c1 & Hat1 & Hshape1 & Hview1 & i & i1 & Hs & Hs1 & Hsch1 & Hstep1).
    { destruct call as [p g n l| | |]; [| | |done].
      - rewrite exec_update.
        destruct (update_has_frame self C Hl k H h c p g n l Hat Htyped
                    Hshape) as (c1 & [Hat1 Hself _ Hoth Hviews Hshape1 _ _]).
        exists c1. split_and!; try done.
        + intros name Hname. simpl in Hname.
          destruct (decide (n = name)) as [->|Hne]; [done |].
          split; [by apply Hoth |]. intros e Hn. by eapply Hviews.
        + destruct Hat as (_ & (i & Hs & _) & _). exists i, i.
          split_and!; try done. congruence.
      - destruct (steps_keep_cache h c CallStep Hat Hshape)
          as (? & ? & ? & ?); [by left |]. exists c. eauto.
      - destruct (steps_keep_cache h c CallResetStep Hat Hshape)
          as (? & ? & ? & ?); [by right |]. exists c. eauto. }
    destruct (IH _ c1 Hat1 Hshape1 Hns)
      as (c' & Hat' & Hshape' & Hview' & i1' & i' & Hs1' & Hs' & Hsch' & Hstep').
    assert (i1' = i1) as -> by congruence.
    exists c'. split_and!; try done.
    + intros name Hname.
      change (call :: cs) with ([call] ++ cs) in Hname.
      unfold grads_of in Hname. rewrite omap_app in Hname.
      apply app_eq_nil in Hname as [Hname1 Hname2].
      destruct (Hview1 name Hname1) as [Hc1 He1].
      destruct (Hview' name Hname2) as [Hc' He'].
      split; [congruence |]. intros e Hn.
      rewrite He' by congruence. by apply He1.
    + exists i, i'. split_and!; try done; [congruence |].
      rewrite Hstep', Hstep1. done.
Qed.

(** X9. Over any calls of [update], [step] and [reset_step], whatever the
    updates return or raise: the class, the hyperparameters and the
    scheduler stay; the step counter is advanced by the [step] calls
    made since the last [reset_step], and by nothing else; and a name
    for which no update was made keeps its cached entry. *)
Theorem calls_keep_what_they_do_not_name (h : heap) (c : gmap string loc)
    (cs : list call) :
  optimizer_at self k C Hl H h c →
  cache_shape k h c →
  Forall (λ c, is_set_params c = false) cs →
  ∃ s s',
    snapshot_of h self = Some s ∧
    snapshot_of (run self cs h).2 self = Some s' ∧
    snap_cls s' = snap_cls s ∧
    snap_hyperparameters s' = snap_hyperparameters s ∧
    snap_lr_scheduler s' = snap_lr_scheduler s ∧
    snap_cur_step s' = step_count (snap_cur_step s) cs ∧
    ∀ name, grads_of name cs = [] → snap_cache s' !! name = snap_cache s !! name.
Proof.
  intros Hat Hshape Hns.
  destruct (run_keeps cs h c Hat Hshape Hns)
    as (c' & Hat' & _ & Hview & i & i' & Hs & Hs' & Hsch & Hstep).
  destruct (optimizer_at_snapshot _ _ _ _ _ _ _ Hat) as (j & Hj & Hsnap).
  destruct (optimizer_at_snapshot _ _ _ _ _ _ _ Hat') as (j' & Hj' & Hsnap').
  assert (j = i) as -> by congruence. assert (j' = i') as -> by congruence.
  eexists _, _. split; [exact Hsnap |]. split; [exact Hsnap' |].
  split_and!; try done.
  intros name Hname. cbn [snap_cache]. rewrite !lookup_fmap.
  destruct (Hview name Hname) as [-> He].
  destruct (c !! name) as [e|] eqn:Hn; [|done]. simpl. f_equal. by apply He.
Qed.
End run_frame.

(* ================================================================== *)
(** * Rebinding and writing in place *)

Section rebinding.
Context (self C Hl : loc) (k : opt_class) (H : gmap string hval).
Context (h : heap) (c : gmap string loc).
Context (p g : tensor) (name : string) (loss : option fl).
Hypothesis Hat : optimizer_at self k C Hl H h c.
Hypothesis Hk : k = ClsSGD ∨ k = ClsRMSProp.
Hypothesis Htyped : well_typed k H.
Hypothesis Harr : array_entries h c.

(** X10. SGD and RMSProp bind the name to a new array
    ([C[param_name] = ...]): their [update] writes to no object that
    existed, the cache dict apart, so that an array obtained from the
    cache before the update is not changed by it. *)
Theorem SGD_and_RMSProp_rebind :
  ∀ l o, store h !! l = Some o → l ≠ C →
         store (update self p g name loss h).2 !! l = Some o.
Proof.
  intros l o Hl0 Hne.
  destruct Hat as (Hwf & (i & Hs & Hcls & HC' & HH') & HH & HC).
  subst C Hl.
  destruct Htyped as [(cn & Hcn & Hstr) Htype].
  destruct (clip_ret g cn Hstr) as [g' Hclip].
  assert (∃ x0, entry_array h c name g x0) as [x0 Hx0].
  { unfold entry_array. destruct (c !! name) as [e|] eqn:Hn; [|eauto].
    destruct (Harr name e Hn) as (x & Hx). eauto. }
  pose proof (wf_lt _ _ _ Hwf Hl0) as Hlt.
  destruct Hk as [-> | ->].
  - destruct Htype as [m Hm].
    destruct (SGD_step_frame h self i H c p g g' x0 name loss m cn
                Hwf Hs Hcls HH HC Hm Hcn Hclip Hx0)
      as (h' & c' & e & Hrun & _ & _ & _ & _ & _ & _ & _ & Hfr & _).
    rewrite Hrun. cbn [snd]. by rewrite Hfr.
  - destruct Htype as [[eps Heps] [d Hd]].
    destruct (RMSProp_step_frame h self i H c p g g' x0 name loss eps d cn
                Hwf Hs Hcls HH HC Heps Hd Hcn Hclip Hx0)
      as (h' & c' & e & Hrun & _ & _ & _ & _ & _ & _ & _ & Hfr & _).
    rewrite Hrun. by rewrite Hfr.
Qed.
End rebinding.

Section in_place.
Context (self C Hl : loc) (H : gmap string hval).
Context (h : heap) (c : gmap string loc).
Context (p g g' x : tensor) (name : string) (loss : option fl)
        (cn : hval) (e : loc).
Hypothesis Hat : optimizer_at self ClsAdaGrad C Hl H h c.
Hypothesis Heps : is_num H "eps".
Hypothesis Hcn : H !! "clip_norm" = Some cn.
Hypothesis Hclip : clip g cn = Ret g'.
Hypothesis He : c !! name = Some e.
Hypothesis Hx : store h !! e = Some (OArr x).

(** X11. AdaGrad adds to the cached array in place
    ([C[param_name] += param_grad ** 2]): after an [update] the name is
    bound to the array object it was bound to, and that object holds
    the new sum (the old one if the shapes do not allow the
    addition). *)
Theorem AdaGrad_adds_in_place :
  ∃ c', store (update self p g name loss h).2 !! C = Some (OCache c') ∧
        c' !! name = Some e ∧
        store (update self p g name loss h).2 !! e
        = Some (OArr match iadd x (square g') with
                     | Ret x' => x'
                     | Raise _ => x
                     end).
Proof.
  destruct Hat as (Hwf & (i & Hs & Hcls & HC' & HH') & HH & HC).
  subst C Hl. destruct Heps as [eps Heps'].
  destruct (AdaGrad_step h self i H c p g g' x name loss eps cn
              Hwf Hs Hcls HH HC Heps' Hcn Hclip)
    as (h' & c' & e' & Hrun & _ & _ & _ & HC'' & He' & Hxe & Hkeep & _).
  { unfold entry_array. by rewrite He. }
  rewrite Hrun. cbn [snd]. exists c'.
  pose proof (Hkeep _ _ He) as Hsame.
  assert (e' = e) as -> by congruence. done.
Qed.
End in_place.

(* ================================================================== *)
(** * [set_params] and the scheduler *)

Section scheduler_of_set_params.
Context `{SI : SchedulerInitializer} (self : loc).

Lemma set_hparam_loop_scheduler (l : list (string * hval)) h i s H0 :
  NoDup l.*1 →
  store h !! self
    = Some (OInst {| cls := cls i; cache := cache i;
                     cur_step := cur_step i;
                     hyperparameters := hyperparameters i;
                     lr_scheduler := s |}) →
  store h !! hyperparameters i = Some (OHyper H0) →
  ∃ h' H',
    for_each l (OptimizerBase.set_hparam self) h = (Ret (), h') ∧
    store h' !! hyperparameters i = Some (OHyper H') ∧
    (∀ l', l' ≠ self → l' ≠ hyperparameters i →
           store h' !! l' = store h !! l') ∧
    store h' !! self
    = Some (OInst {| cls := cls i; cache := cache i;
                     cur_step := cur_step i;
                     hyperparameters := hyperparameters i;
                     lr_scheduler :=
                       match (list_to_map l : gmap string hval)
                               !! "lr_scheduler",
                             H0 !! "lr_scheduler" with
                       | Some v, Some _ => resolve_scheduler v None
                       | _, _ => s
                       end |}).
Proof.
  revert h s H0. induction l as [|[k v] l IH]; intros h s H0 Hnd Hs HH.
  - exists h, H0. by split_and!.
  - assert (Hne : self ≠ hyperparameters i) by (intros Heq; congruence).
    apply NoDup_cons in Hnd as [Hk Hnd]. simpl in Hk.
    assert (Hnone : k = "lr_scheduler" →
              (list_to_map l : gmap string hval) !! "lr_scheduler" = None).
    { intros ->. by apply not_elem_of_list_to_map_1. }
    simpl for_each.
    erewrite bind_eq by (by eapply set_hparam_eq).
    cbn [cls cache cur_step hyperparameters]. simpl list_to_map.
    destruct (bool_decide (is_Some (H0 !! k))) eqn:Hin.
    + apply bool_decide_eq_true in Hin. cbv zeta.
      destruct (bool_decide (k = "lr_scheduler")) eqn:Hkey.
      * apply bool_decide_eq_true in Hkey. subst k.
        match goal with |- context [for_each l _ ?hh] => set (h1 := hh) end.
        destruct (IH h1 (resolve_scheduler v None)
                     (<["lr_scheduler" := v]> H0))
          as (h' & H' & Hrun & HH' & Hfr & Hs'); [done | | |].
        { unfold h1. by rewrite lookup_hput_eq. }
        { unfold h1. rewrite lookup_hput_ne by done.
          by rewrite lookup_hput_eq. }
        exists h', H'. split_and!; [done | done | |].
        -- intros l' ??. rewrite Hfr by done. unfold h1.
           by rewrite !lookup_hput_ne by done.
        -- rewrite Hs', (Hnone eq_refl), lookup_insert_eq.
           by destruct Hin as [? ->].
      * apply bool_decide_eq_false in Hkey.
        match goal with |- context [for_each l _ ?hh] => set (h1 := hh) end.
        destruct (IH h1 s (<[k := v]> H0))
          as (h' & H' & Hrun & HH' & Hfr & Hs'); [done | | |].
        { unfold h1. rewrite lookup_hput_ne by done. exact Hs. }
        { unfold h1. by rewrite lookup_hput_eq. }
        exists h', H'. split_and!; [done | done | |].
        -- intros l' ??. rewrite Hfr by done. unfold h1.
           by rewrite !lookup_hput_ne by done.
        -- rewrite Hs'. by rewrite !(lookup_insert_ne _ k) by done.
    + apply bool_decide_eq_false in Hin.
      destruct (IH h s H0 Hnd Hs HH) as (h' & H' & Hrun & HH' & Hfr & Hs').
      exists h', H'. split_and!; [done | done | done |].
      rewrite Hs'. destruct (decide (k = "lr_scheduler")) as [->|Hkey].
      * rewrite (Hnone eq_refl), lookup_insert_eq.
        destruct (H0 !! "lr_scheduler") eqn:E; [|done].
        destruct Hin. eauto.
      * by rewrite lookup_insert_ne by done.
Qed.

(** X12. [set_params] replaces the scheduler only when it is given the key
    ["lr_scheduler"] (and the hyperparameters have it): for every other
    key, ["lr"] included, the scheduler that the updates ask for the
    learning rate is the one the optimizer had. *)
Theorem set_params_scheduler (h : heap) (i : instance)
    (H : gmap string hval) (c : gmap string loc)
    (hparam_dict : option (gmap string hval))
    (cache_dict : option (gmap string loc)) :
  store h !! self = Some (OInst i) →
  store h !! hyperparameters i = Some (OHyper H) →
  store h !! cache i = Some (OCache c) →
  ∃ i',
    store (OptimizerBase.set_params self hparam_dict cache_dict h).2 !! self
    = Some (OInst i') ∧
    lr_scheduler i' = scheduler_after (lr_scheduler i) H hparam_dict ∧
    cur_step i' = cur_step i.
Proof.
  intros Hs HH HC.
  assert (self ≠ hyperparameters i) by congruence.
  assert (self ≠ cache i) by congruence.
  assert (cache i ≠ hyperparameters i) by congruence.
  unfold OptimizerBase.set_params.
  assert (∃ h1 i1,
    match hparam_dict with
    | Some d => for_each (map_to_list d) (OptimizerBase.set_hparam self)
    | None => mret ()
    end h = (Ret (), h1) ∧
    store h1 !! self = Some (OInst i1) ∧
    store h1 !! cache i = Some (OCache c) ∧
    cache i1 = cache i ∧
    lr_scheduler i1 = scheduler_after (lr_scheduler i) H hparam_dict ∧
    cur_step i1 = cur_step i) as (h1 & i1 & Hrun1 & Hs1 & HC1 & Hc1 & Hsch & Hst).
  { destruct hparam_dict as [d|].
    - destruct (set_hparam_loop_scheduler (map_to_list d) h i
                  (lr_scheduler i) H) as (h1 & Hnew & Hrun1 & _ & Hfr & Hs1).
      + apply NoDup_fst_map_to_list.
      + by destruct i.
      + done.
      + eexists h1, _. split; [exact Hrun1 |]. split; [exact Hs1 |].
        split_and!; try done.
        * by rewrite Hfr.
        * cbn [lr_scheduler]. unfold scheduler_after. simpl.
          by rewrite list_to_map_to_list.
    - exists h, i. split_and!; try done. }
  erewrite bind_eq by exact Hrun1.
  destruct cache_dict as [d|].
  - destruct (set_cache_entry_loop self (map_to_list d) h1 h1 i1 c)
      as (h2 & -> & _ & Hfr); [done | by rewrite Hc1 | done |].
    cbn [snd]. exists i1. split_and!; try done.
    rewrite Hfr; [done | congruence].
  - exists i1. by split_and!.
Qed.
End scheduler_of_set_params.

Section lr_is_not_read.
Context (self C Hl : loc) (k : opt_class) (H H2 : gmap string hval).
Context (h h2 : heap) (c : gmap string loc).
Context (p g : tensor) (name : string) (loss : option fl).
Hypothesis Hat : optimizer_at self k C Hl H h c.
Hypothesis Hat2 : optimizer_at self k C Hl H2 h2 c.
Hypothesis Hsame : ∀ l, l ≠ Hl → store h2 !! l = store h !! l.
Hypothesis Hnext : next h2 = next h.
Hypothesis Hkeys : ∀ key, key ≠ "lr" → H2 !! key = H !! key.
Hypothesis Htyped : well_typed k H.
Hypothesis Hshape : cache_shape k h c.

End lr_is_not_read.

Section setting_lr.
Context `{SI : SchedulerInitializer}.
Context (self C Hl : loc) (k : opt_class) (H : gmap string hval).
Context (h : heap) (c : gmap string loc) (v : hval).
Hypothesis Hat : optimizer_at self k C Hl H h c.
Hypothesis Htyped : well_typed k H.
Hypothesis Hshape : cache_shape k h c.
Hypothesis Hlr : is_Some (H !! "lr").

End setting_lr.

(* ================================================================== *)
(** * Clipping at the edges *)

Section clipping_edges.
Local Open Scope R_scope.






End clipping_edges.

(* ================================================================== *)
(** * An update is a function of the state by value *)

Section by_value.
Context (k : opt_class) (H : gmap string hval).
Context (self C Hl : loc) (h : heap) (c : gmap string loc).
Context (self2 C2 Hl2 : loc) (h2 : heap) (c2 : gmap string loc).
Context (p g : tensor) (name : string) (loss : option fl).
Hypothesis Hat : optimizer_at self k C Hl H h c.
Hypothesis Hat2 : optimizer_at self2 k C2 Hl2 H h2 c2.
Hypothesis Htyped : well_typed k H.
Hypothesis Hshape : cache_shape k h c.
Hypothesis Hshape2 : cache_shape k h2 c2.
Hypothesis Hsnap : snapshot_of h2 self2 = snapshot_of h self.

Lemma same_snapshot :
  ∃ i i2, store h !! self = Some (OInst i) ∧
          store h2 !! self2 = Some (OInst i2) ∧
          cur_step i2 = cur_step i ∧
          lr_scheduler i2 = lr_scheduler i ∧
          ∀ n, c2 !! n ≫= entry_view (store h2)
               = c !! n ≫= entry_view (store h).
Proof.
  destruct (optimizer_at_snapshot _ _ _ _ _ _ _ Hat) as (i & Hs & Hsn).
  destruct (optimizer_at_snapshot _ _ _ _ _ _ _ Hat2) as (i2 & Hs2 & Hsn2).
  rewrite Hsn, Hsn2 in Hsnap. injection Hsnap as Hcache Hstep Hsched.
  exists i, i2. split_and!; try done.
  intros n. apply (f_equal (.!! n)) in Hcache.
  rewrite !lookup_fmap in Hcache.
  destruct (c2 !! n) as [e2|] eqn:Hn2, (c !! n) as [e|] eqn:Hn;
    simpl in *; try done.
  by injection Hcache.
Qed.

Lemma same_array_entry :
  array_entries h c → array_entries h2 c2 →
  ∃ x0, entry_array h c name g x0 ∧ entry_array h2 c2 name g x0.
Proof.
  intros Ha Ha2. destruct same_snapshot as (_ & _ & _ & _ & _ & _ & Hview).
  specialize (Hview name). unfold entry_array.
  destruct (c !! name) as [e|] eqn:Hn, (c2 !! name) as [e2|] eqn:Hn2;
    simpl in Hview.
  - destruct (Ha name e Hn) as [x Hx], (Ha2 name e2 Hn2) as [x2 Hx2].
    rewrite (entry_view_arr _ _ _ Hx), (entry_view_arr _ _ _ Hx2) in Hview.
    exists x. split; [done |]. congruence.
  - destruct (Ha name e Hn) as [x Hx].
    by rewrite (entry_view_arr _ _ _ Hx) in Hview.
  - destruct (Ha2 name e2 Hn2) as [x2 Hx2].
    by rewrite (entry_view_arr _ _ _ Hx2) in Hview.
  - eauto.
Qed.

Lemma adam_ready_view h0 e t ml vl mx vx :
  adam_ready h0 e t ml vl mx vx →
  entry_view (store h0) e = Some (ERec t mx vx).
Proof. intros [Hr Hm Hv _ _]. unfold entry_view. by rewrite Hr, Hm, Hv. Qed.

Lemma same_dict_entry :
  adam_entries h c → adam_entries h2 c2 →
  ∃ t0 mx vx, entry_rec h c name g t0 mx vx ∧
              entry_rec h2 c2 name g t0 mx vx.
Proof.
  intros [Ha _] [Ha2 _].
  destruct same_snapshot as (_ & _ & _ & _ & _ & _ & Hview).
  specialize (Hview name). unfold entry_rec.
  destruct (c !! name) as [e|] eqn:Hn, (c2 !! name) as [e2|] eqn:Hn2;
    simpl in Hview.
  - destruct (Ha name e Hn) as (t & ml & vl & mx & vx & Har).
    destruct (Ha2 name e2 Hn2) as (t2 & ml2 & vl2 & mx2 & vx2 & Har2).
    rewrite (adam_ready_view _ _ _ _ _ _ _ Har),
      (adam_ready_view _ _ _ _ _ _ _ Har2) in Hview.
    injection Hview as -> -> ->. exists t, mx, vx. split; eauto.
  - destruct (Ha name e Hn) as (t & ml & vl & mx & vx & Har).
    by rewrite (adam_ready_view _ _ _ _ _ _ _ Har) in Hview.
  - destruct (Ha2 name e2 Hn2) as (t2 & ml2 & vl2 & mx2 & vx2 & Har2).
    by rewrite (adam_ready_view _ _ _ _ _ _ _ Har2) in Hview.
  - by exists 0%Z, (zeros_like g), (zeros_like g).
Qed.

End by_value.

Section by_value_update.
Context (k : opt_class) (H : gmap string hval).
Context (self C Hl : loc) (h : heap) (c : gmap string loc).
Context (self2 C2 Hl2 : loc) (h2 : heap) (c2 : gmap string loc).
Context (p g : tensor) (name : string) (loss : option fl).
Hypothesis Hat : optimizer_at self k C Hl H h c.
Hypothesis Hat2 : optimizer_at self2 k C2 Hl2 H h2 c2.
Hypothesis Htyped : well_typed k H.
Hypothesis Hshape : cache_shape k h c.
Hypothesis Hshape2 : cache_shape k h2 c2.
Hypothesis Hsnap : snapshot_of h2 self2 = snapshot_of h self.

(** What an update returns, and the entry it leaves for its name, are
    those of any optimizer with the same state by value. *)
Lemma update_by_value :
  (update self2 p g name loss h2).1 = (update self p g name loss h).1 ∧
  cached (update self2 p g name loss h2).2 self2 name
  = cached (update self p g name loss h).2 self name.
Proof.
  destruct (same_snapshot k H self C Hl h c self2 C2 Hl2 h2 c2 Hat Hat2 Hsnap)
    as (i & i2 & Hs & Hs2 & Hstep & Hsched & _).
  pose proof (same_array_entry k H self C Hl h c self2 C2 Hl2 h2 c2 g name
                Hat Hat2 Hsnap) as Harrays.
  pose proof (same_dict_entry k H self C Hl h c self2 C2 Hl2 h2 c2 g name
                Hat Hat2 Hsnap) as Hdicts.
  destruct Hat as (Hwf & (j & Hj & Hk & HC' & HH') & HH & HC).
  assert (j = i) as -> by congruence.
  destruct Hat2 as (Hwf2 & (j2 & Hj2 & Hk2 & HC2' & HH2') & HH2 & HC2).
  assert (j2 = i2) as -> by congruence.
  subst C Hl C2 Hl2.
  destruct Htyped as [(cn & Hcn & Hstr) Hcls].
  destruct (clip_ret g cn Hstr) as [g' Hclip].
  destruct k eqn:Hkk; [done | | | |].
  - destruct Hcls as [m Hm]. destruct Hshape as [Ha _], Hshape2 as [Ha2 _].
    destruct (Harrays Ha Ha2) as (x0 & Hx0 & Hx2).
    destruct (SGD_step h self i H c p g g' x0 name loss m cn)
      as (h' & c' & -> & _ & _ & _ & _ & _ & Hcached); try done.
    destruct (SGD_step h2 self2 i2 H c2 p g g' x0 name loss m cn)
      as (h2' & c2' & -> & _ & _ & _ & _ & _ & Hcached2); try done.
    cbn [fst snd]. by rewrite Hcached, Hcached2, Hstep, Hsched.
  - destruct Hcls as [eps Heps].
    destruct Hshape as [Ha _], Hshape2 as [Ha2 _].
    destruct (Harrays Ha Ha2) as (x0 & Hx0 & Hx2).
    destruct (AdaGrad_step h self i H c p g g' x0 name loss eps cn)
      as (h' & c' & e & -> & _ & Hs' & HH'' & HC'' & He & Hxe & _);
      try done.
    destruct (AdaGrad_step h2 self2 i2 H c2 p g g' x0 name loss eps cn)
      as (h2' & c2' & e2 & -> & _ & Hs2' & HH2'' & HC2'' & He2 & Hxe2 & _);
      try done.
    cbn [fst snd]. rewrite Hstep, Hsched. split; [done |].
    rewrite (cached_eq h' self i c' H name e Hs' HC'' HH'' He).
    rewrite (cached_eq h2' self2 i2 c2' H name e2 Hs2' HC2'' HH2'' He2).
    by rewrite (entry_view_arr _ _ _ Hxe), (entry_view_arr _ _ _ Hxe2).
  - destruct Hcls as [[eps Heps] [d Hd]].
    destruct Hshape as [Ha _], Hshape2 as [Ha2 _].
    destruct (Harrays Ha Ha2) as (x0 & Hx0 & Hx2).
    destruct (RMSProp_step h self i H c p g g' x0 name loss eps d cn)
      as (h' & c' & e & -> & _ & Hs' & HH'' & HC'' & He & Hxe & _);
      try done.
    destruct (RMSProp_step h2 self2 i2 H c2 p g g' x0 name loss eps d cn)
      as (h2' & c2' & e2 & -> & _ & Hs2' & HH2'' & HC2'' & He2 & Hxe2 & _);
      try done.
    cbn [fst snd]. rewrite Hstep, Hsched. split; [done |].
    rewrite (cached_eq h' self i c' H name e Hs' HC'' HH'' He).
    rewrite (cached_eq h2' self2 i2 c2' H name e2 Hs2' HC2'' HH2'' He2).
    by rewrite (entry_view_arr _ _ _ Hxe), (entry_view_arr _ _ _ Hxe2).
  - destruct Hcls as ([eps Heps] & [d1 Hd1] & [d2 Hd2]).
    destruct (Hdicts Hshape Hshape2) as (t0 & mx & vx & Hx0 & Hx2).
    destruct (Adam_step h self i H c p g g' mx vx t0 name loss d1 d2 eps cn)
      as (h' & c' & e & ml & vl & -> & _ & Hs' & HH'' & HC'' & He & Har & _);
      try done.
    destruct (Adam_step h2 self2 i2 H c2 p g g' mx vx t0 name loss d1 d2 eps
                cn)
      as (h2' & c2' & e2 & ml2 & vl2 & -> & _ & Hs2' & HH2'' & HC2'' & He2
          & Har2 & _); try done.
    cbn [fst snd]. rewrite Hstep, Hsched. split; [done |].
    rewrite (cached_eq h' self i c' H name e Hs' HC'' HH'' He).
    rewrite (cached_eq h2' self2 i2 c2' H name e2 Hs2' HC2'' HH2'' He2).
    by rewrite (adam_ready_view _ _ _ _ _ _ _ Har),
      (adam_ready_view _ _ _ _ _ _ _ Har2).
Qed.
End by_value_update.

(* ================================================================== *)
(** * Optimizers with the same state behave the same *)

Section same_state.
Context `{SI : SchedulerInitializer}.
Context (k : opt_class) (H : gmap string hval).
Hypothesis Htyped : well_typed k H.

Lemma snapshots_agree self C Hl h c self2 C2 Hl2 h2 c2 i i2 :
  optimizer_at self k C Hl H h c →
  optimizer_at self2 k C2 Hl2 H h2 c2 →
  store h !! self = Some (OInst i) →
  store h2 !! self2 = Some (OInst i2) →
  cur_step i2 = cur_step i →
  lr_scheduler i2 = lr_scheduler i →
  (∀ n, (entry_view (store h2) <$> c2) !! n
        = (entry_view (store h) <$> c) !! n) →
  snapshot_of h2 self2 = snapshot_of h self.
Proof.
  intros Hat Hat2 Hs Hs2 Hstep Hsched Hcache.
  destruct (optimizer_at_snapshot _ _ _ _ _ _ _ Hat) as (j & Hj & ->).
  destruct (optimizer_at_snapshot _ _ _ _ _ _ _ Hat2) as (j2 & Hj2 & ->).
  assert (j = i) as -> by congruence. assert (j2 = i2) as -> by congruence.
  rewrite Hstep, Hsched. do 2 f_equal. by apply map_eq.
Qed.

Lemma exec_alike self C Hl h c self2 C2 Hl2 h2 c2 call :
  alike k H self C Hl h c self2 C2 Hl2 h2 c2 →
  is_set_params call = false →
  ∃ c' c2',
    alike k H self C Hl (exec self call h).2 c'
          self2 C2 Hl2 (exec self2 call h2).2 c2'.
Proof.
  intros (Hat & Hat2 & Hshape & Hshape2 & Hsnap) Hcall.
  destruct (same_snapshot k H self C Hl h c self2 C2 Hl2 h2 c2 Hat Hat2 Hsnap)
    as (i & i2 & Hs & Hs2 & Hstep & Hsched & Hview).
  assert (Hcache : ∀ n, (entry_view (store h2) <$> c2) !! n
                        = (entry_view (store h) <$> c) !! n).
  { destruct (optimizer_at_snapshot _ _ _ _ _ _ _ Hat) as (j & _ & Hsn).
    destruct (optimizer_at_snapshot _ _ _ _ _ _ _ Hat2) as (j2 & _ & Hsn2).
    rewrite Hsn, Hsn2 in Hsnap. injection Hsnap as Hc _ _.
    intros n. by rewrite Hc. }
  destruct call as [p g name l| | |]; [| | |done].
  - rewrite !exec_update.
    destruct (update_has_frame self C Hl k H h c p g name l Hat Htyped
                Hshape) as (c' & [Hat' Hself Hentry Hoth Hviews Hshape' _ _]).
    destruct (update_has_frame self2 C2 Hl2 k H h2 c2 p g name l Hat2 Htyped
                Hshape2) as (c2' & [Hat2' Hself2 Hentry2 Hoth2 Hviews2 Hshape2' _ _]).
    destruct (update_by_value k H self C Hl h c self2 C2 Hl2 h2 c2 p g name l
                Hat Hat2 Htyped Hshape Hshape2 Hsnap) as [_ Hcached].
    rewrite (optimizer_at_cached _ _ _ _ _ _ _ _ Hat'),
      (optimizer_at_cached _ _ _ _ _ _ _ _ Hat2') in Hcached.
    exists c', c2'. split_and!; try done.
    eapply (snapshots_agree _ _ _ _ _ _ _ _ _ _ i i2); try done;
      [congruence | congruence |].
    intros n. rewrite !lookup_fmap.
    destruct (decide (n = name)) as [->|Hne].
    + destruct Hentry as [v Hv], Hentry2 as [v2 Hv2].
      rewrite Hv, Hv2 in Hcached.
      destruct (c' !! name) as [e|], (c2' !! name) as [e2|];
        simpl in *; try done. congruence.
    + rewrite Hoth, Hoth2 by done. specialize (Hcache n).
      rewrite !lookup_fmap in Hcache.
      destruct (c !! n) as [e|] eqn:Hn, (c2 !! n) as [e2|] eqn:Hn2;
        simpl in *; try done.
      rewrite (Hviews n e), (Hviews2 n e2) by done. done.
  - destruct (steps_keep_cache self C Hl k H h c CallStep Hat Hshape)
      as (Hat' & Hshape' & Hsame & j & i' & Hj & Hs' & Hsch' & Hst');
      [by left |].
    destruct (steps_keep_cache self2 C2 Hl2 k H h2 c2 CallStep Hat2 Hshape2)
      as (Hat2' & Hshape2' & Hsame2 & j2 & i2' & Hj2 & Hs2' & Hsch2' & Hst2');
      [by left |].
    assert (j = i) as -> by congruence. assert (j2 = i2) as -> by congruence.
    exists c, c2. split_and!; try done.
    eapply (snapshots_agree _ _ _ _ _ _ _ _ _ _ i' i2'); try done;
      [congruence | congruence |].
    intros n. rewrite !lookup_fmap. specialize (Hcache n).
    rewrite !lookup_fmap in Hcache.
    destruct (c !! n) as [e|] eqn:Hn, (c2 !! n) as [e2|] eqn:Hn2;
      simpl in *; try done.
    destruct (Hsame n) as [_ He], (Hsame2 n) as [_ He2].
    rewrite (He e), (He2 e2) by done. done.
  - destruct (steps_keep_cache self C Hl k H h c CallResetStep Hat Hshape)
      as (Hat' & Hshape' & Hsame & j & i' & Hj & Hs' & Hsch' & Hst');
      [by right |].
    destruct (steps_keep_cache self2 C2 Hl2 k H h2 c2 CallResetStep Hat2
                Hshape2)
      as (Hat2' & Hshape2' & Hsame2 & j2 & i2' & Hj2 & Hs2' & Hsch2' & Hst2');
      [by right |].
    assert (j = i) as -> by congruence. assert (j2 = i2) as -> by congruence.
    exists c, c2. split_and!; try done.
    eapply (snapshots_agree _ _ _ _ _ _ _ _ _ _ i' i2'); try done;
      [congruence | congruence |].
    intros n. rewrite !lookup_fmap. specialize (Hcache n).
    rewrite !lookup_fmap in Hcache.
    destruct (c !! n) as [e|] eqn:Hn, (c2 !! n) as [e2|] eqn:Hn2;
      simpl in *; try done.
    destruct (Hsame n) as [_ He], (Hsame2 n) as [_ He2].
    rewrite (He e), (He2 e2) by done. done.
Qed.

Lemma run_alike cs : ∀ self C Hl h c self2 C2 Hl2 h2 c2,
  alike k H self C Hl h c self2 C2 Hl2 h2 c2 →
  Forall (λ c, is_set_params c = false) cs →
  ∃ c' c2',
    alike k H self C Hl (run self cs h).2 c'
          self2 C2 Hl2 (run self2 cs h2).2 c2'.
Proof.
  induction cs as [|call cs IH]; intros * Halike Hns; [eauto |].
  apply Forall_cons in Hns as [Hn1 Hns]. rewrite !run_cons.
  destruct (exec_alike _ _ _ _ _ _ _ _ _ _ call Halike Hn1)
    as (c1 & c21 & Halike1).
  by eapply IH.
Qed.

(** X17. The behaviour of an optimizer is determined by its state by value:
    two optimizers of one class whose cache, step counter,
    hyperparameters and scheduler are equal, wherever their objects
    are, given the same calls of [update], [step] and [reset_step],
    are again equal in state, and every update then returns or raises
    the same for both. *)
Theorem same_state_same_behaviour self C Hl h c self2 C2 Hl2 h2 c2
    (cs : list call) :
  optimizer_at self k C Hl H h c →
  optimizer_at self2 k C2 Hl2 H h2 c2 →
  cache_shape k h c →
  cache_shape k h2 c2 →
  snapshot_of h2 self2 = snapshot_of h self →
  Forall (λ c, is_set_params c = false) cs →
  snapshot_of (run self2 cs h2).2 self2 = snapshot_of (run self cs h).2 self ∧
  ∀ p g name loss,
    (update self2 p g name loss (run self2 cs h2).2).1
    = (update self p g name loss (run self cs h).2).1.
Proof.
  intros Hat Hat2 Hshape Hshape2 Hsnap Hns.
  destruct (run_alike cs self C Hl h c self2 C2 Hl2 h2 c2)
    as (c' & c2' & Hat' & Hat2' & Hshape' & Hshape2' & Hsnap');
    [by split_and! | done |].
  split; [done |]. intros p g name loss.
  by eapply (update_by_value k H self C Hl _ c' self2 C2 Hl2 _ c2').
Qed.
End same_state.

(* ================================================================== *)
(** * The copy *)

(** X18. [copy()] returns an instance that did not exist, with the state
    of the original: the same class, cache, step counter,
    hyperparameters and scheduler, by value. *)
Theorem copy_has_the_state_of_the_original (h : heap) (o : loc)
    (i : instance) :
  heap_wf h →
  store h !! o = Some (OInst i) →
  ∃ c h1, OptimizerBase.copy o h = (Ret c, h1) ∧
          store h !! c = None ∧
          snapshot_of h1 c = snapshot_of h o.
Proof.
  intros Hwf Ho. exists (next h + o), (OptimizerBase.copy o h).2.
  split; [done |]. split; [apply wf_ge_None; [done | lia] |].
  by eapply copy_same_state.
Qed.

Section copy_alike.
Context (k : opt_class) (H : gmap string hval).
Context (o C Hl : loc) (h : heap) (c : gmap string loc).
Hypothesis Hat : optimizer_at o k C Hl H h c.
Hypothesis Hshape : cache_shape k h c.

Let N := next h.
Let h1 := (OptimizerBase.copy o h).2.
Let c1 : gmap string loc := (λ l, N + l) <$> c.

Lemma copy_lookups :
  ∃ i, store h !! o = Some (OInst i) ∧
       store h1 !! (N + o) = Some (shift_obj N (OInst i)) ∧
       store h1 !! (N + C) = Some (OCache c1) ∧
       store h1 !! (N + Hl) = Some (OHyper H) ∧
       (∀ n e ob, c !! n = Some e → store h !! e = Some ob →
                  store h1 !! (N + e) = Some (shift_obj N ob)) ∧
       (∀ n e t m v r ob, c !! n = Some e →
                  store h !! e = Some (ORec t m v) → r ∈ [m; v] →
                  store h !! r = Some ob →
                  store h1 !! (N + r) = Some (shift_obj N ob)).
Proof.
  destruct Hat as (Hwf & (i & Hs & Hk & <- & <-) & HH & HC).
  pose proof (deepcopy_lookup h o) as Hclone. fold N in Hclone.
  exists i. split; [done |]. split_and!.
  - apply Hclone; [apply reach_self | done].
  - change (OCache c1) with (shift_obj N (OCache c)). apply Hclone; [|done].
    eapply (reach_succ _ _ _ _ (cache i)); [done | by left | apply reach_self].
  - change (OHyper H) with (shift_obj N (OHyper H)). apply Hclone; [|done].
    eapply (reach_succ _ _ _ _ (hyperparameters i));
      [done | by right; left | apply reach_self].
  - intros n e ob Hn Hob. apply Hclone; [|done].
    eapply (reach_succ _ _ _ _ (cache i)); [done | by left |].
    eapply (reach_succ _ _ _ _ e);
      [done | apply elem_of_refs_cache; eauto | apply reach_self].
  - intros n e t m v r ob Hn He Hr Hob. apply Hclone; [|done].
    eapply (reach_succ _ _ _ _ (cache i)); [done | by left |].
    eapply (reach_succ _ _ _ _ e); [done | apply elem_of_refs_cache; eauto |].
    eapply (reach_succ _ _ _ _ r); [done | done | apply reach_self].
Qed.

Lemma copy_wf : heap_wf h1.
Proof.
  destruct Hat as (Hwf & _).
  eapply Inv_wf; [by apply deepcopy_Inv | done | done].
Qed.

Lemma copy_alike :
  alike k H o C Hl h c (N + o) (N + C) (N + Hl) h1 c1.
Proof.
  destruct copy_lookups as (i & Hs & Hs1 & HC1 & HH1 & Hent & Hsub).
  pose proof copy_wf as Hwf1.
  pose proof Hat as (Hwf & (j & Hj & Hk & HC' & HH') & HH & HC).
  assert (j = i) as -> by congruence.
  split; [done |]. split; [|split; [done |]; split].
  - split; [done |]. split; [|done]. eexists. split; [exact Hs1 |].
    cbn [cls cache hyperparameters]. by subst.
  - assert (Harrs : array_entries h c ∧ distinct_entries c →
              array_entries h1 c1 ∧ distinct_entries c1).
    { intros [Ha Hinj]. split.
      - intros n e1 (e & <- & Hn)%lookup_fmap_Some.
        destruct (Ha n e Hn) as [x Hx]. exists x.
        by apply (Hent n e (OArr x)).
      - intros n1 n2 e1 (e & <- & Hn1)%lookup_fmap_Some
          (e' & Heq & Hn2)%lookup_fmap_Some.
        assert (e' = e) as -> by lia. by eapply Hinj. }
    destruct k; simpl in *; [by apply Harrs.. |].
    destruct Hshape as [Ha Hinj]. split.
    + intros n e1 (e & <- & Hn)%lookup_fmap_Some.
      destruct (Ha n e Hn) as (t & ml & vl & mx & vx & [Hr Hm Hv Hml Hvl]).
      exists t, (N + ml), (N + vl), mx, vx. split.
      * by apply (Hent n e (ORec t ml vl)).
      * apply (Hsub n e t ml vl ml (OArr mx)); [done | done | by left | done].
      * apply (Hsub n e t ml vl vl (OArr vx));
          [done | done | by right; left | done].
      * unfold h1, OptimizerBase.copy, deepcopy. cbn [snd next]. fold N. lia.
      * unfold h1, OptimizerBase.copy, deepcopy. cbn [snd next]. fold N. lia.
    + intros n1 n2 e1 (e & <- & Hn1)%lookup_fmap_Some
        (e' & Heq & Hn2)%lookup_fmap_Some.
      assert (e' = e) as -> by lia. by eapply Hinj.
  - unfold h1. by eapply copy_same_state.
Qed.
End copy_alike.

Section copy_behaviour.
Context `{SI : SchedulerInitializer}.
Context (k : opt_class) (H : gmap string hval).
Context (o C Hl : loc) (h : heap) (c : gmap string loc).
Hypothesis Hat : optimizer_at o k C Hl H h c.
Hypothesis Htyped : well_typed k H.
Hypothesis Hshape : cache_shape k h c.

(** X19. The copy behaves as the original: given the same calls of
    [update], [step] and [reset_step], the copy and the original are
    again equal in state, and every update then returns or raises the
    same for both. *)
Theorem copy_behaves_like_the_original (cs : list call) :
  Forall (λ c, is_set_params c = false) cs →
  ∃ o' h1,
    OptimizerBase.copy o h = (Ret o', h1) ∧
    snapshot_of (run o' cs h1).2 o' = snapshot_of (run o cs h).2 o ∧
    ∀ p g name loss,
      (update o' p g name loss (run o' cs h1).2).1
      = (update o p g name loss (run o cs h).2).1.
Proof.
  intros Hns.
  destruct (copy_alike k H o C Hl h c Hat Hshape)
    as (_ & Hat1 & _ & Hshape1 & Hsnap).
  exists (next h + o), (OptimizerBase.copy o h).2. split; [done |].
  destruct (run_alike k H Htyped cs o C Hl h c (next h + o) (next h + C)
              (next h + Hl) (OptimizerBase.copy o h).2
              ((λ l, next h + l) <$> c))
    as (c' & c2' & Hat' & Hat2' & Hshape' & Hshape2' & Hsnap');
    [by split_and! | done |].
  split; [done |]. intros p g name loss.
  by eapply (update_by_value k H o C Hl _ c' (next h + o) (next h + C)
               (next h + Hl) _ c2').
Qed.
End copy_behaviour.

(* ================================================================== *)
(** * The original leaves the copy alone *)

(** The state of an optimizer by value depends on its own objects only:
    on a set [P] of locations that holds them, and that no reference of
    a dict of Adam's leaves. *)
Lemma snapshot_frame_on (P : loc → Prop) k self C Hl H h h' c :
  optimizer_at self k C Hl H h c →
  cache_shape k h c →
  (∀ l o, P l → store h !! l = Some o → store h' !! l = Some o) →
  P self → P C → P Hl →
  (∀ n e, c !! n = Some e → P e) →
  (∀ e t m v, P e → store h !! e = Some (ORec t m v) → P m ∧ P v) →
  snapshot_of h' self = snapshot_of h self.
Proof.
  intros (Hwf & (i & Hs & Hk & <- & <-) & HH & HC) Hshape Hkeep
    Pself PC PHl Pent Prec.
  unfold snapshot_of.
  rewrite (Hkeep _ _ Pself Hs), Hs, (Hkeep _ _ PC HC), HC,
    (Hkeep _ _ PHl HH), HH.
  do 2 f_equal. apply map_fmap_ext. intros n e Hn.
  assert (Harrs : array_entries h c →
            entry_view (store h') e = entry_view (store h) e).
  { intros Ha. destruct (Ha n e Hn) as [x Hx].
    rewrite (entry_view_arr _ _ x), (entry_view_arr _ _ x); eauto. }
  destruct k; simpl in Hshape; [by apply Harrs, Hshape.. |].
  destruct Hshape as [Ha _].
  destruct (Ha n e Hn) as (t & m & v & mx & vx & [Hr Hm Hv _ _]).
  destruct (Prec e t m v (Pent n e Hn) Hr) as [Pm Pv].
  unfold entry_view.
  by rewrite (Hkeep _ _ (Pent n e Hn) Hr), Hr, (Hkeep _ _ Pm Hm), Hm,
    (Hkeep _ _ Pv Hv), Hv.
Qed.

Section original_and_copy.
Context `{SI : SchedulerInitializer}.
Context (k : opt_class) (H : gmap string hval).
Context (o C Hl : loc).
Hypothesis Htyped : well_typed k H.

Lemma exec_apart D h0 h c call :
  ¬ D o → ¬ D C →
  apart k H o C Hl D h0 h c →
  is_set_params call = false →
  ∃ c', apart k H o C Hl D h0 (exec o call h).2 c'.
Proof.
  intros Do DC (Hat & Hshape & Hkeep & Hent) Hcall.
  destruct call as [p g name l| | |]; [| | |done].
  - rewrite exec_update.
    destruct (update_has_frame o C Hl k H h c p g name l Hat Htyped Hshape)
      as (c' & [Hat' _ _ Hoth _ Hshape' Hframe Horigin]).
    exists c'. split_and!; try done.
    + intros l0 ob Dl Hl0. apply Hframe; [by apply Hkeep | |].
      * intros ->. done.
      * intros Hn. specialize (Hent _ _ Hn Dl). congruence.
    + intros n e Hn De. destruct (decide (n = name)) as [->|Hne].
      * destruct (Horigin e Hn) as [Hold|Hnone]; [by eapply Hent |].
        destruct (store h0 !! e) as [ob|] eqn:He0; [|done].
        rewrite (Hkeep _ _ De He0) in Hnone. done.
      * rewrite Hoth in Hn by done. by eapply Hent.
  - destruct (steps_keep_cache o C Hl k H h c CallStep Hat Hshape)
      as (Hat' & Hshape' & _); [by left |].
    destruct (optimizer_at_steps o k C Hl H h c CallStep Hat) as [_ Hfr];
      [by left |].
    exists c. split_and!; try done.
    intros l0 ob Dl Hl0. rewrite Hfr; [by apply Hkeep |]. by intros ->.
  - destruct (steps_keep_cache o C Hl k H h c CallResetStep Hat Hshape)
      as (Hat' & Hshape' & _); [by right |].
    destruct (optimizer_at_steps o k C Hl H h c CallResetStep Hat)
      as [_ Hfr]; [by right |].
    exists c. split_and!; try done.
    intros l0 ob Dl Hl0. rewrite Hfr; [by apply Hkeep |]. by intros ->.
Qed.

Lemma run_apart D h0 cs : ∀ h c,
  ¬ D o → ¬ D C →
  apart k H o C Hl D h0 h c →
  Forall (λ c, is_set_params c = false) cs →
  ∃ c', apart k H o C Hl D h0 (run o cs h).2 c'.
Proof.
  induction cs as [|call cs IH]; intros h c Do DC Hap Hns; [eauto |].
  apply Forall_cons in Hns as [Hn1 Hns]. rewrite run_cons.
  destruct (exec_apart D h0 h c call Do DC Hap Hn1) as (c1 & Hap1).
  by eapply IH.
Qed.
End original_and_copy.

Section copy_is_left_alone.
Context `{SI : SchedulerInitializer}.
Context (k : opt_class) (H : gmap string hval).
Context (o C Hl : loc) (h : heap) (c : gmap string loc).
Hypothesis Hat : optimizer_at o k C Hl H h c.
Hypothesis Htyped : well_typed k H.
Hypothesis Hshape : cache_shape k h c.

(** X20. No state is shared the other way either: after [copy()], whatever
    calls of [update], [step] and [reset_step] are made on the
    original, the objects of the copy are not written to, and the
    cache, the step counter, the hyperparameters and the scheduler of
    the copy are what they were. *)
Theorem original_leaves_the_copy_alone (cs : list call) :
  Forall (λ c, is_set_params c = false) cs →
  ∃ o' h1,
    OptimizerBase.copy o h = (Ret o', h1) ∧
    snapshot_of (run o cs h1).2 o' = snapshot_of h o ∧
    ∀ l ob, next h ≤ l → store h1 !! l = Some ob →
            store (run o cs h1).2 !! l = Some ob.
Proof.
  intros Hns.
  destruct (copy_alike k H o C Hl h c Hat Hshape)
    as (_ & Hat1 & _ & Hshape1 & Hsnap).
  set (N := next h) in *. set (h1 := (OptimizerBase.copy o h).2) in *.
  exists (N + o), h1. split; [done |].
  pose proof Hat as (Hwf & (i & Hs & Hk & HC' & HH') & HH & HC).
  pose proof (deepcopy_Inv h o Hwf) as [Hold Hdom Hrefs Hnext].
  fold N in Hold, Hrefs. change (deepcopy o h).2 with h1 in *.
  assert (Hlt : o < N ∧ C < N) by (split; eapply wf_lt; eauto).
  (* the original, in the heap of the copy *)
  assert (Hap : apart k H o C Hl (λ l, N ≤ l) h1 h1 c).
  { split_and!.
    - split_and!.
      + eapply Inv_wf; [by apply deepcopy_Inv | done | done].
      + exists i. rewrite Hold by lia. done.
      + rewrite Hold; [done |]. subst Hl. by eapply wf_lt.
      + rewrite Hold by lia. done.
    - destruct (cache_shape_frame k h h1 c) as [? _]; try done.
      + eapply Inv_wf; [by apply deepcopy_Inv | done | done].
      + intros e x Hx. rewrite Hold; [done | by eapply wf_lt].
      + intros e t m v Hx. rewrite Hold; [done | by eapply wf_lt].
    - done.
    - intros n e Hn He. pose proof (wf_cache _ _ _ _ _ Hwf HC Hn). lia. }
  destruct (run_apart k H o C Hl Htyped (λ l, N ≤ l) h1 cs h1 c)
    as (c' & _ & _ & Hkeep & _); [lia | lia | done | done |].
  split; [|intros l ob Hl0 Hob; by apply Hkeep].
  rewrite <- Hsnap.
  destruct Hat1 as (Hwf1 & Hinst1 & HH1 & HC1).
  eapply (snapshot_frame_on (λ l, N ≤ l) k (N + o) (N + C) (N + Hl) H h1);
    try done; try lia.
  - intros n e (e0 & <- & _)%lookup_fmap_Some. lia.
  - intros e t m v He Hrec.
    pose proof (Hrefs e _ He Hrec) as Hgood.
    split; apply Hgood; simpl; [by left | by right; left].
Qed.
End copy_is_left_alone.

(* ================================================================== *)
(** * The constructors *)

Section constructors.
Context `{SI : SchedulerInitializer} (h : heap).
Hypothesis Hwf : heap_wf h.

Lemma fresh_optimizer_snapshot h' self k lr sch H :
  fresh_optimizer h' self k lr sch H →
  snapshot_of h' self = Some (fresh_snapshot k lr sch H).
Proof.
  intros [_ (i & Hs & <- & Hstep & Hsched & HH & HC)].
  unfold snapshot_of, fresh_snapshot. rewrite Hs, HC, HH.
  by rewrite Hstep, Hsched, fmap_empty.
Qed.

(** X21. With a scheduler factory that returns a scheduler, each
    constructor, given numbers, returns a new instance of its class
    with an empty cache, step counter 0, the scheduler the factory
    makes of [lr_scheduler] and [lr], and hyperparameters that hold the
    arguments under their names, the name of the class under ["id"] and
    the string of the scheduler under ["lr_scheduler"]. In the third
    and fourth parts [x], [y] and [z] are the decay rates and [eps], in
    the order of the signatures. *)
Theorem constructors_build_fresh_optimizers
    (lr x y z : fl) (cn sch : hval) :
  let s := HStr (sched_str (resolve_scheduler sch (Some lr))) in
  (∃ self, (SGD.__init__ lr x cn sch h).1 = Ret self ∧
     store h !! self = None ∧
     snapshot_of (SGD.__init__ lr x cn sch h).2 self
     = Some (fresh_snapshot ClsSGD lr sch
               (<["id" := HStr "SGD"]> (<["lr" := HNum lr]>
                (<["momentum" := HNum x]> (<["clip_norm" := cn]>
                (<["lr_scheduler" := s]> ∅))))))) ∧
  (∃ self, (AdaGrad.__init__ lr x cn sch h).1 = Ret self ∧
     store h !! self = None ∧
     snapshot_of (AdaGrad.__init__ lr x cn sch h).2 self
     = Some (fresh_snapshot ClsAdaGrad lr sch
               (<["id" := HStr "AdaGrad"]> (<["lr" := HNum lr]>
                (<["eps" := HNum x]> (<["clip_norm" := cn]>
                (<["lr_scheduler" := s]> ∅))))))) ∧
  (∃ self, (RMSProp.__init__ lr x y cn sch h).1 = Ret self ∧
     store h !! self = None ∧
     snapshot_of (RMSProp.__init__ lr x y cn sch h).2 self
     = Some (fresh_snapshot ClsRMSProp lr sch
               (<["id" := HStr "RMSProp"]> (<["lr" := HNum lr]>
                (<["eps" := HNum y]> (<["decay" := HNum x]>
                (<["clip_norm" := cn]>
                (<["lr_scheduler" := s]> ∅)))))))) ∧
  (∃ self, (Adam.__init__ lr x y z cn sch h).1 = Ret self ∧
     store h !! self = None ∧
     snapshot_of (Adam.__init__ lr x y z cn sch h).2 self
     = Some (fresh_snapshot ClsAdam lr sch
               (<["id" := HStr "Adam"]> (<["lr" := HNum lr]>
                (<["eps" := HNum z]> (<["decay1" := HNum x]>
                (<["decay2" := HNum y]> (<["clip_norm" := cn]>
                (<["lr_scheduler" := s]> ∅))))))))).
Proof.
  intros s.
  assert (Hnew : store h !! (2 + next h) = None)
    by (apply wf_ge_None; [done | lia]).
  split_and!.
  - destruct (SGD_init_run h Hwf lr x cn sch) as (h' & -> & Hfresh).
    exists (2 + next h). split; [done |]. split; [done |].
    by apply fresh_optimizer_snapshot.
  - destruct (AdaGrad_init_run h Hwf lr x cn sch) as (h' & -> & Hfresh).
    exists (2 + next h). split; [done |]. split; [done |].
    by apply fresh_optimizer_snapshot.
  - destruct (RMSProp_init_run h Hwf lr x y cn sch) as (h' & -> & Hfresh).
    exists (2 + next h). split; [done |]. split; [done |].
    by apply fresh_optimizer_snapshot.
  - destruct (Adam_init_run h Hwf lr x y z cn sch) as (h' & -> & Hfresh).
    exists (2 + next h). split; [done |]. split; [done |].
    by apply fresh_optimizer_snapshot.
Qed.
End constructors.

(* ================================================================== *)
(** * The further properties at work *)

(** An optimizer that has cached nothing yet. *)
Lemma cache_shape_empty k h : cache_shape k h ∅.
Proof.
  assert (array_entries h ∅ ∧ distinct_entries ∅).
  { split; intros ? *; rewrite lookup_empty; discriminate. }
  by destruct k.
Qed.

Ltac read_typed :=
  split; [eexists; split; [read_heap | done] |];
  repeat split; eexists; read_heap.







(** X7 at work. An update of ["w"] on a fresh RMSProp leaves the
    hyperparameter dict, at 4, as it was. *)
Lemma update_changes_only_its_entry_witness :
  ∃ o, store rmsprop0 !! 4 = Some o ∧
       store (update 2 [Fin 1; Fin 1] [Fin 3; Fin 4] "w" None rmsprop0).2 !! 4
       = Some o.
Proof.
  eexists. split; [read_heap |].
  refine (proj2 (update_changes_only_its_entry 2 3 4 ClsRMSProp _ rmsprop0 ∅
                   [Fin 1; Fin 1] [Fin 3; Fin 4] "w" None _ _ _)
                4 _ _ _ _).
  - read_optimizer rmsprop0_wf.
  - read_typed.
  - apply cache_shape_empty.
  - read_heap.
  - done.
  - by rewrite lookup_empty.
Defined.

(** X8 at work. An RMSProp update with a parameter of shape (3,) and a gradient of
    shape (2,) raises, and leaves an entry for ["w"] behind. *)
Lemma failed_update_leaves_its_entry_witness :
  let r := update 2 [Fin 1; Fin 2; Fin 3] [Fin 1; Fin 2] "w" None rmsprop0 in
  r.1 = Raise ValueError ∧
  cached rmsprop0 2 "w" = None ∧
  is_Some (cached r.2 2 "w").
Proof.
  refine (failed_update_leaves_its_entry 2 3 4 ClsRMSProp _ rmsprop0 ∅
            [Fin 1; Fin 2; Fin 3] [Fin 1; Fin 2] "w" None _ _ _ _ _).
  - read_optimizer rmsprop0_wf.
  - read_typed.
  - apply cache_shape_empty.
  - done.
  - unfold compatible. simpl. lia.
Defined.

(** X9 at work. Calls on a fresh SGD: two of them are [step], none names ["b"]. *)
Lemma calls_keep_what_they_do_not_name_witness :
  let cs := [CallUpdate [Fin 1] [Fin 2] "w" None; CallStep; CallStep] in
  ∃ s s',
    snapshot_of sgd0 2 = Some s ∧
    snapshot_of (run (SI := constant_factory) 2 cs sgd0).2 2 = Some s' ∧
    snap_cls s' = snap_cls s ∧
    snap_hyperparameters s' = snap_hyperparameters s ∧
    snap_lr_scheduler s' = snap_lr_scheduler s ∧
    snap_cur_step s' = step_count (snap_cur_step s) cs ∧
    ∀ name, grads_of name cs = [] → snap_cache s' !! name = snap_cache s !! name.
Proof.
  refine (calls_keep_what_they_do_not_name (SI := constant_factory) 2 0 3
            ClsSGD sgd0_hyperparameters _ sgd0 ∅ _ _ _ _).
  - read_typed.
  - read_optimizer sgd0_wf.
  - apply cache_shape_empty.
  - repeat constructor.
Defined.

(** X10 at work. An SGD update leaves the hyperparameter dict, at 3, as it was. *)
Lemma SGD_and_RMSProp_rebind_witness :
  store (update 2 [Fin 1] [Fin 2] "w" None sgd0).2 !! 3
  = Some (OHyper sgd0_hyperparameters).
Proof.
  refine (SGD_and_RMSProp_rebind 2 0 3 ClsSGD sgd0_hyperparameters sgd0 ∅
            [Fin 1] [Fin 2] "w" None _ _ _ _ 3 _ _ _).
  - read_optimizer sgd0_wf.
  - by left.
  - read_typed.
  - apply (cache_shape_empty ClsSGD).
  - read_heap.
  - done.
Defined.

(** AdaGrad after a first update of ["w"]. *)
Lemma adagrad0_updated :
  let h1 := (update 2 [Fin 1; Fin 1] [Fin 1; Fin 2] "w" None adagrad0).2 in
  ∃ c e x, optimizer_at 2 ClsAdaGrad 3 4 adagrad0_hyperparameters h1 c ∧
           c !! "w" = Some e ∧
           store h1 !! e = Some (OArr x).
Proof.
  intros h1.
  destruct (update_has_frame 2 3 4 ClsAdaGrad adagrad0_hyperparameters
              adagrad0 ∅ [Fin 1; Fin 1] [Fin 1; Fin 2] "w" None)
    as [c' Hf].
  - read_optimizer adagrad0_wf.
  - read_typed.
  - apply cache_shape_empty.
  - destruct Hf as [Hat1 _ Hentry _ _ Hshape1 _ _].
    fold h1 in Hat1, Hentry, Hshape1.
    destruct (c' !! "w") as [e|] eqn:He; [|by destruct Hentry].
    destruct Hshape1 as [Harr _].
    destruct (Harr "w" e He) as [x Hx]. by exists c', e, x.
Qed.

(** X11 at work. A second AdaGrad update of ["w"] adds to the array of the first. *)
Lemma AdaGrad_adds_in_place_witness :
  let h1 := (update 2 [Fin 1; Fin 1] [Fin 1; Fin 2] "w" None adagrad0).2 in
  let h2 := (update 2 [Fin 1; Fin 1] [Fin 3; Fin 1] "w" None h1).2 in
  ∃ c e x c',
    store h1 !! 3 = Some (OCache c) ∧ c !! "w" = Some e ∧
    store h1 !! e = Some (OArr x) ∧
    store h2 !! 3 = Some (OCache c') ∧ c' !! "w" = Some e ∧
    store h2 !! e = Some (OArr match iadd x (square [Fin 3; Fin 1]) with
                               | Ret x' => x'
                               | Raise _ => x
                               end).
Proof.
  intros h1 h2.
  destruct adagrad0_updated as (c & e & x & Hat & He & Hx).
  fold h1 in Hat, Hx.
  destruct (AdaGrad_adds_in_place 2 3 4 adagrad0_hyperparameters h1 c
              [Fin 1; Fin 1] [Fin 3; Fin 1] [Fin 3; Fin 1] x "w" None HNone e)
    as (c' & HC' & He' & Hx'); try done.
  - exists (Fin 0.5%R). read_heap.
  - apply clip_unset.
  - exists c, e, x, c'. split_and!; try done. apply Hat.
Defined.

(** X12 at work. [set_params({"lr_scheduler": "x"})] on a fresh SGD asks the factory
    for a scheduler and keeps the step. *)
Lemma set_params_scheduler_witness :
  let d : gmap string hval := {["lr_scheduler" := HStr "x"]} in
  ∃ i',
    store (OptimizerBase.set_params (SI := constant_factory) 2 (Some d) None
             sgd0).2 !! 2 = Some (OInst i') ∧
    lr_scheduler i'
    = scheduler_after (SI := constant_factory) (lr_scheduler sgd0_instance)
        sgd0_hyperparameters (Some d) ∧
    cur_step i' = cur_step sgd0_instance.
Proof.
  refine (set_params_scheduler (SI := constant_factory) 2 sgd0 sgd0_instance
            sgd0_hyperparameters ∅ _ None _ _ _).
  - read_heap.
  - read_heap.
  - read_heap.
Defined.





(** X17 at work. Two SGDs built with the same arguments, at 2 and at 6 of one heap. *)
Lemma same_state_same_behaviour_witness :
  let h := (SGD.__init__ (SI := constant_factory)
              (Fin 0.1) (Fin 0.9) (HNum (Fin 1)) HNone sgd0).2 in
  let cs := [CallUpdate [Fin 1] [Fin 2] "w" None; CallStep] in
  snapshot_of (run (SI := constant_factory) 6 cs h).2 6
  = snapshot_of (run (SI := constant_factory) 2 cs h).2 2 ∧
  ∀ p g name loss,
    (update 6 p g name loss (run (SI := constant_factory) 6 cs h).2).1
    = (update 2 p g name loss (run (SI := constant_factory) 2 cs h).2).1.
Proof.
  intros h cs.
  assert (heap_wf h) as Hwf by apply SGD_init_wf, sgd0_wf.
  refine (same_state_same_behaviour (SI := constant_factory) ClsSGD
            sgd0_hyperparameters _ 2 0 3 h ∅ 6 4 7 h ∅ cs _ _ _ _ _ _).
  - read_typed.
  - read_optimizer Hwf.
  - read_optimizer Hwf.
  - apply cache_shape_empty.
  - apply cache_shape_empty.
  - read_heap.
  - repeat constructor.
Defined.

(** X18 at work. A copy of a fresh SGD. *)
Lemma copy_has_the_state_of_the_original_witness :
  ∃ c h1, OptimizerBase.copy 2 sgd0 = (Ret c, h1) ∧
          store sgd0 !! c = None ∧
          snapshot_of h1 c = snapshot_of sgd0 2.
Proof.
  refine (copy_has_the_state_of_the_original sgd0 2 sgd0_instance sgd0_wf _).
  read_heap.
Defined.

(** X19 at work. A fresh RMSProp and its copy, after the same calls. *)
Lemma copy_behaves_like_the_original_witness :
  let cs := [CallUpdate [Fin 1; Fin 1] [Fin 3; Fin 4] "w" None; CallStep] in
  ∃ o' h1,
    OptimizerBase.copy 2 rmsprop0 = (Ret o', h1) ∧
    snapshot_of (run (SI := constant_factory) o' cs h1).2 o'
    = snapshot_of (run (SI := constant_factory) 2 cs rmsprop0).2 2 ∧
    ∀ p g name loss,
      (update o' p g name loss (run (SI := constant_factory) o' cs h1).2).1
      = (update 2 p g name loss
           (run (SI := constant_factory) 2 cs rmsprop0).2).1.
Proof.
  refine (copy_behaves_like_the_original (SI := constant_factory) ClsRMSProp
            _ 2 3 4 rmsprop0 ∅ _ _ _ _ _).
  - read_optimizer rmsprop0_wf.
  - read_typed.
  - apply cache_shape_empty.
  - repeat constructor.
Defined.

(** X20 at work. A fresh RMSProp is copied and then used: the copy is as the original
    was. *)
Lemma original_leaves_the_copy_alone_witness :
  let cs := [CallUpdate [Fin 1; Fin 1] [Fin 3; Fin 4] "w" None; CallStep] in
  ∃ o' h1,
    OptimizerBase.copy 2 rmsprop0 = (Ret o', h1) ∧
    snapshot_of (run (SI := constant_factory) 2 cs h1).2 o'
    = snapshot_of rmsprop0 2 ∧
    ∀ l ob, next rmsprop0 ≤ l → store h1 !! l = Some ob →
            store (run (SI := constant_factory) 2 cs h1).2 !! l = Some ob.
Proof.
  refine (original_leaves_the_copy_alone (SI := constant_factory) ClsRMSProp
            _ 2 3 4 rmsprop0 ∅ _ _ _ _ _).
  - read_optimizer rmsprop0_wf.
  - read_typed.
  - apply cache_shape_empty.
  - repeat constructor.
Defined.

(** X21 at work. [SGD(lr=0.1, momentum=0.9)] in the empty heap. *)
Lemma constructors_build_fresh_optimizers_witness :
  let r := SGD.__init__ (SI := constant_factory)
             (Fin 0.1) (Fin 0.9) HNone HNone empty_heap in
  ∃ self, r.1 = Ret self ∧
    store empty_heap !! self = None ∧
    snapshot_of r.2 self
    = Some (fresh_snapshot (SI := constant_factory) ClsSGD (Fin 0.1) HNone
              (<["id" := HStr "SGD"]> (<["lr" := HNum (Fin 0.1)]>
               (<["momentum" := HNum (Fin 0.9)]> (<["clip_norm" := HNone]>
               (<["lr_scheduler" := HStr "ConstantScheduler"]> ∅)))))).
Proof.
  refine (proj1 (constructors_build_fresh_optimizers (SI := constant_factory)
                   empty_heap _ (Fin 0.1) (Fin 0.9) (Fin 0) (Fin 0)
                   HNone HNone)).
  exact heap_wf_empty.
Defined.

(* ================================================================== *)
(** * Random forests: the vote *)

Section numpy_helpers.
Import rf.

Lemma collect_ret {A B} (f : A → outcome B) (l : list A) :
  (∀ a, a ∈ l → ∃ b, f a = Ret b) →
  ∃ bs, collect f l = Ret bs ∧ Forall2 (λ a b, f a = Ret b) l bs.
Proof.
  induction l as [|a l IH]; intros Hf; [by exists [] |].
  destruct (Hf a) as [b Hb]; [by left |].
  destruct IH as (bs & Hbs & Hall); [intros a' Ha'; apply Hf; by right |].
  exists (b :: bs). simpl. rewrite Hb, Hbs. split; [done |].
  by constructor.
Qed.

Lemma collect_raise {A B} (f : A → outcome B) (l : list A) (e : exn) :
  (∀ a, a ∈ l → f a = Raise e ∨ ∃ b, f a = Ret b) →
  (∃ a, a ∈ l ∧ f a = Raise e) →
  collect f l = Raise e.
Proof.
  induction l as [|a l IH]; intros Hf (a0 & Hin & Ha0).
  - by apply elem_of_nil in Hin.
  - simpl. destruct (Hf a) as [-> | [b Hb]]; [by left | done |].
    rewrite Hb. rewrite IH; [done | |].
    + intros a' Ha'. apply Hf. by right.
    + apply elem_of_cons in Hin as [-> | Hin]; [congruence |].
      by exists a0.
Qed.

Lemma column_length {A} (rows : list (list A)) (j N : nat) :
  Forall (λ r, length r = N) rows → j < N →
  length (column j rows) = length rows.
Proof.
  intros Hrect Hj. unfold column.
  induction Hrect as [|r rows Hr _ IH]; [done |]. simpl.
  destruct (lookup_lt_is_Some_2 r j) as [a ->]; [lia |]. simpl. by f_equal.
Qed.

Lemma columns_length {A} (rows : list (list A)) (n N : nat) :
  length rows = S n → Forall (λ r, length r = N) rows →
  length (columns rows) = N.
Proof.
  intros Hn Hrect. destruct rows as [|r rows]; [done |].
  apply Forall_cons in Hrect as [Hr _].
  unfold columns. by rewrite length_fmap, length_seq.
Qed.

Lemma columns_lookup {A} (rows : list (list A)) (n N j : nat) :
  length rows = S n → Forall (λ r, length r = N) rows → j < N →
  columns rows !! j = Some (column j rows).
Proof.
  intros Hn Hrect Hj. destruct rows as [|r rows]; [done |].
  pose proof Hrect as [Hr _]%Forall_cons.
  unfold columns. rewrite list_lookup_fmap, lookup_seq_lt by lia. done.
Qed.

Lemma elem_of_columns {A} (rows : list (list A)) (n N : nat) x :
  length rows = S n → Forall (λ r, length r = N) rows →
  x ∈ columns rows → ∃ j, j < N ∧ x = column j rows.
Proof.
  intros Hn Hrect Hx. destruct rows as [|r rows]; [done |].
  pose proof Hrect as [Hr _]%Forall_cons.
  unfold columns in Hx. apply list_elem_of_fmap in Hx as (j & -> & Hj).
  apply elem_of_seq in Hj. exists j. split; [lia | done].
Qed.

Lemma elem_of_column {A} (rows : list (list A)) (j : nat) (a : A) :
  a ∈ column j rows ↔ ∃ r, r ∈ rows ∧ r !! j = Some a.
Proof. unfold column. by rewrite list_elem_of_omap. Qed.
End numpy_helpers.

Section bincount_argmax.
Import rf.

Lemma count_nil v : count v [] = 0.
Proof. done. Qed.

Lemma count_cons v z x :
  count v (z :: x) = (if decide (z = v) then 1 else 0) + count v x.
Proof.
  unfold count. rewrite filter_cons. by destruct (decide (z = v)).
Qed.

Lemma count_pos v x : 0 < count v x ↔ v ∈ x.
Proof.
  induction x as [|z x IH].
  - rewrite count_nil, elem_of_nil. lia.
  - rewrite count_cons, elem_of_cons.
    destruct (decide (z = v)) as [-> | Hne]; [split; [by left | lia] |].
    rewrite <- IH. split; [lia |]. intros [? | ?]; [congruence | lia].
Qed.

Lemma count_le_length v x : count v x ≤ length x.
Proof.
  induction x as [|z x IH]; [done |]. rewrite count_cons. simpl.
  destruct (decide (z = v)); lia.
Qed.

Lemma elem_le_max (x : list Z) z :
  z ∈ x → (z ≤ foldr Z.max 0 x)%Z.
Proof.
  induction x as [|a x IH]; [by intros ?%elem_of_nil |].
  intros [-> | Hin]%elem_of_cons; simpl; [lia |].
  specialize (IH Hin). lia.
Qed.

Lemma bincount_ret (x : list Z) :
  Forall (λ z, 0 ≤ z)%Z x →
  ∃ c, bincount x = Ret c ∧
       (x ≠ [] → length c = S (Z.to_nat (foldr Z.max 0%Z x))) ∧
       ∀ v, v < length c → c !! v = Some (count (Z.of_nat v) x).
Proof.
  intros Hpos. unfold bincount.
  destruct (decide (Exists _ x)) as [Hneg | _].
  { apply Exists_exists in Hneg as (z & Hz & Hlt).
    rewrite Forall_forall in Hpos. specialize (Hpos z Hz). lia. }
  eexists. split; [done |]. split.
  - intros Hne. rewrite length_fmap, length_seq. by destruct x.
  - intros v Hv. rewrite length_fmap, length_seq in Hv.
    by rewrite list_lookup_fmap, lookup_seq_lt.
Qed.

Lemma bincount_raise (x : list Z) z :
  z ∈ x → (z < 0)%Z → bincount x = Raise ValueError.
Proof.
  intros Hz Hlt. unfold bincount.
  destruct (decide (Exists _ x)) as [_ | Hno]; [done |].
  destruct Hno. apply Exists_exists. eauto.
Qed.

Lemma argmax_from_spec l : ∀ pre best m i,
  length pre = i → pre !! best = Some m →
  (∀ k w, pre !! k = Some w → w ≤ m ∧ (w = m → best ≤ k)) →
  ∃ m', (pre ++ l) !! argmax_from best m i l = Some m' ∧
        ∀ k w, (pre ++ l) !! k = Some w →
               w ≤ m' ∧ (w = m' → argmax_from best m i l ≤ k).
Proof.
  induction l as [|v l IH]; intros pre best m i Hlen Hbest Hmax.
  - rewrite app_nil_r. simpl. eauto.
  - assert (Hlt : best < i).
    { rewrite <- Hlen. by eapply lookup_lt_Some. }
    rewrite (cons_middle v pre l), app_assoc. simpl.
    destruct (m <? v) eqn:Hmv.
    + apply Nat.ltb_lt in Hmv.
      apply IH.
      * rewrite length_app. simpl. lia.
      * rewrite lookup_app_r, Hlen, Nat.sub_diag by lia. done.
      * intros k w Hk. apply lookup_app_Some in Hk as [Hk | [Hge Hk]].
        -- destruct (Hmax k w Hk). lia.
        -- rewrite Hlen in Hk, Hge.
           apply list_lookup_singleton_Some in Hk as [Hk0 <-]. lia.
    + apply Nat.ltb_ge in Hmv.
      apply IH.
      * rewrite length_app. simpl. lia.
      * by rewrite lookup_app_l by lia.
      * intros k w Hk. apply lookup_app_Some in Hk as [Hk | [Hge Hk]].
        -- by apply Hmax.
        -- rewrite Hlen in Hk, Hge.
           apply list_lookup_singleton_Some in Hk as [Hk0 <-]. lia.
Qed.

(** [argmax] returns the first index of the maximum. *)
Lemma argmax_spec c :
  c ≠ [] →
  ∃ i m, argmax c = Ret i ∧ c !! i = Some m ∧
         ∀ k w, c !! k = Some w → w ≤ m ∧ (w = m → i ≤ k).
Proof.
  intros Hne. destruct c as [|v l]; [done |].
  destruct (argmax_from_spec l [v] 0 v 1) as (m' & Hi & Hmax); try done.
  - intros k w Hk. apply list_lookup_singleton_Some in Hk as [-> <-]. lia.
  - exists (argmax_from 0 v 1 l), m'. by split.
Qed.

(** The label a column of votes gets: one with the most votes, and the
    smallest of those. *)
Lemma vote_of_column (x : list Z) :
  x ≠ [] → Forall (λ z, 0 ≤ z)%Z x →
  ∃ i, match bincount x with
       | Ret c => argmax c
       | Raise e => Raise e
       end = Ret i ∧
       ∀ w, count w x ≤ count (Z.of_nat i) x ∧
            (count w x = count (Z.of_nat i) x → (Z.of_nat i ≤ w)%Z).
Proof.
  intros Hne Hpos.
  destruct (bincount_ret x Hpos) as (c & -> & Hlen & Hc).
  specialize (Hlen Hne).
  destruct (argmax_spec c) as (i & m & -> & Hi & Hmax).
  { intros ->. simpl in Hlen. lia. }
  exists i. split; [done |].
  assert (Hilt : i < length c) by by eapply lookup_lt_Some.
  rewrite (Hc i Hilt) in Hi. injection Hi as <-.
  assert (Hsome : 0 < count (Z.of_nat i) x).
  { destruct x as [|z x]; [done |].
    assert (Hz : z ∈ z :: x) by by left.
    assert (0 ≤ z)%Z by (rewrite Forall_forall in Hpos; by apply Hpos).
    assert (Hzlt : Z.to_nat z < length c).
    { rewrite Hlen. pose proof (elem_le_max _ _ Hz). lia. }
    destruct (Hmax (Z.to_nat z) _ (Hc _ Hzlt)) as [Hle _].
    rewrite Z2Nat.id in Hle by done.
    apply count_pos in Hz. lia. }
  intros w.
  destruct (decide (w ∈ x)) as [Hw | Hw].
  - assert (0 ≤ w)%Z by (rewrite Forall_forall in Hpos; by apply Hpos).
    assert (Hwlt : Z.to_nat w < length c).
    { rewrite Hlen. pose proof (elem_le_max _ _ Hw). lia. }
    destruct (Hmax (Z.to_nat w) _ (Hc _ Hwlt)) as [Hle Htie].
    rewrite Z2Nat.id in Hle, Htie by done.
    split; [done |]. intros Heq. specialize (Htie Heq). lia.
  - assert (count w x = 0) as ->.
    { destruct (decide (0 < count w x)) as [Hp | Hp]; [|lia].
      by apply count_pos in Hp. }
    split; lia.
Qed.
End bincount_argmax.

Section vote.
Import rf.
Context `{DT : DecisionTree}.

Lemma vote_int (self : RandomForest) (rows : list (list Z)) (n N : nat) :
  classifier self = true →
  length rows = S n →
  Forall (λ r, length r = N) rows →
  Forall (Forall (λ z, 0 ≤ z)%Z) rows →
  ∃ out, _vote self (A2Int rows) = Ret (np_array1 out) ∧
         length out = N ∧
         ∀ j i, out !! j = Some i →
           ∀ w, count w (column j rows) ≤ count (Z.of_nat i) (column j rows) ∧
                (count w (column j rows) = count (Z.of_nat i) (column j rows)
                 → (Z.of_nat i ≤ w)%Z).
Proof.
  intros Hcls Hn Hrect Hpos. unfold _vote. rewrite Hcls.
  set (f := λ x : list Z, match bincount x with
                          | Ret c => argmax c
                          | Raise e => Raise e
                          end).
  assert (Hcol : ∀ j, j < N →
            column j rows ≠ [] ∧ Forall (λ z, 0 ≤ z)%Z (column j rows)).
  { intros j Hj. split.
    - intros Hnil. pose proof (column_length rows j N Hrect Hj) as Hl.
      rewrite Hnil, Hn in Hl. done.
    - apply Forall_forall. intros z (r & Hr & Hz)%elem_of_column.
      rewrite Forall_forall in Hpos. specialize (Hpos r Hr).
      rewrite Forall_forall in Hpos. apply Hpos.
      by eapply list_elem_of_lookup_2. }
  destruct (collect_ret f (columns rows)) as (out & -> & Hall).
  { intros x (j & Hj & ->)%(elem_of_columns rows n N); [|done..].
    destruct (Hcol j Hj) as [Hne Hp].
    destruct (vote_of_column _ Hne Hp) as (i & Hi & _). eauto. }
  exists out. split; [done |].
  pose proof (Forall2_length _ _ _ Hall) as Hlen.
  rewrite (columns_length rows n N) in Hlen by done.
  split; [done |]. intros j i Hj.
  assert (Hjlt : j < N) by (rewrite Hlen; by eapply lookup_lt_Some).
  pose proof (columns_lookup rows n N j Hn Hrect Hjlt) as Hcj.
  pose proof (Forall2_lookup_lr _ _ _ _ _ _ Hall Hcj Hj) as Hf.
  destruct (Hcol j Hjlt) as [Hne Hp].
  destruct (vote_of_column _ Hne Hp) as (i' & Hi' & Hspec).
  unfold f in Hf. rewrite Hf in Hi'. by injection Hi' as <-.
Qed.

(** X22. [_vote] of a classifier: given the labels (not negative) that
    one tree or more predict for [N] problems, it returns [N] labels,
    and the label of a problem is one that the most trees predicted
    for it, the smallest of those when several labels tie. *)
Theorem vote_is_the_most_frequent_label (self : RandomForest)
    (rows : list (list Z)) (n N : nat) :
  classifier self = true →
  length rows = S n →
  Forall (λ r, length r = N) rows →
  Forall (Forall (λ z, 0 ≤ z)%Z) rows →
  ∃ out, _vote self (A2Int rows) = Ret (np_array1 out) ∧
         length out = N ∧
         ∀ j i, out !! j = Some i →
           ∀ w, count w (column j rows) ≤ count (Z.of_nat i) (column j rows) ∧
                (count w (column j rows) = count (Z.of_nat i) (column j rows)
                 → (Z.of_nat i ≤ w)%Z).
Proof. apply vote_int. Qed.

(** X23. [_vote] of a classifier does not accept a negative label:
    when a tree has predicted one for some problem, [np.bincount]
    raises [ValueError] and no label is returned for any problem. *)
Theorem vote_of_a_negative_label_raises (self : RandomForest)
    (rows : list (list Z)) (N : nat) (r : list Z) (z : Z) :
  classifier self = true →
  Forall (λ r, length r = N) rows →
  r ∈ rows → z ∈ r → (z < 0)%Z →
  _vote self (A2Int rows) = Raise ValueError.
Proof.
  intros Hcls Hrect Hr Hz Hneg. unfold _vote. rewrite Hcls.
  apply list_elem_of_lookup in Hz as [j Hj].
  assert (Hjlt : j < N).
  { rewrite Forall_forall in Hrect. rewrite <- (Hrect r Hr).
    by eapply lookup_lt_Some. }
  destruct rows as [|r0 rows]; [by apply elem_of_nil in Hr |].
  rewrite (collect_raise _ _ ValueError); [done | |].
  - intros x _. destruct (bincount x) as [c|e] eqn:Hb.
    + destruct c; simpl; eauto.
    + unfold bincount in Hb. destruct (decide _); [|done].
      injection Hb as <-. by left.
  - exists (column j (r0 :: rows)). split.
    + rewrite (list_elem_of_lookup (columns _)). exists j.
      by apply (columns_lookup _ (length rows) N).
    + erewrite bincount_raise; [done | | done].
      apply elem_of_column. eauto.
Qed.
End vote.

Section means.
Import rf.
Local Open Scope R_scope.






End means.

Section vote_mean.
Import rf.
Context `{DT : DecisionTree}.
Local Open Scope R_scope.

End vote_mean.

(* ================================================================== *)
(** * Random forests: predict *)

Section collect.
Import rf.

Lemma collect_fmap {A B} (f : A → outcome B) (g : A → B) (l : list A) :
  (∀ a, a ∈ l → f a = Ret (g a)) → collect f l = Ret (g <$> l).
Proof.
  induction l as [|a l IH]; intros Hf; [done |].
  simpl. rewrite (Hf a) by by left.
  rewrite IH; [done |]. intros a' Ha'. apply Hf. by right.
Qed.

Lemma collect_ext {A B} (f f' : A → outcome B) (l : list A) :
  (∀ a, a ∈ l → f a = f' a) → collect f l = collect f' l.
Proof.
  induction l as [|a l IH]; intros Hf; [done |].
  simpl. rewrite (Hf a) by by left.
  rewrite IH; [done |]. intros a' Ha'. apply Hf. by right.
Qed.


Lemma mapM_as_int (rows : list (list Z)) :
  mapM (M := option) (mapM (M := option) as_int)
    (fmap (M := list) (fmap (M := list) VInt) rows) = Some rows.
Proof.
  apply mapM_Some. apply Forall2_fmap_l, Forall_Forall2_diag, Forall_forall.
  intros r _. apply mapM_Some, Forall2_fmap_l, Forall_Forall2_diag.
  by apply Forall_forall.
Qed.

(** The array of integer scalars, with one at least. *)
Lemma np_array2_int (rows : list (list Z)) :
  concat rows ≠ [] →
  np_array2 (fmap (M := list) (fmap (M := list) VInt) rows) = A2Int rows.
Proof.
  intros Hne. unfold np_array2. rewrite mapM_as_int.
  destruct (concat (fmap _ rows)) eqn:Hc; [|done].
  destruct Hne. clear -Hc.
  induction rows as [|r rows IH]; [done |].
  rewrite fmap_cons in Hc. simpl in Hc.
  apply app_eq_nil in Hc as [Hr Hc].
  apply fmap_nil_inv in Hr as ->. simpl. by apply IH.
Qed.

(** The array of no scalar. *)
Lemma np_array2_empty (rows : list (list value)) :
  concat rows = [] →
  np_array2 rows = A2Float (fmap (M := list) (fmap (M := list) to_float) rows).
Proof.
  intros Hc. unfold np_array2. rewrite Hc. by destruct (mapM _ rows).
Qed.
End collect.

Section predict.
Import rf.
Context `{DT : DecisionTree}.

Lemma vote_without_columns (self : RandomForest) (rows : list (list fl)) :
  columns rows = [] → _vote self (A2Float rows) = Ret (A1Float []).
Proof.
  intros Hc. unfold _vote. rewrite Hc. by destruct (classifier self).
Qed.

Lemma predict_without_rows (self : RandomForest) :
  predict self [] = Ret (A1Float []).
Proof.
  unfold predict.
  rewrite (collect_fmap _ (λ _, [])) by done.
  rewrite np_array2_empty.
  - apply vote_without_columns.
    destruct (trees self) as [|t ts]; done.
  - induction (trees self) as [|t ts IH]; [done |]. by rewrite fmap_cons.
Qed.

Lemma predict_without_trees (self : RandomForest) (X : list (list fl)) :
  trees self = [] → predict self X = Ret (A1Float []).
Proof.
  intros Hts. unfold predict. rewrite Hts. simpl.
  by apply vote_without_columns.
Qed.

(** X25. [predict] does not raise for want of trees or of rows: a
    forest without trees, as [__init__] leaves it before [fit], and
    any forest given an [X] without rows, return an empty array. *)
Theorem predict_of_nothing (self : RandomForest) (X : list (list fl)) :
  trees self = [] ∨ X = [] → predict self X = Ret (A1Float []).
Proof.
  intros [Hts | ->].
  - by apply predict_without_trees.
  - apply predict_without_rows.
Qed.

(** X26. [predict] of a classifier is the vote of the trees: when every
    tree returns an integer label, not negative, for every row of
    [X], and there is a tree, [predict] returns one label for each
    row, and it is a label that the most trees gave the row, the
    smallest of those when several labels tie. *)
Theorem predict_is_the_majority_of_the_trees (self : RandomForest)
    (X : list (list fl)) (label : tree → list fl → Z) :
  classifier self = true →
  trees self ≠ [] →
  (∀ t x, t ∈ trees self → x ∈ X →
          _traverse t x = Ret (VInt (label t x)) ∧ (0 ≤ label t x)%Z) →
  ∃ out, predict self X = Ret (np_array1 out) ∧
         length out = length X ∧
         ∀ j x i, X !! j = Some x → out !! j = Some i →
           let votes := (λ t, label t x) <$> trees self in
           ∀ w, count w votes ≤ count (Z.of_nat i) votes ∧
                (count w votes = count (Z.of_nat i) votes
                 → (Z.of_nat i ≤ w)%Z).
Proof.
  intros Hcls Hts Hlabel.
  destruct X as [|x0 X0] eqn:HX.
  { exists []. rewrite predict_without_rows. split; [done |].
    split; [done |]. intros j x i Hj. by rewrite lookup_nil in Hj. }
  rewrite <- HX in *.
  set (rows := (λ t, (λ x, label t x) <$> X) <$> trees self).
  assert (Hpreds :
    collect (λ t, collect (λ x, _traverse t x) X) (trees self)
    = Ret (fmap (M := list) (fmap (M := list) VInt) rows)).
  { unfold rows. rewrite <- list_fmap_compose.
    apply collect_fmap. intros t Ht. simpl.
    rewrite <- list_fmap_compose.
    apply collect_fmap. intros x Hx. by apply Hlabel. }
  destruct (trees self) as [|t0 ts] eqn:Htrees; [done |].
  assert (Hrect : Forall (λ r, length r = length X) rows).
  { apply Forall_fmap, Forall_forall. intros t _. simpl.
    by rewrite length_fmap. }
  assert (Hnonneg : Forall (Forall (λ z, 0 ≤ z)%Z) rows).
  { apply Forall_fmap, Forall_forall. intros t Ht. simpl.
    apply Forall_fmap, Forall_forall. intros x Hx. simpl.
    by apply Hlabel. }
  destruct (vote_int self rows (length ts) (length X))
    as (out & Hvote & Hlen & Hspec); try done.
  { unfold rows. by rewrite length_fmap. }
  exists out. unfold predict. rewrite Htrees, Hpreds.
  rewrite np_array2_int; cycle 1.
  { unfold rows. rewrite fmap_cons. simpl. rewrite HX. done. }
  split; [done |]. split; [done |].
  intros j x i Hj Hi. cbv zeta.
  assert (Hcol : column j rows = (λ t, label t x) <$> (t0 :: ts)).
  { unfold column, rows. clear -Hj.
    induction (t0 :: ts) as [|t l IH]; [done |].
    rewrite !fmap_cons. cbn [omap list_omap].
    rewrite list_lookup_fmap, Hj. simpl. by rewrite IH. }
  rewrite <- Hcol. by apply Hspec.
Qed.
End predict.

(* ================================================================== *)
(** * Random forests: the order of the trees *)

Section permutations.
Import rf.








End permutations.

Section order_of_trees.
Import rf.
Context `{DT : DecisionTree}.



End order_of_trees.

(* ================================================================== *)
(** * Random forests: sampling and fitting *)

Section indexing.
Import rf.

Lemma take_ret {A} (a : list A) (idxs : list nat) :
  Forall (λ i, i < length a) idxs →
  ∃ vs, take a idxs = Ret vs ∧
        length vs = length idxs ∧
        ∀ j i, idxs !! j = Some i → vs !! j = a !! i.
Proof.
  induction 1 as [|i idxs Hi _ (vs & Hvs & Hlen & Hlook)].
  - exists []. split; [done |]. split; [done |].
    intros j i Hj. by rewrite lookup_nil in Hj.
  - destruct (lookup_lt_is_Some_2 a i Hi) as [v Hv].
    exists (v :: vs). simpl. rewrite Hv, Hvs. split; [done |].
    split; [simpl; lia |].
    intros [|j] i' Hj; simpl in *; [by injection Hj as <- | by apply Hlook].
Qed.

Lemma take1_ret (y : array1) (idxs : list nat) :
  Forall (λ i, i < len1 y) idxs →
  ∃ ys, take1 y idxs = Ret ys ∧
        len1 ys = length idxs ∧
        ∀ j i, idxs !! j = Some i → item ys j = item y i.
Proof.
  intros Hidx. destruct y as [x | x]; simpl in Hidx;
    destruct (take_ret x idxs Hidx) as (vs & Hvs & Hlen & Hlook);
    [exists (A1Int vs) | exists (A1Float vs)];
    simpl; rewrite Hvs; (split; [done |]); (split; [done |]);
    intros j i Hj; by rewrite (Hlook j i Hj).
Qed.
End indexing.

Section sampling.
Import rf.
Context `{DT : DecisionTree}.
Hypothesis Hchoice : choice_in_range.

Lemma bootstrap_ret (X : list (list fl)) (Y : array1) (s : random_state) :
  0 < length X → length X ≤ len1 Y →
  ∃ Xs Ys,
    (bootstrap_sample X Y s).1 = Ret (Xs, Ys) ∧
    length Xs = length X ∧ len1 Ys = length X ∧
    ∀ j, j < length X →
         ∃ i, i < length X ∧ Xs !! j = X !! i ∧ item Ys j = item Y i.
Proof.
  intros Hpos Hlen. unfold bootstrap_sample.
  destruct (Hchoice (length X) (length X) s Hpos)
    as (idxs & Hidxs & Hn & Hrange).
  destruct (choice (length X) (length X) s) as [o s'].
  simpl in Hidxs. subst o.
  destruct (take_ret X idxs Hrange) as (Xs & -> & HlX & HX).
  destruct (take1_ret Y idxs) as (Ys & -> & HlY & HY).
  { eapply Forall_impl; [exact Hrange |]. simpl. lia. }
  exists Xs, Ys. split; [done |]. split; [lia |]. split; [lia |].
  intros j Hj.
  destruct (lookup_lt_is_Some_2 idxs j) as [i Hi]; [lia |].
  exists i. split; [|split].
  - rewrite Forall_forall in Hrange. apply Hrange.
    by eapply list_elem_of_lookup_2.
  - by apply HX.
  - by apply HY.
Qed.

(** X28. [bootstrap_sample] keeps each row with its target: when
    [np.random.choice] draws indices below its bound, [X] has a row
    and [Y] has a target for every row, the sample has as many rows
    and targets as [X] has rows, and each row of the sample stands
    beside the target that stood beside it in the data. *)
Theorem bootstrap_sample_keeps_the_pairs (X : list (list fl))
    (Y : array1) (s : random_state) :
  0 < length X → length X ≤ len1 Y →
  ∃ Xs Ys,
    (bootstrap_sample X Y s).1 = Ret (Xs, Ys) ∧
    length Xs = length X ∧ len1 Ys = length X ∧
    ∀ j, j < length X →
         ∃ i, i < length X ∧ Xs !! j = X !! i ∧ item Ys j = item Y i.
Proof. apply bootstrap_ret. Qed.
End sampling.

Section fitting.
Import rf.
Context `{DT : DecisionTree}.

Lemma fit_loop_spec (X : list (list fl)) (Y : array1) (n : nat) :
  ∀ (self : RandomForest) (s : random_state),
    let r := fit_loop n self X Y s in
    n_trees r.1.2 = n_trees self ∧ n_feats r.1.2 = n_feats self ∧
    max_depth r.1.2 = max_depth self ∧ criterion r.1.2 = criterion self ∧
    classifier r.1.2 = classifier self ∧
    (∃ new, trees r.1.2 = trees self ++ new ∧
            match r.1.1 with
            | Ret _ => length new = n
            | Raise _ => length new < n
            end).
Proof.
  induction n as [|n IH]; intros self s.
  - simpl. split_and!; try done. exists []. by rewrite app_nil_r.
  - cbn [fit_loop].
    destruct (bootstrap_sample X Y s) as [[[Xs Ys] | e] s1].
    + destruct (tree_fit _ Xs Ys s1) as [[t' | e] s2].
      * specialize (IH (set_trees self (trees self ++ [t'])) s2).
        destruct IH as (H1 & H2 & H3 & H4 & H5 & new & Hnew & Hout).
        split_and!; try done.
        exists (t' :: new). simpl in Hnew.
        rewrite Hnew, <- app_assoc. split; [done |].
        destruct (fit_loop n _ X Y s2) as [[[[]|e] f] s3]; simpl in *; lia.
      * simpl. split_and!; try done. exists [].
        rewrite app_nil_r. split; [done | simpl; lia].
    + simpl. split_and!; try done. exists [].
      rewrite app_nil_r. split; [done | simpl; lia].
Qed.

End fitting.

Section fitting_succeeds.
Import rf.
Context `{DT : DecisionTree}.
Hypothesis Hchoice : choice_in_range.
Hypothesis Hfit : ∀ t Xs Ys s, ∃ t', (tree_fit t Xs Ys s).1 = Ret t'.

(** A tree fitted to a sample of [X]: as many rows as [X] has, each
    of them a row of [X]. *)
Let fitted_to_a_sample (self : RandomForest) (X : list (list fl))
    (t' : tree) : Prop :=
  ∃ Xs Ys s1,
    (tree_fit (tree_init (n_feats self) (max_depth self) (criterion self)
                 (classifier self)) Xs Ys s1).1 = Ret t' ∧
    length Xs = length X ∧ Forall (λ x, x ∈ X) Xs.

Lemma fit_loop_ret (X : list (list fl)) (Y : array1) (n : nat) :
  0 < length X → length X ≤ len1 Y →
  ∀ (self : RandomForest) (s : random_state),
    let r := fit_loop n self X Y s in
    r.1.1 = Ret () ∧
    ∃ new, trees r.1.2 = trees self ++ new ∧
           Forall (fitted_to_a_sample self X) new.
Proof.
  intros Hpos Hlen. induction n as [|n IH]; intros self s.
  - simpl. split; [done |]. exists []. by rewrite app_nil_r.
  - cbn [fit_loop].
    destruct (bootstrap_ret Hchoice X Y s Hpos Hlen)
      as (Xs & Ys & Hb & HlX & _ & Hrows).
    destruct (bootstrap_sample X Y s) as [o s1]. simpl in Hb. subst o.
    destruct (Hfit (tree_init (n_feats self) (max_depth self)
                      (criterion self) (classifier self)) Xs Ys s1)
      as [t' Ht'].
    destruct (tree_fit _ Xs Ys s1) as [o s2] eqn:Hrun.
    simpl in Ht'. subst o.
    destruct (IH (set_trees self (trees self ++ [t'])) s2)
      as (Hret & new & Hnew & Hall).
    split; [done |]. exists (t' :: new). simpl in Hnew.
    rewrite Hnew, <- app_assoc. split; [done |].
    constructor; [|done].
    exists Xs, Ys, s1. rewrite Hrun. split; [done |]. split; [done |].
    apply Forall_forall. intros x [j Hj]%list_elem_of_lookup.
    destruct (Hrows j) as (i & Hi & Hx & _).
    { rewrite <- HlX. by eapply lookup_lt_Some. }
    rewrite Hj in Hx. by eapply list_elem_of_lookup_2.
Qed.

(** X30. [fit] fits every tree to a bootstrap sample: when
    [np.random.choice] draws indices below its bound, [X] has a row,
    [Y] a target for every row and the fitting of a tree does not
    raise, [fit] returns, and each of its [n_trees] trees is a tree
    built with the attributes of the forest and fitted to as many
    rows as [X] has, all of them rows of [X]. *)
Theorem fit_fits_each_tree_to_a_sample (self : RandomForest)
    (X : list (list fl)) (Y : array1) (s : random_state) :
  0 < length X → length X ≤ len1 Y →
  (fit self X Y s).1.1 = Ret () ∧
  length (trees (fit self X Y s).1.2) = Z.to_nat (n_trees self) ∧
  Forall (λ t',
    ∃ Xs Ys s1,
      (tree_fit (tree_init (n_feats self) (max_depth self)
                   (criterion self) (classifier self)) Xs Ys s1).1 = Ret t' ∧
      length Xs = length X ∧ Forall (λ x, x ∈ X) Xs)
    (trees (fit self X Y s).1.2).
Proof.
  intros Hpos Hlen. unfold fit.
  destruct (fit_loop_ret X Y (Z.to_nat (n_trees self)) Hpos Hlen
              (set_trees self []) s) as (Hret & new & Hnew & Hall).
  destruct (fit_loop_spec X Y (Z.to_nat (n_trees self))
              (set_trees self []) s)
    as (_ & _ & _ & _ & _ & new' & Hnew' & Hout).
  rewrite Hret in Hout. simpl in Hnew, Hnew'.
  split; [done |]. split; [by rewrite Hnew' |].
  by rewrite Hnew.
Qed.
End fitting_succeeds.

(* ================================================================== *)
(** * Random forests: the properties at work *)

Section forests_at_work.
Import rf.

Lemma counter_random_in_range : @choice_in_range counter_random.
Proof.
  intros a size s Ha. eexists. split; [reflexivity |].
  split; [apply length_replicate |].
  apply Forall_replicate. apply Nat.mod_upper_bound. lia.
Qed.

(** X22 at work. Three trees vote on two problems: [1, 1, 0] and
    [0, 2, 2]. *)
Lemma vote_is_the_most_frequent_label_witness :
  let self := __init__ (DT := constant_tree) 3 None 2 true "entropy" in
  let rows := [[1; 0]; [1; 2]; [0; 2]]%Z in
  ∃ out, _vote self (A2Int rows) = Ret (np_array1 out) ∧
         length out = 2 ∧
         ∀ j i, out !! j = Some i →
           ∀ w, count w (column j rows) ≤ count (Z.of_nat i) (column j rows) ∧
                (count w (column j rows) = count (Z.of_nat i) (column j rows)
                 → (Z.of_nat i ≤ w)%Z).
Proof.
  refine (vote_is_the_most_frequent_label (DT := constant_tree)
            _ [[1; 0]; [1; 2]; [0; 2]]%Z 2 2 _ _ _ _).
  - reflexivity.
  - reflexivity.
  - by repeat constructor.
  - repeat constructor; lia.
Defined.

(** X23 at work. One tree predicts the label -1 for the second
    problem. *)
Lemma vote_of_a_negative_label_raises_witness :
  _vote (__init__ (DT := constant_tree) 2 None 2 true "entropy")
        (A2Int [[1; -1]; [0; 2]]%Z)
  = Raise ValueError.
Proof.
  refine (vote_of_a_negative_label_raises (DT := constant_tree)
            _ [[1; -1]; [0; 2]]%Z 2 [1; -1]%Z (-1) _ _ _ _ _).
  - reflexivity.
  - by repeat constructor.
  - by left.
  - right. by left.
  - lia.
Defined.


(** X25 at work. A forest that was not fitted. *)
Lemma predict_of_nothing_witness :
  predict (__init__ (DT := constant_tree) 10 None 2 true "entropy")
          [[Fin 1; Fin 2]; [Fin 3; Fin 4]]
  = Ret (A1Float []).
Proof.
  refine (predict_of_nothing (DT := constant_tree) _ _ _).
  left. reflexivity.
Defined.

(** X26 at work. Trees that predict 1, 1 and 0 for every row. *)
Lemma predict_is_the_majority_of_the_trees_witness :
  let self := set_trees (__init__ (DT := constant_tree) 3 None 2 true "gini")
                [VInt 1; VInt 1; VInt 0] in
  let X := [[Fin 1; Fin 2]; [Fin 3; Fin 4]] in
  let label := λ (t : value) (x : list fl),
                 match t with VInt z => z | VFloat _ => 0%Z end in
  ∃ out, predict self X = Ret (np_array1 out) ∧
         length out = length X ∧
         ∀ j x i, X !! j = Some x → out !! j = Some i →
           let votes := (λ t, label t x) <$> trees self in
           ∀ w, count w votes ≤ count (Z.of_nat i) votes ∧
                (count w votes = count (Z.of_nat i) votes
                 → (Z.of_nat i ≤ w)%Z).
Proof.
  refine (predict_is_the_majority_of_the_trees (DT := constant_tree)
            _ _ _ _ _ _).
  - reflexivity.
  - done.
  - intros t x Ht _. simpl in Ht.
    repeat (apply elem_of_cons in Ht as [-> | Ht]);
      [| | | by apply elem_of_nil in Ht]; (split; [reflexivity | simpl; lia]).
Defined.


(** X28 at work. Two rows and their targets, sampled. *)
Lemma bootstrap_sample_keeps_the_pairs_witness :
  let X := [[Fin 1]; [Fin 2]] in
  let Y := A1Int [0; 1]%Z in
  ∃ Xs Ys,
    (bootstrap_sample (H := counter_random) X Y 1).1 = Ret (Xs, Ys) ∧
    length Xs = length X ∧ len1 Ys = length X ∧
    ∀ j, j < length X →
         ∃ i, i < length X ∧ Xs !! j = X !! i ∧ item Ys j = item Y i.
Proof.
  refine (bootstrap_sample_keeps_the_pairs (H := counter_random)
            counter_random_in_range _ _ 1 _ _).
  - simpl. lia.
  - simpl. lia.
Defined.

(** X30 at work. A forest of three trees is fitted to two rows. *)
Lemma fit_fits_each_tree_to_a_sample_witness :
  let self := __init__ (DT := constant_tree) 3 None 2 true "entropy" in
  let X := [[Fin 1]; [Fin 2]] in
  let Y := A1Int [0; 1]%Z in
  (fit self X Y 1).1.1 = Ret () ∧
  length (trees (fit self X Y 1).1.2) = Z.to_nat (n_trees self) ∧
  Forall (λ t',
    ∃ Xs Ys s1,
      (tree_fit (tree_init (n_feats self) (max_depth self)
                   (criterion self) (classifier self)) Xs Ys s1).1 = Ret t' ∧
      length Xs = length X ∧ Forall (λ x, x ∈ X) Xs)
    (trees (fit self X Y 1).1.2).
Proof.
  refine (fit_fits_each_tree_to_a_sample (DT := constant_tree)
            counter_random_in_range _ _ _ _ 1 _ _).
  - intros t Xs Ys s. eexists. reflexivity.
  - simpl. lia.
  - simpl. lia.
Defined.
End forests_at_work.
